(** * MOF descriptor pipeline: a shallow embedding of
    molSimplify/Informatics/MOF/MOF_descriptors.py

    Python sets of atom indices are stdpp [gset nat], lists are lists,
    dictionaries are [gmap]; files are an explicit [store] threaded through
    a small state-and-exception monad.  Floating point values are idealised
    as exact rationals carrying the tag of their Python type. *)

From Stdlib Require Import ZArith QArith Reals Lra String Ascii List Permutation Lia.
From stdpp Require Import base gmap sets list strings pretty sorting.

Local Open Scope string_scope.
Local Open Scope list_scope.
Local Open Scope nat_scope.

(** ** Python values that end up in descriptor lists *)

Inductive pyval :=
| PyFloat (q : Q)        (* a plain Python float *)
| NpFloat64 (q : Q)      (* numpy.float64 *)
| PyInt (z : Z)          (* int, also every other numeric wrapper *)
| PyStr (s : string).

(** Python [==] between the values above: numbers compare by value,
    a string is equal only to the same string. *)
Definition py_eqb (a b : pyval) : bool :=
  match a, b with
  | PyStr s, PyStr t => String.eqb s t
  | PyStr _, _ | _, PyStr _ => false
  | PyInt x, PyInt y => Z.eqb x y
  | PyInt x, (PyFloat q | NpFloat64 q) | (PyFloat q | NpFloat64 q), PyInt x =>
      Qeq_bool (inject_Z x) q
  | (PyFloat p | NpFloat64 p), (PyFloat q | NpFloat64 q) => Qeq_bool p q
  end.

(** [list.remove(x)]: drops the first element equal to [x]. *)
Fixpoint py_remove (x : pyval) (l : list pyval) : list pyval :=
  match l with
  | [] => []
  | y :: l' => if py_eqb y x then l' else y :: py_remove x l'
  end.

Fixpoint str_remove (x : string) (l : list string) : list string :=
  match l with
  | [] => []
  | y :: l' => if String.eqb y x then l' else y :: str_remove x l'
  end.

(** The check of lines 261-264: [type(val) == float or isinstance(val, np.float64)]. *)
Definition is_float (v : pyval) : bool :=
  match v with PyFloat _ | NpFloat64 _ => true | _ => false end.

(** ** Exceptions and results *)

Inductive exn :=
| ValueError (msg : string)
| AssertionError (msg : string)
| NotImplementedError
| TypeError
| IndexError
| KeyError
| UnboundLocalError
| OSError.

Definition ValueError_ragged : exn :=
  ValueError "setting an array element with a sequence".

Inductive result (A : Type) :=
| Ok (a : A)
| Raise (e : exn).
Arguments Ok {A} a.
Arguments Raise {A} e.

(** ** Molecules and bond graphs *)

Definition point : Type := Q * Q * Q.

Record atom3D := { sym : string; coords : point }.

(** A square 0/1 matrix: [scipy.sparse.csr_matrix] or its dense form. *)
Record adj_matrix := { shape0 : nat; entry : nat → nat → bool }.

(** [np.nonzero(adj_matrix[i,:])[1]]: the column indices of the bonds of [i]. *)
Definition nonzero_row (A : adj_matrix) (i : nat) : list nat :=
  List.filter (entry A i) (seq 0 (shape0 A)).

(** Lines 950-953: the matrix built from the bond records of the cif file. *)
Definition adj_of_bonds (bonds : list (nat * nat)) : adj_matrix :=
  {| shape0 := S (foldl (λ m '(a, b), Nat.max b (Nat.max a m)) 0 bonds);
     entry i j :=
       existsb (λ '(a, b), (Nat.eqb a i && Nat.eqb b j) || (Nat.eqb b i && Nat.eqb a j)) bonds |}.

Record mol3D := { atoms : list atom3D; graph : adj_matrix }.

Definition no_atom : atom3D := {| sym := ""; coords := (0, 0, 0)%Q |}.
Definition getAtom (m : mol3D) (i : nat) : atom3D := nth i (atoms m) no_atom.

(** Modelled from the spec: mol3D's bond query ("Bond Graph: a symmetric,
    loop-free relation over atom indices"; the class is not under src/).
    It reads the graph assigned to the molecule at line 958. *)
Definition getBondedAtomsSmart (m : mol3D) (i : nat) : list nat :=
  nonzero_row (graph m) i.

Definition char_upper (c : ascii) : ascii :=
  let n := nat_of_ascii c in
  if (97 <=? n) && (n <=? 122) then ascii_of_nat (n - 32) else c.

Fixpoint upper (s : string) : string :=
  match s with
  | EmptyString => EmptyString
  | String c s' => String (char_upper c) (upper s')
  end.

(** [atom.symbol().upper() == 'H'] *)
Definition is_H (a : atom3D) : bool := String.eqb (upper (sym a)) "H".

(** Modelled from the spec: "is metal" is a pure function of the symbol
    (atom3D is not under src/).  The first argument is the keyword
    [transition_metals_only]; [tmo_default] is its value when omitted. *)
Class Elements := {
  ismetal_sym : bool → string → bool;
  tmo_default : bool
}.

(** ** The output directory

    A [store] is the content of the directory [path]: text files that
    [write2file] appends to, the three csv tables, and the other files
    (xyz, connection indices) keyed by their path below [path]. *)

Definition row : Type := gmap string pyval.

Record store := {
  texts : gmap string (list string);
  sbu_table : list row;        (* sbu_descriptors.csv *)
  linker_table : list row;     (* linker_descriptors.csv *)
  lc_table : list row;         (* lc_descriptors.csv *)
  written : gmap string string
}.

Definition M (A : Type) : Type := store → result A * store.

Definition ret {A} (a : A) : M A := λ s, (Ok a, s).
Definition raise {A} (e : exn) : M A := λ s, (Raise e, s).
Definition bind {A B} (m : M A) (f : A → M B) : M B :=
  λ s, match m s with
       | (Ok a, s') => f a s'
       | (Raise e, s') => (Raise e, s')
       end.
(** [try: m except: h] with a bare [except]. *)
Definition try_except {A} (m : M A) (h : M A) : M A :=
  λ s, match m s with
       | (Ok a, s') => (Ok a, s')
       | (Raise _, s') => h s'
       end.
Definition lift {A} (r : result A) : M A := λ s, (r, s).

Notation "'do' x <- m ; k" := (bind m (λ x, k))
  (at level 10, x pattern, m at level 100, k at level 200).
Notation "m >> k" := (bind m (λ _, k)) (at level 90, right associativity).

Fixpoint forM {A S} (l : list A) (body : S → A → M S) (s : S) : M S :=
  match l with
  | [] => ret s
  | x :: l' => do s' <- body s x; forM l' body s'
  end.

(** [enumerate(l)] *)
Definition enumerate {A} (l : list A) : list (nat * A) := imap pair l.

(** Modelled from the spec: [write2file] appends one entry to a text file
    ("a failure log appended with one line per failed structure";
    PBC_functions is not under src/). *)
Definition write2file (file : string) (text : string) : M unit :=
  λ s, (Ok tt, {| texts := <[file := default [] (texts s !! file) ++ [text]]> (texts s);
                  sbu_table := sbu_table s; linker_table := linker_table s;
                  lc_table := lc_table s; written := written s |}).

(** [open(file, 'w').write(text)] and the xyz writers. *)
Definition write_file (file : string) (text : string) : M unit :=
  λ s, (Ok tt, {| texts := texts s; sbu_table := sbu_table s; linker_table := linker_table s;
                  lc_table := lc_table s; written := <[file := text]> (written s) |}).

(** [DataFrame.to_csv] on the three tables. *)
Definition to_csv_sbu (df : list row) : M unit :=
  λ s, (Ok tt, {| texts := texts s; sbu_table := df; linker_table := linker_table s;
                  lc_table := lc_table s; written := written s |}).
Definition to_csv_linker (df : list row) : M unit :=
  λ s, (Ok tt, {| texts := texts s; sbu_table := sbu_table s; linker_table := df;
                  lc_table := lc_table s; written := written s |}).
Definition to_csv_lc (df : list row) : M unit :=
  λ s, (Ok tt, {| texts := texts s; sbu_table := sbu_table s; linker_table := linker_table s;
                  lc_table := df; written := written s |}).

(** [pd.read_csv] when the file is not empty, else [pd.DataFrame()]. *)
Definition read_csv_sbu : M (list row) := λ s, (Ok (sbu_table s), s).
Definition read_csv_linker : M (list row) := λ s, (Ok (linker_table s), s).
Definition read_csv_lc : M (list row) := λ s, (Ok (lc_table s), s).

Definition nl : string := String (ascii_of_nat 10) "".

(** [str] of a set of indices, for the log lines. *)
Definition str_set (s : gset nat) : string :=
  match elements s with
  | [] => "set()"
  | l => "{" +:+ String.concat ", " (map pretty l) +:+ "}"
  end.

(** ** External collaborators *)

Definition cell : Type := list point.
Definition image : Type := Z * Z * Z.
Definition subgraphs : Type := list (list nat) * list adj_matrix.

(** The periodic-geometry helpers of PBC_functions and scipy's
    connected components; none of them is under src/. *)
Class PBC := {
  compute_adj_matrix : cell → list point → list string → Q → result adj_matrix;
  connected_components : adj_matrix → nat * list nat;
  get_closed_subgraph : gset nat → gset nat → adj_matrix → subgraphs;
  include_extra_shells : list (list nat) → list adj_matrix → mol3D → adj_matrix → subgraphs;
  linker_length : adj_matrix → gset nat → nat * nat;
  ligand_detect : cell → list point → adj_matrix → gset nat → list image;
  slice_mat : adj_matrix → list nat → adj_matrix;
  (* XYZ_connected followed by writeXYZandGraph: the text of an xyz file *)
  xyz_and_graph_text : list string → cell → list point → adj_matrix → string
}.

(** What an autocorrelation kernel returns: [{'colnames': ..., 'results': ...}]. *)
Record results_dictionary := {
  colnames : list (list string);
  results : list (list pyval)
}.

(** The autocorrelation kernels of molSimplify.Informatics.autocorrelation,
    external to this pipeline. *)
Class Kernels := {
  generate_atomonly_autocorrelations : mol3D → list nat → nat → results_dictionary;
  generate_atomonly_deltametrics : mol3D → list nat → nat → results_dictionary;
  generate_full_complex_autocorrelations : mol3D → nat → results_dictionary;
  generate_multimetal_autocorrelations : mol3D → nat → results_dictionary;
  generate_multimetal_deltametrics : mol3D → nat → results_dictionary;
  full_autocorrelation : mol3D → string → nat → list pyval
}.

(** ** Averaging: [np.mean(np.array(rows), axis=0)] *)

Inductive ndarray (A : Type) :=
| NdVector (v : list A)   (* a one-dimensional array *)
| NdNaN                   (* no rows: the scalar nan *)
| NdRagged.               (* rows of different lengths: no array *)
Arguments NdVector {A} v.
Arguments NdNaN {A}.
Arguments NdRagged {A}.

Section Mean.
Context {A : Type} (zero : A) (add : A → A → A) (div_by : A → nat → A).

Definition column_sums (width : nat) (rows : list (list A)) : list A :=
  foldl (zip_with add) (repeat zero width) rows.

Definition np_mean_axis0 (rows : list (list A)) : ndarray A :=
  match rows with
  | [] => NdNaN
  | r :: _ =>
      if forallb (λ s, length s =? length r) rows
      then NdVector (map (λ x, div_by x (length rows)) (column_sums (length r) rows))
      else NdRagged
  end.

End Mean.

Definition np_mean_Q : list (list Q) → ndarray Q :=
  np_mean_axis0 0%Q Qplus (λ x n, (x / inject_Z (Z.of_nat n))%Q).

Definition np_mean_R : list (list R) → ndarray R :=
  np_mean_axis0 0%R Rplus (λ x n, (x / INR n)%R).

(** [np.array] on Python numbers; a string has no numeric value. *)
Definition to_Q (v : pyval) : option Q :=
  match v with
  | PyFloat q | NpFloat64 q => Some q
  | PyInt z => Some (inject_Z z)
  | PyStr _ => None
  end.

(** The averaging step on descriptor lists, lines 277, 325 and 433. *)
Definition np_mean (rows : list (list pyval)) : M (ndarray Q) :=
  match mapM (mapM to_Q) rows with
  | None => raise TypeError
  | Some qrows =>
      match np_mean_Q qrows with
      | NdRagged => raise ValueError_ragged
      | a => ret a
      end
  end.

(** [list(a)] of the averaged array, line 1178. *)
Definition list_of_ndarray (a : ndarray Q) : M (list pyval) :=
  match a with
  | NdVector v => ret (map NpFloat64 v)
  | _ => raise TypeError
  end.

(** [l[i]] and [l.pop(i)]; both raise IndexError out of range. *)
Definition index {A} (l : list A) (i : nat) : M A :=
  match l !! i with Some x => ret x | None => raise IndexError end.
Definition pop {A} (l : list A) (i : nat) : M (list A) :=
  match l !! i with Some _ => ret (delete i l) | None => raise IndexError end.

Section Partition.
Context `{Elements, PBC}.

Definition ismetal (tmo : bool) (a : atom3D) : bool := ismetal_sym tmo (sym a).

(** [molcif.findMetal(transition_metals_only=False)] *)
Definition findMetal (m : mol3D) : list nat :=
  List.filter (λ i, ismetal false (getAtom m i)) (seq 0 (length (atoms m))).

(** Lines 995-1000: metals and everything bonded to a metal. *)
Definition SBUlist_seed (m : mol3D) : gset nat :=
  let metals : gset nat := list_to_set (findMetal m) in
  foldl (λ s metal, s ∪ list_to_set (getBondedAtomsSmart m metal)) metals (findMetal m).

(** Line 1010: the condition under which an atom of SBUlist joins removelist. *)
Definition only_metal_or_H (m : mol3D) (atom : nat) : bool :=
  forallb (λ val, ismetal tmo_default (getAtom m val) || is_H (getAtom m val))
          (getBondedAtomsSmart m atom).

(** Lines 1001-1017: the removal set at the start of partitioning. *)
Definition removelist_seed (m : mol3D) : gset nat :=
  let SBUlist := elements (SBUlist_seed m) in
  let r1 : gset nat := list_to_set (findMetal m) in
  let r2 := foldl (λ r atom, if only_metal_or_H m atom then r ∪ {[atom]} else r) r1 SBUlist in
  foldl (λ r atom,
           foldl (λ r' val, if is_H (getAtom m val) then r' ∪ {[val]} else r')
                 r (getBondedAtomsSmart m atom))
        r2 SBUlist.

(** Lines 1038-1043: atoms of a candidate that are bonded to a metal. *)
Definition anchoring_atoms (adj : adj_matrix) (metal_list : gset nat)
    (linker_list : list (list nat)) : gset nat :=
  foldl (λ anc linker,
           foldl (λ anc' atom_linker,
                    if bool_decide (list_to_set (nonzero_row adj atom_linker) ∩ metal_list ≠ ∅)
                    then anc' ∪ {[atom_linker]} else anc')
                 anc linker)
        ∅ linker_list.

(** The four sets filled by lines 1059-1076 for one candidate. *)
Record anchor_evidence := {
  linkeranchors_list : gset nat;   (* local indices of the anchors *)
  linkeranchors_atoms : gset nat;  (* the anchors *)
  sbuanchors_list : gset nat;      (* SBU atoms bonded to an anchor *)
  sbu_connect_list : gset nat      (* indices of the initial SBUs touched *)
}.

Definition find_anchors (adj : adj_matrix) (initial_SBU_list : list (list nat))
    (atoms_list : list nat) : anchor_evidence :=
  foldl (λ ev '(iii, atoms),
    let connected_atoms := nonzero_row adj atoms in
    foldl (λ ev '(kk, sbu_atoms_list),
      foldl (λ ev sbu_atoms,
               if bool_decide (sbu_atoms ∈ connected_atoms)
               then {| linkeranchors_list := linkeranchors_list ev ∪ {[iii]};
                       linkeranchors_atoms := linkeranchors_atoms ev ∪ {[atoms]};
                       sbuanchors_list := sbuanchors_list ev ∪ {[sbu_atoms]};
                       sbu_connect_list := sbu_connect_list ev ∪ {[kk]} |}
               else ev)
            ev sbu_atoms_list)
      ev (enumerate initial_SBU_list))
    {| linkeranchors_list := ∅; linkeranchors_atoms := ∅;
       sbuanchors_list := ∅; sbu_connect_list := ∅ |}
    (enumerate atoms_list).

(** [len(np.unique(pr_image, axis=0))] *)
Definition n_images (l : list image) : nat := length (remove_dups l).

(** The state updated by the reclassification loop of lines 1058-1125. *)
Record pstate := {
  removelist : gset nat;
  SBUlist : gset nat;
  linker_list : list (list nat);
  linker_subgraphlist : list adj_matrix;
  max_min_linker_length : nat;
  min_max_linker_length : nat;
  linkeranchors_superlist : list (gset nat)
}.

Definition push_anchors (st : pstate) (a : gset nat) : pstate :=
  {| removelist := removelist st; SBUlist := SBUlist st; linker_list := linker_list st;
     linker_subgraphlist := linker_subgraphlist st;
     max_min_linker_length := max_min_linker_length st;
     min_max_linker_length := min_max_linker_length st;
     linkeranchors_superlist := linkeranchors_superlist st ++ [a] |}.

(** Lines 1082-1083 and 1100-1101. *)
Definition update_lengths (st : pstate) (min_length max_length : nat) : pstate :=
  {| removelist := removelist st; SBUlist := SBUlist st; linker_list := linker_list st;
     linker_subgraphlist := linker_subgraphlist st;
     max_min_linker_length := Nat.max min_length (max_min_linker_length st);
     min_max_linker_length := Nat.min max_length (min_max_linker_length st);
     linkeranchors_superlist := linkeranchors_superlist st |}.

(** Lines 1107-1110 and 1119-1122: the candidate goes back to the SBU side. *)
Definition merge_ligand (st : pstate) (templist : list (list nat)) (ii : nat) : M pstate :=
  do t <- index templist ii;
  do ll <- pop (linker_list st) ii;
  do ls <- pop (linker_subgraphlist st) ii;
  ret {| removelist := removelist st ∪ list_to_set t; SBUlist := SBUlist st ∪ list_to_set t;
         linker_list := ll; linker_subgraphlist := ls;
         max_min_linker_length := max_min_linker_length st;
         min_max_linker_length := min_max_linker_length st;
         linkeranchors_superlist := linkeranchors_superlist st |}.

(** The test of line 1099 on the two image lists. *)
Definition crosses_boundary (pr_image_sbu pr_image_organic : list image) : bool :=
  negb ((n_images pr_image_sbu =? 1) && (n_images pr_image_organic =? 1)).

(** The two calls of [ligand_detect], lines 1088-1098. *)
Definition images_of (molcif : mol3D) (adj : adj_matrix) (cell_v : cell)
    (initial_SBU_list : list (list nat)) (linker_adjmat : adj_matrix)
    (atoms_list : list nat) (ev : anchor_evidence) : result (list image * list image) :=
  let linker_cart_coords := map (λ val, coords (getAtom molcif val)) atoms_list in
  let pr_image_organic :=
    ligand_detect cell_v linker_cart_coords linker_adjmat (linkeranchors_list ev) in
  match elements (sbu_connect_list ev) !! 0 with
  | None => Raise IndexError
  | Some k =>
      match initial_SBU_list !! k with
      | None => Raise IndexError
      | Some sbu =>
          let sbu_temp := elements (linkeranchors_atoms ev ∪ list_to_set sbu) in
          let sbu_cart_coords := map (λ val, coords (getAtom molcif val)) sbu_temp in
          let sbu_adjmat := slice_mat adj sbu_temp in
          let pr_image_sbu :=
            ligand_detect cell_v sbu_cart_coords sbu_adjmat
                          (list_to_set (seq 0 (size (linkeranchors_list ev)))) in
          Ok (pr_image_sbu, pr_image_organic)
      end
  end.

Definition evidence_str (name : string) (ev : anchor_evidence) : string :=
  name +:+ ", Anchors list: " +:+ str_set (sbuanchors_list ev)
       +:+ ", SBU connectlist: " +:+ str_set (sbu_connect_list ev).

(** One iteration of the loop of line 1058. *)
Definition classify_body (molcif : mol3D) (adj : adj_matrix) (cell_v : cell) (name : string)
    (initial_SBU_list templist : list (list nat))
    (st : pstate) (cand : nat * list nat) : M pstate :=
  let '(ii, atoms_list) := cand in
  let ev := find_anchors adj initial_SBU_list atoms_list in
  do sg <- index (linker_subgraphlist st) ii;
  let '(min_length, max_length) := linker_length sg (linkeranchors_list ev) in
  let st := push_anchors st (linkeranchors_atoms ev) in
  if 2 <=? size (linkeranchors_list ev) then
    if 2 <=? size (sbu_connect_list ev) then
      ret (update_lengths st min_length max_length)
    else
      do imgs <- lift (images_of molcif adj cell_v initial_SBU_list sg atoms_list ev);
      if crosses_boundary imgs.1 imgs.2 then
        write2file "/ligands/ambiguous.txt" (evidence_str name ev +:+ " set to be linker" +:+ nl) >>
        ret (update_lengths st min_length max_length)
      else
        do st' <- merge_ligand st templist ii;
        write2file "/ligands/ambiguous.txt" (evidence_str name ev +:+ " set to be ligand" +:+ nl) >>
        write2file "/ligands/ligand.txt"
          (name +:+ pretty ii +:+ "," +:+ " Anchors list: " +:+ str_set (sbuanchors_list ev)
             +:+ ", SBU connectlist: " +:+ str_set (sbu_connect_list ev) +:+ nl) >>
        ret st'
  else
    write2file ("/logs/" +:+ name +:+ ".log") ("found ligand" +:+ nl) >>
    do st' <- merge_ligand st templist ii;
    write2file "/ligands/ligand.txt" (evidence_str name ev +:+ nl) >>
    ret st'.

(** Lines 1053-1125: the pass over [reversed(list(enumerate(linker_list)))]. *)
Definition reclassify (molcif : mol3D) (adj : adj_matrix) (cell_v : cell) (name : string)
    (initial_SBU_list : list (list nat)) (st : pstate) : M pstate :=
  let templist := linker_list st in
  forM (reverse (enumerate (linker_list st)))
       (classify_body molcif adj cell_v name initial_SBU_list templist) st.

(** Lines 1130-1137. *)
Definition long_ligands (max_min min_max : nat) : bool :=
  if 2 <? min_max then
    if max_min =? min_max then true else 3 <? min_max
  else false.

(** Line 1151: one more shell of bonded neighbours around SBUlist. *)
Definition expand_shell (molcif : mol3D) (sbu : gset nat) : gset nat :=
  foldl (λ s zero_first_shell, s ∪ list_to_set (getBondedAtomsSmart molcif zero_first_shell))
        sbu (elements sbu).

(** Lines 1127-1168: from the state after reclassification to the SBU list. *)
Definition assemble_SBUs (molcif : mol3D) (adj : adj_matrix) (name : string)
    (allatoms : gset nat) (st : pstate) : M subgraphs :=
  let min_max := min_max_linker_length st in
  let max_min := max_min_linker_length st in
  let tmpstr := name +:+ ", (min_max_linker_length,max_min_linker_length): "
                     +:+ pretty min_max +:+ " , " +:+ pretty max_min +:+ nl in
  let log := "/logs/" +:+ name +:+ ".log" in
  write2file log tmpstr >>
  (if min_max <? 3 then write2file "/linkers/short_ligands.txt" tmpstr else ret tt) >>
  let long := long_ligands max_min min_max in
  let linker_length_list : gset nat := list_to_set (map length (linker_list st)) in
  (if negb (size linker_length_list =? 1)
   then write2file "/linkers/uneven.txt" (name +:+ nl) else ret tt) >>
  if negb (min_max <? 2) then
    (if long then write2file log (nl +:+ "Structure has LONG ligand" +:+ nl +:+ nl) else ret tt) >>
    let sbu := if long then expand_shell molcif (SBUlist st) else SBUlist st in
    let truncated_linkers := allatoms ∖ sbu in
    let '(SBU_list, SBU_subgraphlist) := get_closed_subgraph sbu truncated_linkers adj in
    if negb long then
      write2file log (nl +:+ "Structure has SHORT ligand" +:+ nl +:+ nl) >>
      ret (include_extra_shells SBU_list SBU_subgraphlist molcif adj)
    else ret (SBU_list, SBU_subgraphlist)
  else
    write2file "/ligands/ambiguous.txt"
      ("Structure " +:+ name +:+ " has extremely short ligands, check the outputs" +:+ nl) >>
    write2file log ("Structure has extremely short ligands" +:+ nl) >>
    write2file log ("Structure has extremely short ligands" +:+ nl) >>
    let truncated_linkers := allatoms ∖ removelist st in
    let '(l1, g1) := get_closed_subgraph (removelist st) truncated_linkers adj in
    let '(l2, g2) := include_extra_shells l1 g1 molcif adj in
    ret (include_extra_shells l2 g2 molcif adj).

(** The elements of [l] at the positions that [keep] retains. *)
Definition select {A} (keep : nat → bool) (l : list A) : list A :=
  omap (λ '(i, x), if keep i then Some x else None) (enumerate l).

(** The outcome of [classify_body] for one candidate: [true] when the
    candidate stays in [linker_list]. *)
Definition is_kept (molcif : mol3D) (adj : adj_matrix) (cell_v : cell)
    (initial_SBU_list : list (list nat)) (sg : adj_matrix) (atoms_list : list nat) : bool :=
  let ev := find_anchors adj initial_SBU_list atoms_list in
  if 2 <=? size (linkeranchors_list ev) then
    if 2 <=? size (sbu_connect_list ev) then true
    else match images_of molcif adj cell_v initial_SBU_list sg atoms_list ev with
         | Ok imgs => crosses_boundary imgs.1 imgs.2
         | Raise _ => false
         end
  else false.

End Partition.

(** ** Descriptor generation *)

(** Modelled from the spec: [append_descriptors] of RACassemble (not under
    src/): "vectors for all properties and all depths are concatenated in a
    fixed name order", each name carrying its prefix and suffix. *)
Definition append_descriptors (descriptor_names : list string) (descriptors : list pyval)
    (list_of_names : list (list string)) (list_of_props : list (list pyval))
    (prefix suffix : string) : list string * list pyval :=
  (descriptor_names
     ++ concat (map (map (λ n, prefix +:+ "-" +:+ n +:+ "-" +:+ suffix)) list_of_names),
   descriptors ++ concat list_of_props).

(** [np.zeros(n)] *)
Definition np_zeros (n : nat) : list pyval := repeat (NpFloat64 0) n.

(** The dictionary comprehension of lines 269, 316 and 424:
    [{key: values[k] for k, key in enumerate(keys)}]. *)
Fixpoint mk_dict (keys : list string) (values : list pyval) (acc : row) : result row :=
  match keys, values with
  | [], _ => Ok acc
  | k :: ks, v :: vs => mk_dict ks vs (<[k := v]> acc)
  | _ :: _, [] => Raise IndexError
  end.

(** [l.index(x)] for an [x] known to be in [l]. *)
Definition list_index (x : nat) (l : list nat) : nat :=
  default 0 (fst <$> list_find (λ y, y = x) l).

(** Lines 292-297 and 391-396: the text of a connection-indices file. *)
Definition connection_indices_text (global_connection_indices : list nat)
    (substructure : list nat) : string :=
  let idx := map (λ item, list_index item substructure)
                 (List.filter (λ item, bool_decide (item ∈ substructure))
                              global_connection_indices) in
  String.concat " " (map pretty (merge_sort Nat.le idx)).

(** [if not os.path.exists(file): write it]. *)
Definition write_if_absent (file text : string) : M unit :=
  λ s, match written s !! file with
       | Some _ => (Ok tt, s)
       | None => write_file file text s
       end.

Section Descriptors.
Context `{PBC, Kernels}.

(** Lines 142-148. *)
Definition gen_and_append_desc (temp_mol : mol3D) (target_list : list nat) (depth : nat)
    (descriptor_names : list string) (descriptors : list pyval) (feature_type : string)
    : results_dictionary * list string * list pyval :=
  let rd := generate_atomonly_autocorrelations temp_mol target_list depth in
  let '(names1, descs1) :=
    append_descriptors descriptor_names descriptors (colnames rd) (results rd)
                       feature_type "all" in
  let rd' := generate_atomonly_deltametrics temp_mol target_list depth in
  let '(names2, descs2) :=
    append_descriptors names1 descs1 (colnames rd') (results rd')
                       ("D_" +:+ feature_type) "all" in
  (rd', names2, descs2).

(** The mol3D built from a list of global atom indices and a subgraph. *)
Definition sub_mol (molcif : mol3D) (indices : list nat) (g : adj_matrix) : mol3D :=
  {| atoms := map (getAtom molcif) indices; graph := g |}.

(** Lines 231-234: local indices of the atoms of [linker] that are anchors. *)
Definition lc_atoms (anchoring_atoms : gset nat) (linker : list nat) : list nat :=
  omap (λ '(jj, val2), if bool_decide (val2 ∈ anchoring_atoms) then Some jj else None)
       (enumerate linker).

(** Lines 247-251: neither an anchor nor carbon nor hydrogen. *)
Fixpoint functional_atoms_from (atoms : list atom3D) (link_list : list nat)
    (range : list nat) (acc : list nat) : result (list nat) :=
  match range with
  | [] => Ok acc
  | jj :: range' =>
      if bool_decide (jj ∈ link_list) then functional_atoms_from atoms link_list range' acc
      else match atoms !! jj with
           | None => Raise IndexError
           | Some a =>
               if String.eqb (sym a) "C" || String.eqb (sym a) "H"
               then functional_atoms_from atoms link_list range' acc
               else functional_atoms_from atoms link_list range' (acc ++ [jj])
           end
  end.

Definition functional_atoms (temp_mol : mol3D) (link_list : list nat) : result (list nat) :=
  functional_atoms_from (atoms temp_mol) link_list (seq 0 (shape0 (graph temp_mol))) [].

(** Lines 261-264. *)
Definition check_typing (descriptors : list pyval) : M unit :=
  if forallb is_float descriptors then ret tt
  else raise (AssertionError "Mixed typing creates issues. Please convert your typing.").

(** Lines 242-259: names and values of the lc row of a linker. *)
Definition lc_descriptors_of (temp_mol : mol3D) (link_list : list nat) (depth : nat)
    : M (list string * list pyval) :=
  let '(rd, names, descs) := gen_and_append_desc temp_mol link_list depth [] [] "lc" in
  do fa <- lift (functional_atoms temp_mol link_list);
  if 0 <? length fa then
    let '(_, names', descs') := gen_and_append_desc temp_mol fa depth names descs "func" in
    ret (names', descs')
  else
    let '(names1, descs1) :=
      append_descriptors names descs (colnames rd) [np_zeros (6 * (depth + 1))] "func" "all" in
    ret (append_descriptors names1 descs1 (colnames rd) [np_zeros (6 * (depth + 1))]
                            "D_func" "all").

(** Lines 267-271 (and 313-318, 422-427): the table row carrying the
    structure name, and the lists with that entry removed again. *)
Definition tagged_row (name : string) (descriptor_names : list string)
    (descriptors : list pyval) : M (row * list string * list pyval) :=
  let names' := descriptor_names ++ ["name"] in
  let descs' := descriptors ++ [PyStr name] in
  do desc_dict <- lift (mk_dict names' descs' ∅);
  ret (desc_dict, str_remove "name" names', py_remove (PyStr name) descs').

(** The variables of [make_MOF_SBU_RACs] that live across loop iterations. *)
Record sbu_acc := {
  descriptor_list : list (list pyval);
  lc_descriptor_list : list (list pyval);
  lc_names : list string;
  names : list string;
  sbu_descriptors : list row;
  lc_descriptors : list row;
  averaged_lc_descriptors : option (ndarray Q)   (* unbound before the first SBU *)
}.

(** Lines 225-275: one linker of [connections_list] against one SBU. *)
Definition lc_body (molcif : mol3D) (depth : nat) (name : string) (anchoring_atoms : gset nat)
    (connections_subgraphlist : list adj_matrix) (SBU : list nat)
    (acc : sbu_acc) (jl : nat * list nat) : M sbu_acc :=
  let '(j, linker) := jl in
  if 0 <? size ((list_to_set SBU : gset nat) ∩ list_to_set linker) then
    let link_list := lc_atoms anchoring_atoms linker in
    do g <- index connections_subgraphlist j;
    let temp_mol := sub_mol molcif linker g in
    do nd <- lc_descriptors_of temp_mol link_list depth;
    check_typing nd.2 >>
    do t <- tagged_row name nd.1 nd.2;
    let '(desc_dict, descriptor_names, descriptors) := t in
    ret {| descriptor_list := descriptor_list acc;
           lc_descriptor_list := lc_descriptor_list acc ++ [descriptors];
           lc_names := if j =? 0 then descriptor_names else lc_names acc;
           names := names acc;
           sbu_descriptors := sbu_descriptors acc;
           lc_descriptors := lc_descriptors acc ++ [desc_dict];
           averaged_lc_descriptors := averaged_lc_descriptors acc |}
  else ret acc.

(** Lines 304-310: names and values of the row of one SBU. *)
Definition sbu_descriptors_of (SBU_mol molcif : mol3D) (depth : nat)
    : list string * list pyval :=
  let rd := generate_full_complex_autocorrelations SBU_mol depth in
  let '(n1, d1) := append_descriptors [] [] (colnames rd) (results rd) "f" "all" in
  let rd := generate_multimetal_autocorrelations molcif depth in
  let '(n2, d2) := append_descriptors n1 d1 (colnames rd) (results rd) "mc" "all" in
  let rd := generate_multimetal_deltametrics molcif depth in
  append_descriptors n2 d2 (colnames rd) (results rd) "D_mc" "all".

(** Lines 213-322: one SBU. *)
Definition sbu_body (molcif : mol3D) (depth : nat) (name : string) (cell_v : cell)
    (anchoring_atoms : gset nat) (global_connection_indices : list nat)
    (SBU_subgraph : list adj_matrix)
    (connections_list : list (list nat)) (connections_subgraphlist : list adj_matrix)
    (acc : sbu_acc) (iS : nat * list nat) : M sbu_acc :=
  let '(i, SBU) := iS in
  do g <- index SBU_subgraph i;
  let SBU_mol := sub_mol molcif SBU g in
  do acc <- forM (enumerate connections_list)
                 (lc_body molcif depth name anchoring_atoms connections_subgraphlist SBU) acc;
  do avg <- np_mean (lc_descriptor_list acc);
  to_csv_lc (lc_descriptors acc) >>
  write_if_absent ("/sbus/" +:+ name +:+ "_sbu_" +:+ pretty i +:+ ".xyz")
    (xyz_and_graph_text (map sym (atoms SBU_mol)) cell_v (map coords (atoms SBU_mol)) g) >>
  write_file ("/sbus/" +:+ name +:+ "_connection_indices_sbu_" +:+ pretty i +:+ ".txt")
    (connection_indices_text global_connection_indices SBU) >>
  let '(descriptor_names, descriptors) := sbu_descriptors_of SBU_mol molcif depth in
  do t <- tagged_row name descriptor_names descriptors;
  let '(desc_dict, descriptor_names, descriptors) := t in
  ret {| descriptor_list := descriptor_list acc ++ [descriptors];
         lc_descriptor_list := lc_descriptor_list acc;
         lc_names := lc_names acc;
         names := if i =? 0 then descriptor_names else names acc;
         sbu_descriptors := sbu_descriptors acc ++ [desc_dict];
         lc_descriptors := lc_descriptors acc;
         averaged_lc_descriptors := Some avg |}.

(** Lines 197-326. *)
Definition make_MOF_SBU_RACs (SBUlist : list (list nat)) (SBU_subgraph : list adj_matrix)
    (molcif : mol3D) (depth : nat) (name : string) (cell_v : cell)
    (anchoring_atoms : gset nat) (linkeranchors_superlist : list (gset nat))
    (connections_list : list (list nat)) (connections_subgraphlist : list adj_matrix)
    : M (list string * ndarray Q * list string * ndarray Q) :=
  do sbu_df <- read_csv_sbu;
  do lc_df <- read_csv_lc;
  let global_connection_indices := concat (map elements linkeranchors_superlist) in
  do acc <- forM (enumerate SBUlist)
                 (sbu_body molcif depth name cell_v anchoring_atoms global_connection_indices
                           SBU_subgraph connections_list connections_subgraphlist)
                 {| descriptor_list := []; lc_descriptor_list := []; lc_names := [];
                    names := []; sbu_descriptors := sbu_df; lc_descriptors := lc_df;
                    averaged_lc_descriptors := None |};
  to_csv_sbu (sbu_descriptors acc) >>
  do averaged_SBU_descriptors <- np_mean (descriptor_list acc);
  match averaged_lc_descriptors acc with
  | Some avg_lc => ret (names acc, averaged_SBU_descriptors, lc_names acc, avg_lc)
  | None => raise UnboundLocalError
  end.

(** Lines 400-417: the five full-scope autocorrelations of one linker. *)
Definition allowed_strings : list (string * string) :=
  [("electronegativity", "chi"); ("nuclear_charge", "Z"); ("ident", "I");
   ("topology", "T"); ("size", "S")].

Definition linker_descriptors_of (linker_mol : mol3D) (depth : nat)
    : list string * list pyval :=
  (concat (map (λ '(_, label), map (λ j, "f-lig-" +:+ label +:+ "-" +:+ pretty j)
                                    (seq 0 (depth + 1))) allowed_strings),
   concat (map (λ '(properties, _), full_autocorrelation linker_mol properties depth)
               allowed_strings)).

(** Lines 374-428: one linker; the state is the table, the list of rows to
    average and the column names of the last linker seen. *)
Definition linker_body (molcif : mol3D) (depth : nat) (name : string) (cell_v : cell)
    (global_connection_indices : list nat) (linker_subgraphlist : list adj_matrix)
    (acc : list row * list (list pyval) * option (list string)) (il : nat * list nat)
    : M (list row * list (list pyval) * option (list string)) :=
  let '(linker_descriptors, descriptor_list, _) := acc in
  let '(i, linker) := il in
  do g <- index linker_subgraphlist i;
  let linker_mol := sub_mol molcif linker g in
  write_if_absent ("/linkers/" +:+ name +:+ "_linker_" +:+ pretty i +:+ ".xyz")
    (xyz_and_graph_text (map sym (atoms linker_mol)) cell_v (map coords (atoms linker_mol)) g) >>
  write_file ("/linkers/" +:+ name +:+ "_connection_indices_linker_" +:+ pretty i +:+ ".txt")
    (connection_indices_text global_connection_indices linker) >>
  let '(colnames, lig_full) := linker_descriptors_of linker_mol depth in
  do t <- tagged_row name colnames lig_full;
  let '(desc_dict, colnames, lig_full) := t in
  ret (linker_descriptors ++ [desc_dict], descriptor_list ++ [lig_full], Some colnames).

(** Lines 361-434. *)
Definition make_MOF_linker_RACs (linkerlist : list (list nat))
    (linker_subgraphlist : list adj_matrix) (molcif : mol3D) (depth : nat) (name : string)
    (cell_v : cell) (linkeranchors_superlist : list (gset nat))
    : M (list string * ndarray Q) :=
  do linker_df <- read_csv_linker;
  let global_connection_indices := concat (map elements linkeranchors_superlist) in
  do acc <- forM (enumerate linkerlist)
                 (linker_body molcif depth name cell_v global_connection_indices
                              linker_subgraphlist)
                 (linker_df, [], None);
  let '(linker_descriptors, descriptor_list, colnames) := acc in
  to_csv_linker linker_descriptors >>
  do averaged_ligand_descriptors <- np_mean descriptor_list;
  match colnames with
  | Some c => ret (c, averaged_ligand_descriptors)
  | None => raise UnboundLocalError
  end.

End Descriptors.

(** ** The pipeline *)

(** The text files of the output directory: what a diagnostic may write. *)
Definition files : Type := gmap string (list string) * gmap string string.
Definition D (A : Type) : Type := files → result A * files.

Definition on_files {A} (d : D A) : M A :=
  λ s, let '(r, (t, w)) := d (texts s, written s) in
       (r, {| texts := t; sbu_table := sbu_table s; linker_table := linker_table s;
              lc_table := lc_table s; written := w |}).

(** The three best-effort diagnostics of lines 518-846.  Their bodies are
    floating-point geometry over the external helpers; here each is a
    procedure that writes text files (bond lengths, xyz, log lines) and
    completes or raises. *)
Class Diagnostics := {
  bond_information_write :
    list (list nat) → list (gset nat) → adj_matrix → mol3D → cell → D unit;
  surrounded_sbu_gen :
    list (list nat) → list (list nat) → mol3D → adj_matrix → cell → list string → string
    → D unit;
  detect_1D_rod : list (list nat) → mol3D → list string → cell → string → D unit
}.

(** What [readcif], [mkcell], [fractional2cart] and the bond-record scan of
    lines 934-949 read from the file [data]. *)
Record cif_file := {
  cif_name : string;               (* os.path.basename(data).replace(".cif", "") *)
  cell_of : cell;
  allatomtypes : list string;
  cart_coords : list point;
  bond_records : list (nat * nat)
}.

(** [import_from_cif(data, True)] *)
Definition import_from_cif (data : cif_file) : list atom3D :=
  zip_with (λ s c, {| sym := s; coords := c |}) (allatomtypes data) (cart_coords data).

(** Lines 513-516. *)
Definition failure_response (failure_str : string) : M (list pyval * list pyval) :=
  write2file "/FailedStructures.log" failure_str >>
  ret ([PyInt 0], [PyInt 0]).

(** Truth value of the argument [path]; [None] is the default [False]. *)
Definition path_given (path : option string) : bool :=
  match path with
  | Some (String _ _) => true
  | _ => false
  end.

(** Line 975. *)
Definition inds_in_comp (labels_components : list nat) (comp : nat) : list nat :=
  List.filter (λ i, nth i labels_components 0 =? comp) (seq 0 (length labels_components)).

Section Pipeline.
Context `{Elements, PBC, Kernels, Diagnostics}.

(** Lines 1003-1009: one log line per metal. *)
Definition log_coordination (molcif : mol3D) (name : string) (types : list string)
    (metals : list nat) : M unit :=
  forM metals
       (λ _ metal,
          let bonded_atoms : gset nat := list_to_set (getBondedAtomsSmart molcif metal) in
          let bonded_atoms_types : gset string :=
            list_to_set (map (λ at_, nth at_ types "") (elements bonded_atoms)) in
          write2file ("/logs/" +:+ name +:+ ".log")
            ("atom " +:+ pretty metal +:+ " with type of " +:+ nth metal types ""
               +:+ " found to have " +:+ pretty (size bonded_atoms)
               +:+ " coordinates with atom types of "
               +:+ String.concat "," (elements bonded_atoms_types) +:+ nl))
       tt.

(** Lines 1173-1190. *)
Definition featurize (depth : nat) (name : string) (cell_v : cell) (molcif : mol3D)
    (anc_atoms : gset nat) (connections : subgraphs) (sbus : subgraphs) (st : pstate)
    : M (list pyval * list pyval) :=
  if 1 <=? length (linker_subgraphlist st) then
    do r <- make_MOF_SBU_RACs sbus.1 sbus.2 molcif depth name cell_v anc_atoms
              (linkeranchors_superlist st) connections.1 connections.2;
    let '(descriptor_names, descriptors, lc_descriptor_names, lc_descriptors) := r in
    do l <- make_MOF_linker_RACs (linker_list st) (linker_subgraphlist st) molcif depth name
              cell_v (linkeranchors_superlist st);
    let '(lig_descriptor_names, lig_descriptors) := l in
    let full_names := descriptor_names ++ lig_descriptor_names ++ lc_descriptor_names in
    do d1 <- list_of_ndarray descriptors;
    do d2 <- list_of_ndarray lig_descriptors;
    do d3 <- list_of_ndarray lc_descriptors;
    ret (map PyStr full_names, d1 ++ d2 ++ d3)
  else if length (linker_subgraphlist st) =? 1 then
    ret ([PyInt 1], [PyInt 1])
  else
    ret ([PyInt 0], [PyInt 0]).

(** Lines 1191-1194. *)
Definition log_empty (name : string) (out : list pyval * list pyval) : M unit :=
  if (length out.1 <=? 1) && (length out.2 <=? 1) then
    write2file "/FailedStructures.log"
      ("Failed to featurize " +:+ name +:+ ": Only zero or one total linkers identified." +:+ nl)
  else ret tt.

(** Lines 1197-1210. *)
Definition diagnostics (get_sbu_linker_bond_info surrounded_sbu_file_generation
    detect_1D_rod_sbu : bool) (data : cif_file) (molcif : mol3D) (adj : adj_matrix)
    (sbus : subgraphs) (st : pstate) : M unit :=
  let name := cif_name data in
  (if get_sbu_linker_bond_info then
     on_files (bond_information_write (linker_list st) (linkeranchors_superlist st) adj
                                      molcif (cell_of data))
   else ret tt) >>
  (if surrounded_sbu_file_generation then
     try_except
       (on_files (surrounded_sbu_gen sbus.1 (linker_list st) molcif adj (cell_of data)
                                     (allatomtypes data) name))
       (write2file ("/logs/" +:+ name +:+ ".log") "Failed to generate surrounded SBU")
   else ret tt) >>
  (if detect_1D_rod_sbu then
     on_files (detect_1D_rod sbus.1 molcif (allatomtypes data) (cell_of data) name)
   else ret tt).

(** Lines 995-1212: everything after the connectivity checks. *)
Definition partition_and_featurize (data : cif_file) (depth : nat) (molcif : mol3D)
    (adj : adj_matrix) (get_sbu_linker_bond_info surrounded_sbu_file_generation
    detect_1D_rod_sbu : bool) : M (list pyval * list pyval) :=
  let name := cif_name data in
  let cell_v := cell_of data in
  let metal_list : gset nat := list_to_set (findMetal molcif) in
  log_coordination molcif name (allatomtypes data) (elements metal_list) >>
  let removelist0 := removelist_seed molcif in
  let allatoms : gset nat := list_to_set (seq 0 (shape0 adj)) in
  let linkers := allatoms ∖ removelist0 in
  let candidates := get_closed_subgraph linkers removelist0 adj in
  let anc_atoms := anchoring_atoms adj metal_list candidates.1 in
  let initial_SBU_list := (get_closed_subgraph removelist0 linkers adj).1 in
  do st <- reclassify molcif adj cell_v name initial_SBU_list
             {| removelist := removelist0; SBUlist := SBUlist_seed molcif;
                linker_list := candidates.1; linker_subgraphlist := candidates.2;
                max_min_linker_length := 0; min_max_linker_length := 100;
                linkeranchors_superlist := [] |};
  do sbus <- assemble_SBUs molcif adj name allatoms st;
  do out <- featurize depth name cell_v molcif anc_atoms candidates sbus st;
  log_empty name out >>
  diagnostics get_sbu_linker_bond_info surrounded_sbu_file_generation detect_1D_rod_sbu
              data molcif adj sbus st >>
  ret out.

(** Lines 966-985: the connectivity checks, then the rest. *)
Definition validate_and_run (data : cif_file) (depth : nat) (xyzpath : string)
    (adj : adj_matrix) (get_sbu_linker_bond_info surrounded_sbu_file_generation
    detect_1D_rod_sbu : bool) : M (list pyval * list pyval) :=
  let name := cif_name data in
  write_file xyzpath
    (xyz_and_graph_text (allatomtypes data) (cell_of data) (cart_coords data) adj) >>
  let molcif := {| atoms := import_from_cif data; graph := adj |} in
  let '(n_components, labels_components) := connected_components adj in
  let metal_list : gset nat := list_to_set (findMetal molcif) in
  if negb (0 <? size metal_list) then
    failure_response ("Failed to featurize " +:+ name +:+ ": no metal found" +:+ nl)
  else if existsb (λ comp, bool_decide
                     (list_to_set (inds_in_comp labels_components comp) ∩ metal_list = ∅))
                  (seq 0 n_components) then
    failure_response ("Failed to featurize " +:+ name +:+ ": solvent molecules" +:+ nl)
  else
    (if 1 <? n_components then
       write2file ("/logs/" +:+ name +:+ ".log")
                  (name +:+ " found to be an interpenetrated structure" +:+ nl)
     else ret tt) >>
    partition_and_featurize data depth molcif adj get_sbu_linker_bond_info
                            surrounded_sbu_file_generation detect_1D_rod_sbu.

(** Lines 925-954: the bond graph, computed from the geometry or read from
    the bond records of the file. *)
Definition adjacency_of (data : cif_file) (graph_provided : bool) (wiggle_room : Q)
    : result adj_matrix :=
  if graph_provided then Ok (adj_of_bonds (bond_records data))
  else compute_adj_matrix (cell_of data) (cart_coords data) (allatomtypes data) wiggle_room.

(** Lines 893-1212. *)
Definition get_MOF_descriptors (data : cif_file) (depth : nat) (path : option string)
    (xyzpath : string) (graph_provided : bool) (wiggle_room : Q) (max_num_atoms : nat)
    (get_sbu_linker_bond_info surrounded_sbu_file_generation detect_1D_rod_sbu : bool)
    : M (list pyval * list pyval) :=
  if negb (path_given path) then
    raise (ValueError "Base path must be specified in order to write descriptors.")
  else
    let name := cif_name data in
    if max_num_atoms <? length (cart_coords data) then
      failure_response ("Failed to featurize " +:+ name +:+ ": large primitive cell" +:+ nl
                          +:+ " " +:+ pretty (length (cart_coords data)) +:+ " atoms")
    else
      match adjacency_of data graph_provided wiggle_room with
      | Raise NotImplementedError =>
          failure_response ("Failed to featurize " +:+ name +:+ ": atomic overlap" +:+ nl)
      | Raise e => raise e
      | Ok adj =>
          validate_and_run data depth xyzpath adj get_sbu_linker_bond_info
                           surrounded_sbu_file_generation detect_1D_rod_sbu
      end.

End Pipeline.

(** ** Statements used by the theorems *)

(** Lengths of a returned pair. *)
Definition shape (r : result (list pyval * list pyval)) : option (nat * nat) :=
  match r with
  | Ok (names, values) => Some (length names, length values)
  | Raise _ => None
  end.

(** Every SBU index recorded by [find_anchors] is a position of
    [initial_SBU_list], and an anchor is never recorded without one. *)
Definition anchors_consistent (initial_SBU_list : list (list nat)) (ev : anchor_evidence)
    : Prop :=
  (∀ k, k ∈ sbu_connect_list ev → k < length initial_SBU_list)
  ∧ (linkeranchors_list ev ≠ ∅ → sbu_connect_list ev ≠ ∅).

Definition tables (s : store) : list row * list row * list row :=
  (sbu_table s, linker_table s, lc_table s).

(** [m] leaves the three tables as they are, whatever its outcome. *)
Definition quiet {A} (m : M A) : Prop := ∀ s, tables (m s).2 = tables s.

(** Every table of [s'] starts with the rows it has in [s]. *)
Definition extends (s s' : store) : Prop :=
  sbu_table s `prefix_of` sbu_table s'
  ∧ linker_table s `prefix_of` linker_table s'
  ∧ lc_table s `prefix_of` lc_table s'.

(** [m] only ever appends rows to the three tables, whatever its outcome. *)
Definition grows {A} (m : M A) : Prop := ∀ s, extends s (m s).2.

(** The four conditions of lines 916-980 under which the structure is not
    partitioned. *)
Definition rejected `{Elements, PBC} (data : cif_file) (graph_provided : bool) (wiggle_room : Q)
    (max_num_atoms : nat) : Prop :=
  max_num_atoms < length (cart_coords data)
  ∨ adjacency_of data graph_provided wiggle_room = Raise NotImplementedError
  ∨ ∃ adj, adjacency_of data graph_provided wiggle_room = Ok adj
      ∧ let molcif := {| atoms := import_from_cif data; graph := adj |} in
        findMetal molcif = []
        ∨ ∃ comp, comp < (connected_components adj).1
            ∧ (list_to_set (inds_in_comp (connected_components adj).2 comp) : gset nat)
              ∩ list_to_set (findMetal molcif) = ∅.

(** The SBU [SBU] shares no atom with the first linker of [conn]. *)
Definition misses_first (conn : list (list nat)) (SBU : list nat) : Prop :=
  ∀ linker, conn !! 0 = Some linker →
    (list_to_set SBU : gset nat) ∩ list_to_set linker = ∅.

(** The removal set as the specification words it: metals, atoms all of
    whose bonded neighbours are metal or hydrogen, and hydrogens bonded to
    an atom of those two groups. *)
Definition spec_seed_removal `{Elements} (m : mol3D) : gset nat :=
  let all := seq 0 (length (atoms m)) in
  let metal_or_H v := ismetal false (getAtom m v) || is_H (getAtom m v) in
  let base : gset nat :=
    list_to_set (List.filter (λ a, ismetal false (getAtom m a)
                                   || forallb metal_or_H (getBondedAtomsSmart m a)) all) in
  base ∪ list_to_set (List.filter (λ h, is_H (getAtom m h)
                        && existsb (λ a, bool_decide (a ∈ base)) (getBondedAtomsSmart m h)) all).

(** ** A small concrete world

    Executable stand-ins for the external collaborators, used to run the
    pipeline on concrete structures. *)

Definition sorted_elements (s : gset nat) : list nat := merge_sort Nat.le (elements s).

Definition neighbours_in (adj : adj_matrix) (allowed comp : gset nat) : gset nat :=
  comp ∪ (list_to_set (concat (map (nonzero_row adj) (elements comp))) ∩ allowed).

Fixpoint grow (fuel : nat) (adj : adj_matrix) (allowed comp : gset nat) : gset nat :=
  match fuel with
  | 0 => comp
  | S f => grow f adj allowed (neighbours_in adj allowed comp)
  end.

Fixpoint components (fuel : nat) (adj : adj_matrix) (remaining : gset nat) : list (list nat) :=
  match fuel with
  | 0 => []
  | S f =>
      match sorted_elements remaining with
      | [] => []
      | x :: _ =>
          let c := grow (size remaining) adj remaining {[x]} in
          sorted_elements c :: components f adj (remaining ∖ c)
      end
  end.

Definition toy_slice_mat (adj : adj_matrix) (l : list nat) : adj_matrix :=
  {| shape0 := length l;
     entry i j := match l !! i, l !! j with
                  | Some a, Some b => entry adj a b
                  | _, _ => false
                  end |}.

(** Modelled from the spec: "the complement of the removal set is
    partitioned into closed connected subgraphs". *)
Definition toy_get_closed_subgraph (linkers SBUlist : gset nat) (adj : adj_matrix)
    : subgraphs :=
  let comps := components (size linkers) adj (linkers ∖ SBUlist) in
  (comps, map (toy_slice_mat adj) comps).

Definition toy_connected_components (adj : adj_matrix) : nat * list nat :=
  let comps := components (shape0 adj) adj (list_to_set (seq 0 (shape0 adj))) in
  (length comps,
   map (λ i, default 0 (fst <$> list_find (λ c, i ∈ c) comps)) (seq 0 (shape0 adj))).

(** Modelled from the spec: "adds coordination shells outward from the metal". *)
Definition toy_include_extra_shells (SBUlists : list (list nat)) (_ : list adj_matrix)
    (molcif : mol3D) (adj : adj_matrix) : subgraphs :=
  let grown := map (λ SBU, sorted_elements
                     (list_to_set (SBU ++ concat (map (getBondedAtomsSmart molcif) SBU))))
                   SBUlists in
  (grown, map (toy_slice_mat adj) grown).

#[local] Instance toy_elements : Elements :=
  {| ismetal_sym := λ _ s, String.eqb s "Cu" || String.eqb s "Zn"; tmo_default := true |}.

#[local] Instance toy_pbc : PBC :=
  {| compute_adj_matrix := λ _ _ _ _, Raise NotImplementedError;
     connected_components := toy_connected_components;
     get_closed_subgraph := toy_get_closed_subgraph;
     include_extra_shells := toy_include_extra_shells;
     linker_length := λ _ _, (2, 2);
     ligand_detect := λ _ _ _ _, [(0, 0, 0)%Z];
     slice_mat := toy_slice_mat;
     xyz_and_graph_text := λ labels _ _ _, String.concat " " labels |}.

Definition toy_names (labels : list string) (depth : nat) : list (list string) :=
  map (λ l, map (λ d, l +:+ "-" +:+ pretty d) (seq 0 (depth + 1))) labels.

Definition toy_values (n : nat) (labels : list string) (depth : nat) : list (list pyval) :=
  map (λ _, map (λ d, NpFloat64 (inject_Z (Z.of_nat (n + d)))) (seq 0 (depth + 1))) labels.

Definition six : list string := ["chi"; "Z"; "I"; "T"; "S"; "alpha"].
Definition five : list string := ["chi"; "Z"; "I"; "T"; "S"].

#[local] Instance toy_kernels : Kernels :=
  {| generate_atomonly_autocorrelations := λ m t d,
       {| colnames := toy_names six d; results := toy_values (length t) six d |};
     generate_atomonly_deltametrics := λ m t d,
       {| colnames := toy_names six d; results := toy_values (length t) six d |};
     generate_full_complex_autocorrelations := λ m d,
       {| colnames := toy_names five d; results := toy_values (length (atoms m)) five d |};
     generate_multimetal_autocorrelations := λ m d,
       {| colnames := toy_names five d; results := toy_values (length (atoms m)) five d |};
     generate_multimetal_deltametrics := λ m d,
       {| colnames := toy_names five d; results := toy_values (length (atoms m)) five d |};
     full_autocorrelation := λ m _ d,
       map (λ k, NpFloat64 (inject_Z (Z.of_nat (length (atoms m) + k)))) (seq 0 (d + 1)) |}.

(** Diagnostics that complete, and a bond-length diagnostic that fails on
    an element without a covalent radius. *)
Definition quiet_diagnostics : Diagnostics :=
  {| bond_information_write := λ _ _ _ _ _ f,
       (Ok tt, (f.1, <["/sbu_linker_bondlengths.txt" := ""]> f.2));
     surrounded_sbu_gen := λ _ _ _ _ _ _ _ f, (Ok tt, f);
     detect_1D_rod := λ _ _ _ _ _ f, (Ok tt, f) |}.

Definition failing_diagnostics : Diagnostics :=
  {| bond_information_write := λ _ _ _ _ _ f, (Raise KeyError, f);
     surrounded_sbu_gen := λ _ _ _ _ _ _ _ f, (Raise KeyError, f);
     detect_1D_rod := λ _ _ _ _ _ f, (Raise KeyError, f) |}.

Definition empty_store : store :=
  {| texts := ∅; sbu_table := []; linker_table := []; lc_table := []; written := ∅ |}.

Definition mk_cif (name : string) (types : list string) (bonds : list (nat * nat)) : cif_file :=
  {| cif_name := name; cell_of := [(1, 0, 0); (0, 1, 0); (0, 0, 1)]%Q;
     allatomtypes := types; cart_coords := map (λ _, (0, 0, 0)%Q) types;
     bond_records := bonds |}.

Definition mk_atom (s : string) : atom3D := {| sym := s; coords := (0, 0, 0)%Q |}.

(** A copper centre coordinated by an amine nitrogen: Cu(0)-N(1), N(1)-C(2), N(1)-H(3). *)
Definition amine_mol : mol3D :=
  {| atoms := map mk_atom ["Cu"; "N"; "C"; "H"];
     graph := adj_of_bonds [(0, 1); (1, 2); (1, 3)] |}.

(** Two copper atoms bridged by one carboxylate: Cu(0)-O(1)-C(2)-O(3)-Cu(4). *)
Definition bridge_cif : cif_file :=
  mk_cif "bridge" ["Cu"; "O"; "C"; "O"; "Cu"] [(0, 1); (1, 2); (2, 3); (3, 4)].

(** Kernels whose atom-only autocorrelations come back as Python ints. *)
Definition int_kernels : Kernels :=
  {| generate_atomonly_autocorrelations := λ m t d,
       {| colnames := toy_names six d;
          results := map (λ _, map (λ k, PyInt (Z.of_nat k)) (seq 0 (d + 1))) six |};
     generate_atomonly_deltametrics := generate_atomonly_deltametrics;
     generate_full_complex_autocorrelations := generate_full_complex_autocorrelations;
     generate_multimetal_autocorrelations := generate_multimetal_autocorrelations;
     generate_multimetal_deltametrics := generate_multimetal_deltametrics;
     full_autocorrelation := full_autocorrelation |}.

(** A run at depth 0 on the bond records of the file, in an empty output
    directory, with at most [max_num_atoms] atoms. *)
Definition run_in (K : Kernels) (D : Diagnostics) (data : cif_file) (path : option string)
    (max_num_atoms : nat) (bond_info surrounded rod : bool) (s : store)
    : result (list pyval * list pyval) * store :=
  @get_MOF_descriptors toy_elements toy_pbc K D data 0 path "out.xyz" true 1%Q max_num_atoms
                       bond_info surrounded rod s.

Definition run (D : Diagnostics) (data : cif_file) (path : option string)
    (bond_info surrounded rod : bool) : result (list pyval * list pyval) * store :=
  run_in toy_kernels D data path 2000 bond_info surrounded rod empty_store.

(** A linker N(0)-C(1)-N(2) held only by the hydrogens H(3), H(4) of the
    coordinated oxygens O(5), O(6) of Cu(7), Cu(8), next to the carboxylate
    O(5)-C(9)-O(6). *)
Definition hbridge_cif : cif_file :=
  mk_cif "hbridge" ["N"; "C"; "N"; "H"; "H"; "O"; "O"; "Cu"; "Cu"; "C"]
         [(0, 1); (1, 2); (0, 3); (2, 4); (3, 5); (4, 6); (5, 7); (6, 8); (5, 9); (9, 6)].

(** One copper atom chelated by one carboxylate: Cu(0)-O(1)-C(2)-O(3)-Cu(0). *)
Definition chelate_cif : cif_file :=
  mk_cif "chelate" ["Cu"; "O"; "C"; "O"] [(0, 1); (1, 2); (2, 3); (3, 0)].

(** A linker O(0)-C(1)-H(2) whose oxygen is the only anchor. *)
Definition plain_linker : mol3D :=
  {| atoms := map mk_atom ["O"; "C"; "H"]; graph := adj_of_bonds [(0, 1); (1, 2)] |}.

(** The state in which the reclassification of [chelate_cif] starts. *)
Definition chelate_mol : mol3D :=
  {| atoms := import_from_cif chelate_cif; graph := adj_of_bonds (bond_records chelate_cif) |}.

Definition chelate_candidates : subgraphs :=
  let allatoms : gset nat := list_to_set (seq 0 (shape0 (graph chelate_mol))) in
  toy_get_closed_subgraph (allatoms ∖ removelist_seed chelate_mol)
                          (removelist_seed chelate_mol) (graph chelate_mol).

Definition chelate_initial_SBUs : list (list nat) :=
  let allatoms : gset nat := list_to_set (seq 0 (shape0 (graph chelate_mol))) in
  (toy_get_closed_subgraph (removelist_seed chelate_mol)
                           (allatoms ∖ removelist_seed chelate_mol) (graph chelate_mol)).1.

Definition chelate_start : pstate :=
  {| removelist := removelist_seed chelate_mol; SBUlist := SBUlist_seed chelate_mol;
     linker_list := chelate_candidates.1;
     linker_subgraphlist := chelate_candidates.2;
     max_min_linker_length := 0; min_max_linker_length := 100;
     linkeranchors_superlist := [] |}.

(** ** Further statements

    Notions used to state what the partitioning code does. *)

(** Atom [a], at position [iii] of the candidate [atoms_list], is bonded to
    atom [b] of the initial SBU number [kk]. *)
Definition touches (adj : adj_matrix) (initial_SBU_list : list (list nat))
    (atoms_list : list nat) (iii a kk b : nat) : Prop :=
  atoms_list !! iii = Some a
  ∧ (∃ sbu, initial_SBU_list !! kk = Some sbu ∧ b ∈ sbu)
  ∧ b ∈ nonzero_row adj a.

(** The anchor set that line 1078 appends for a candidate. *)
Definition anchors_of (adj : adj_matrix) (initial_SBU_list : list (list nat))
    (atoms_list : list nat) : gset nat :=
  linkeranchors_atoms (find_anchors adj initial_SBU_list atoms_list).

(** Atom [y] belongs to a candidate of [l] that [keep] does not retain. *)
Definition merged (keep : nat → bool) (l : list (list nat)) (y : nat) : Prop :=
  ∃ i c, l !! i = Some c ∧ keep i = false ∧ y ∈ c.

(** The outcome of the loop body for the candidate at position [i] of the
    state in which the pass starts. *)
Definition kept_at `{Elements, PBC} (molcif : mol3D) (adj : adj_matrix) (cell_v : cell)
    (initial_SBU_list : list (list nat)) (st : pstate) (i : nat) : bool :=
  match linker_list st !! i, linker_subgraphlist st !! i with
  | Some c, Some g => is_kept molcif adj cell_v initial_SBU_list g c
  | _, _ => false
  end.

(** The molecule read from [bridge_cif]. *)
Definition bridge_mol : mol3D :=
  {| atoms := import_from_cif bridge_cif; graph := adj_of_bonds (bond_records bridge_cif) |}.

(** The state in which the reclassification of a molecule starts, with the
    stand-in for [get_closed_subgraph] (lines 1028-1057). *)
Definition candidates_of (m : mol3D) : subgraphs :=
  let allatoms : gset nat := list_to_set (seq 0 (shape0 (graph m))) in
  toy_get_closed_subgraph (allatoms ∖ removelist_seed m) (removelist_seed m) (graph m).

Definition initial_SBUs_of (m : mol3D) : list (list nat) :=
  let allatoms : gset nat := list_to_set (seq 0 (shape0 (graph m))) in
  (toy_get_closed_subgraph (removelist_seed m) (allatoms ∖ removelist_seed m) (graph m)).1.

Definition start_of (m : mol3D) : pstate :=
  {| removelist := removelist_seed m; SBUlist := SBUlist_seed m;
     linker_list := (candidates_of m).1;
     linker_subgraphlist := (candidates_of m).2;
     max_min_linker_length := 0; min_max_linker_length := 100;
     linkeranchors_superlist := [] |}.

(** The two featurization calls on the one linker of [bridge_cif] and on
    the SBU made of its first copper atom. *)
Definition bridge_linker_call : M (list string * ndarray Q) :=
  make_MOF_linker_RACs [[1; 2; 3]] [toy_slice_mat (graph bridge_mol) [1; 2; 3]] bridge_mol 0
    "bridge" (cell_of bridge_cif) [{[1; 3]}].

Definition bridge_sbu_call : M (list string * ndarray Q * list string * ndarray Q) :=
  make_MOF_SBU_RACs [[0]] [toy_slice_mat (graph bridge_mol) [0]] bridge_mol 0
    "bridge" (cell_of bridge_cif) {[1; 3]} [{[1; 3]}]
    [[1; 2; 3]] [toy_slice_mat (graph bridge_mol) [1; 2; 3]].

(** Whether an SBU and a linker share an atom (line 227). *)
Definition touching (SBU linker : list nat) : bool :=
  0 <? size ((list_to_set SBU : gset nat) ∩ list_to_set linker).

(** The (SBU, linker) pairs for which the lc block of lines 227-273 runs,
    in the order of the two loops. *)
Definition connected_pairs (l : list (nat * list nat)) (connections_list : list (list nat))
    : list (list nat * (nat * list nat)) :=
  concat (map (λ iS, map (pair iS.2)
                         (List.filter (λ jl, touching iS.2 jl.2) (enumerate connections_list)))
              l).

(** What one linker of [connections_list] contributes to the lc rows. *)
Definition lc_row_of `{PBC, Kernels} (molcif : mol3D) (depth : nat) (anchoring : gset nat)
    (conn_subs : list adj_matrix) (jl : nat * list nat) (r : list pyval) : Prop :=
  ∃ g names s0 s1,
    conn_subs !! jl.1 = Some g
    ∧ lc_descriptors_of (sub_mol molcif jl.2 g) (lc_atoms anchoring jl.2) depth s0
      = (Ok (names, r), s1)
    ∧ forallb is_float r = true.

(** What one SBU contributes to the rows that are averaged. *)
Definition sbu_row_of `{PBC, Kernels} (molcif : mol3D) (depth : nat) (name : string)
    (subs : list adj_matrix) (iS : nat * list nat) (r : list pyval) : Prop :=
  ∃ g, subs !! iS.1 = Some g
       ∧ r = py_remove (PyStr name)
               ((sbu_descriptors_of (sub_mol molcif iS.2 g) molcif depth).2 ++ [PyStr name]).

(** [make_MOF_SBU_RACs] on the two halves of [bridge_cif] as SBUs. *)
Definition bridge_halves_call : M (list string * ndarray Q * list string * ndarray Q) :=
  make_MOF_SBU_RACs [[0; 1]; [3; 4]]
    [toy_slice_mat (graph bridge_mol) [0; 1]; toy_slice_mat (graph bridge_mol) [3; 4]]
    bridge_mol 0 "bridge" (cell_of bridge_cif) {[1; 3]} [{[1; 3]}]
    [[1; 2; 3]] [toy_slice_mat (graph bridge_mol) [1; 2; 3]].

(** [m] always returns. *)
Definition succeeds {A} (m : M A) : Prop := ∀ s, ∃ a s', m s = (Ok a, s').

(** The state in which line 1058 starts, and the initial SBUs of line 1053. *)
Definition partition_start `{Elements, PBC} (molcif : mol3D) (adj : adj_matrix) : pstate :=
  let removelist0 := removelist_seed molcif in
  let allatoms : gset nat := list_to_set (seq 0 (shape0 adj)) in
  let candidates := get_closed_subgraph (allatoms ∖ removelist0) removelist0 adj in
  {| removelist := removelist0; SBUlist := SBUlist_seed molcif;
     linker_list := candidates.1; linker_subgraphlist := candidates.2;
     max_min_linker_length := 0; min_max_linker_length := 100;
     linkeranchors_superlist := [] |}.

Definition partition_initial_SBUs `{Elements, PBC} (molcif : mol3D) (adj : adj_matrix)
    : list (list nat) :=
  let removelist0 := removelist_seed molcif in
  let allatoms : gset nat := list_to_set (seq 0 (shape0 adj)) in
  (get_closed_subgraph removelist0 (allatoms ∖ removelist0) adj).1.

(** ** Pairwise distances (lines 750-773) *)

(** Lines 769-772: [np.sum(np.square(X1 - X2), axis=-1)] for two rows. *)
Definition sq_dist (xi xj : list R) : R :=
  foldr Rplus 0%R (zip_with (λ a b, Rsqr (a - b)) xi xj).

(** Lines 769-773, on exact reals. *)
Definition dist_mat_comp (X : list (list R)) : list (list R) :=
  map (λ xi, map (λ xj, sqrt (sq_dist xi xj)) X) X.

(** ** The output folders (lines 436-497)

    The part of the file system the three helpers touch: a map from path
    to directory or regular file with its content.  The empty path stands
    for the current directory. *)
Inductive node := Folder | Regular (content : string).

Abbreviation fsys := (gmap string node).

(** [os.path.dirname]: what precedes the last slash. *)
Fixpoint dirname_aux (p : string) : option string :=
  match p with
  | EmptyString => None
  | String c p' =>
      match dirname_aux p' with
      | Some d => Some (String c d)
      | None => if Ascii.eqb c "/" then Some EmptyString else None
      end
  end.
Definition dirname (p : string) : string := default EmptyString (dirname_aux p).

Definition os_path_exists (p : string) (fs : fsys) : bool := bool_decide (is_Some (fs !! p)).

Definition parent_is_folder (p : string) (fs : fsys) : bool :=
  match dirname p with
  | EmptyString => true
  | d => match fs !! d with Some Folder => true | _ => false end
  end.

(** [os.mkdir]: FileExistsError and FileNotFoundError are both OSError. *)
Definition os_mkdir (p : string) (fs : fsys) : result unit * fsys :=
  if os_path_exists p fs then (Raise OSError, fs)
  else if parent_is_folder p fs then (Ok tt, <[p := Folder]> fs)
  else (Raise OSError, fs).

(** [open(p, 'w')] followed by [close()]. *)
Definition open_w_close (p : string) (fs : fsys) : result unit * fsys :=
  match fs !! p with
  | Some Folder => (Raise OSError, fs)
  | _ => if parent_is_folder p fs then (Ok tt, <[p := Regular ""]> fs) else (Raise OSError, fs)
  end.

Fixpoint for_each (l : list string) (body : string → fsys → result unit * fsys) (fs : fsys)
    : result unit * fsys :=
  match l with
  | [] => (Ok tt, fs)
  | x :: l' => match body x fs with
               | (Ok _, fs') => for_each l' body fs'
               | (Raise e, fs') => (Raise e, fs')
               end
  end.

(** Lines 451-453. *)
Definition mkdir_if_absent (folder_paths : list string) : fsys → result unit * fsys :=
  for_each folder_paths
           (λ folder_path fs,
              if negb (os_path_exists folder_path fs) then os_mkdir folder_path fs
              else (Ok tt, fs)).

(** Lines 472-475. *)
Definition make_file_if_absent (path : string) (filenames : list string)
    : fsys → result unit * fsys :=
  for_each filenames
           (λ filename fs,
              if negb (os_path_exists (path +:+ "/" +:+ filename) fs)
              then open_w_close (path +:+ "/" +:+ filename) fs
              else (Ok tt, fs)).

Definition required_folders (path : string) : list string :=
  [path +:+ "/ligands"; path +:+ "/linkers"; path +:+ "/sbus"; path +:+ "/xyz";
   path +:+ "/logs"].
Definition required_files : list string :=
  ["sbu_descriptors.csv"; "linker_descriptors.csv"; "lc_descriptors.csv"].

(** Lines 492-497. *)
Definition path_maker (path : string) (fs : fsys) : result unit * fsys :=
  match mkdir_if_absent (required_folders path) fs with
  | (Ok _, fs') => make_file_if_absent path required_files fs'
  | (Raise e, fs') => (Raise e, fs')
  end.

(** Everything that [fs] holds is in [fs'] as it was. *)
Definition keeps (fs fs' : fsys) : Prop := ∀ q n, fs !! q = Some n → fs' !! q = Some n.

(** A folder [out] that already holds an SBU table. *)
Definition used_folder : fsys :=
  <["out/sbu_descriptors.csv" := Regular "name,f-chi-0-all"]> (<["out" := Folder]> ∅).

(** ** Bond lengths between SBUs and linkers (lines 543-574)

    The two lists that [bond_information_write] fills before it averages
    them.  The length of a bond after the unit-cell shift of lines 562-568
    and the table of covalent radii are external.  A scaled length is kept
    as the pair of the length and the sum of the two radii it is divided
    by. *)

Fixpoint fold_result {A S} (l : list A) (body : S → A → result S) (s : S) : result S :=
  match l with
  | [] => Ok s
  | x :: l' => match body s x with
               | Ok s' => fold_result l' body s'
               | Raise e => Raise e
               end
  end.

Section BondInformation.
Context `{Elements}.
Variable shifted_distance : mol3D → cell → nat → nat → Q.
Variable COVALENT_RADII : string → option Q.

(** Lines 547-549: the scan that selects the connection points of a
    linker; [current] is the value the variable has from earlier linkers. *)
Definition connection_points_scan (linkeranchors_superlist : list (gset nat))
    (linker_atoms_list : list nat) (current : option (list nat))
    : result (option (list nat)) :=
  fold_result linkeranchors_superlist
    (λ cur anchors,
       match elements anchors !! 0 with
       | None => Raise IndexError
       | Some first =>
           if bool_decide (first ∈ linker_atoms_list) then Ok (Some (elements anchors))
           else Ok cur
       end)
    current.

Definition bond_lists : Type := list Q * list (Q * Q).

(** Lines 556-574: one atom bonded to a connection point. *)
Definition measure_bond (molcif : mol3D) (cell_v : cell) (con_point : nat)
    (acc : bond_lists) (con_atom : nat) : result bond_lists :=
  if ismetal false (getAtom molcif con_atom) then
    let bond_len := shifted_distance molcif cell_v con_point con_atom in
    match COVALENT_RADII (sym (getAtom molcif con_atom)) with
    | None => Raise KeyError
    | Some con_atom_radius =>
        match COVALENT_RADII (sym (getAtom molcif con_point)) with
        | None => Raise KeyError
        | Some con_point_radius =>
            Ok (acc.1 ++ [bond_len],
                acc.2 ++ [(bond_len, (con_atom_radius + con_point_radius)%Q)])
        end
    end
  else Ok acc.

(** Lines 550-574: all connection points of one linker. *)
Definition measure_points (adj : adj_matrix) (molcif : mol3D) (cell_v : cell)
    (points : list nat) (acc : bond_lists) : result bond_lists :=
  fold_result points
    (λ acc con_point, fold_result (nonzero_row adj con_point)
                                  (measure_bond molcif cell_v con_point) acc)
    acc.

(** Lines 543-574; the state is the variable [linker_connection_points],
    unbound at first, and the two lists. *)
Definition bond_length_lists (linker_list : list (list nat))
    (linkeranchors_superlist : list (gset nat)) (adj : adj_matrix) (molcif : mol3D)
    (cell_v : cell) : result (option (list nat) * bond_lists) :=
  fold_result linker_list
    (λ st linker_atoms_list,
       match connection_points_scan linkeranchors_superlist linker_atoms_list st.1 with
       | Raise e => Raise e
       | Ok None => Raise UnboundLocalError
       | Ok (Some points) =>
           match measure_points adj molcif cell_v points st.2 with
           | Raise e => Raise e
           | Ok acc => Ok (Some points, acc)
           end
       end)
    (None, ([], [])).

End BondInformation.


(** Whether the first element of an anchor set is an atom of the linker
    (the test of line 548). *)
Definition starts_in (linker_atoms_list : list nat) (anchors : gset nat) : bool :=
  match elements anchors !! 0 with
  | Some first => bool_decide (first ∈ linker_atoms_list)
  | None => false
  end.

(** The connection points the scan ends with when some set passes the test. *)
Definition points_for (linkeranchors_superlist : list (gset nat))
    (linker_atoms_list : list nat) : list nat :=
  match last (List.filter (starts_in linker_atoms_list) linkeranchors_superlist) with
  | Some anchors => elements anchors
  | None => []
  end.

(** The (connection point, metal neighbour) pairs, in the order of the loops. *)
Definition measured_pairs `{Elements} (adj : adj_matrix) (molcif : mol3D)
    (linkeranchors_superlist : list (gset nat)) (linker_list : list (list nat))
    : list (nat * nat) :=
  concat (map (λ linker,
                 concat (map (λ p, map (pair p)
                                       (List.filter (λ m, ismetal false (getAtom molcif m))
                                                    (nonzero_row adj p)))
                             (points_for linkeranchors_superlist linker)))
              linker_list).


(** ** The SBU skeleton of [surrounded_sbu_gen] (lines 631-682)

    The first traversal of [surrounded_sbu_gen]: starting from the first
    atom of an SBU it places the atoms of the SBU one by one, each next to
    the atom it was reached from.  The dictionary
    [sbu_atoms_to_branch_from] and the list of its keys are kept together
    as the list of (key, pending neighbours) in key order: a key is only
    ever added for an atom that has just been placed, so it is never
    present twice.  The position of a neighbour relative to a placed atom
    (lines 667-671) is computed by the external periodic helpers. *)

Record traversal := {
  added_idx : list nat;
  atom3D_dict : gmap nat atom3D;
  surrounded_sbu : list atom3D;
  sbu_atoms_to_branch_from : list (nat * list nat)
}.

Section SurroundedSbu.
Variable place : cell → point → point → point.
Variables (atoms_sbu : list nat) (molcif : mol3D) (adj : adj_matrix) (cell_v : cell)
          (allatomtypes : list string).

(** Lines 633-646. *)
Definition traversal_start : result traversal :=
  match atoms_sbu !! 0 with
  | None => Raise IndexError
  | Some starting_atom_idx =>
      let starting_atom3D := getAtom molcif starting_atom_idx in
      Ok {| added_idx := [starting_atom_idx];
            atom3D_dict := {[starting_atom_idx := starting_atom3D]};
            surrounded_sbu := [starting_atom3D];
            sbu_atoms_to_branch_from :=
              [(starting_atom_idx,
                List.filter (λ i, bool_decide (i ∈ atoms_sbu))
                            (nonzero_row adj starting_atom_idx))] |}
  end.

(** Lines 652-682: one pass through the body of the while loop. *)
Definition traversal_step (st : traversal) : result traversal :=
  match sbu_atoms_to_branch_from st with
  | [] => Ok st
  | (my_key, pending) :: others =>
      match pending with
      | [] => Raise IndexError
      | neighbor_idx :: rest =>
          let branch := match rest with
                        | [] => others
                        | _ => (my_key, rest) :: others
                        end in
          if bool_decide (neighbor_idx ∈ added_idx st) then
            Ok {| added_idx := added_idx st; atom3D_dict := atom3D_dict st;
                  surrounded_sbu := surrounded_sbu st;
                  sbu_atoms_to_branch_from := branch |}
          else
            match atom3D_dict st !! my_key with
            | None => Raise KeyError
            | Some atom_my_key =>
                match allatomtypes !! neighbor_idx with
                | None => Raise IndexError
                | Some symbol_neighbor =>
                    let new_atom3D :=
                      {| sym := symbol_neighbor;
                         coords := place cell_v (coords atom_my_key)
                                         (coords (getAtom molcif neighbor_idx)) |} in
                    let added := added_idx st ++ [neighbor_idx] in
                    let to_check :=
                      List.filter (λ i, negb (bool_decide (i ∈ added))
                                        && bool_decide (i ∈ atoms_sbu))
                                  (nonzero_row adj neighbor_idx) in
                    Ok {| added_idx := added;
                          atom3D_dict := <[neighbor_idx := new_atom3D]> (atom3D_dict st);
                          surrounded_sbu := surrounded_sbu st ++ [new_atom3D];
                          sbu_atoms_to_branch_from :=
                            match to_check with
                            | [] => branch
                            | _ => branch ++ [(neighbor_idx, to_check)]
                            end |}
                end
            end
      end
  end.

(** Lines 649-682: the while loop, run for at most [fuel] passes. *)
Fixpoint traversal_loop (fuel : nat) (st : traversal) : option (result traversal) :=
  match sbu_atoms_to_branch_from st with
  | [] => Some (Ok st)
  | _ :: _ =>
      match fuel with
      | 0 => None
      | S fuel' =>
          match traversal_step st with
          | Ok st' => traversal_loop fuel' st'
          | Raise e => Some (Raise e)
          end
      end
  end.

(** Lines 631-682. *)
Definition sbu_skeleton (fuel : nat) : option (result traversal) :=
  match traversal_start with
  | Raise e => Some (Raise e)
  | Ok st => traversal_loop fuel st
  end.

(** What holds of the traversal between two passes of the loop. *)
Record traversal_inv (st : traversal) : Prop := {
  inv_nodup : NoDup (added_idx st);
  inv_sbu : ∀ x, x ∈ added_idx st → x ∈ atoms_sbu;
  inv_pending : ∀ k l, (k, l) ∈ sbu_atoms_to_branch_from st →
                  k ∈ added_idx st ∧ l ≠ []
                  ∧ ∀ y, y ∈ l → y ∈ atoms_sbu ∧ y ∈ nonzero_row adj k;
  inv_dict : ∀ x, x ∈ added_idx st → is_Some (atom3D_dict st !! x);
  inv_atoms : length (surrounded_sbu st) = length (added_idx st);
  inv_closed : ∀ a b, a ∈ added_idx st → b ∈ nonzero_row adj a → b ∈ atoms_sbu →
                 b ∈ added_idx st
                 ∨ ∃ k l, (k, l) ∈ sbu_atoms_to_branch_from st ∧ b ∈ l;
  inv_reached : ∀ i x, added_idx st !! S i = Some x →
                  ∃ j k, j ≤ i ∧ added_idx st !! j = Some k ∧ x ∈ nonzero_row adj k
}.

(** The number of pending neighbours, and the bound on the passes left. *)
Definition pending (st : traversal) : nat :=
  foldr (λ kl n, length kl.2 + n) 0 (sbu_atoms_to_branch_from st).

Definition passes_left (st : traversal) : nat :=
  pending st
  + (shape0 adj + 1) * (size (list_to_set atoms_sbu : gset nat) - length (added_idx st)).

End SurroundedSbu.

(** Stand-ins for the external geometry: every bond has length one, every
    element radius one, and a neighbour is placed where the file has it. *)
Definition unit_distance (_ : mol3D) (_ : cell) (_ _ : nat) : Q := 1%Q.
Definition unit_radii (_ : string) : option Q := Some 1%Q.
Definition place_there (_ : cell) (_ q : point) : point := q.

(** * Theorems *)

(** ** Running the pipeline on concrete structures *)

Lemma shape_Some r n m :
  shape r = Some (n, m) →
  ∃ names values, r = Ok (names, values) ∧ length names = n ∧ length values = m.
Proof.
  destruct r as [[names values]|e]; simpl; [|discriminate].
  intros [= <- <-]. eauto.
Qed.

(** C1 (the code departs from the claim).  The bridged structure keeps
    exactly one linker after partitioning, and [get_MOF_descriptors] runs
    the full featurization on it: 44 named values come back, one linker row
    is written, and nothing is appended to FailedStructures.log.  The
    branch for exactly one linker (line 1183) is shadowed by the test
    [len(linker_subgraphlist) >= 1] of line 1173. *)
Theorem one_linker_is_featurized :
  let r := run quiet_diagnostics bridge_cif (Some "out") false false false in
  (∃ names values, r.1 = Ok (names, values) ∧ length names = 44 ∧ length values = 44)
  ∧ length (linker_table r.2) = 1
  ∧ texts r.2 !! "/FailedStructures.log" = None.
Proof.
  cbv zeta. split; [apply shape_Some; vm_compute; reflexivity |].
  split; vm_compute; reflexivity.
Qed.


(** C3 (the code departs from the claim).  Only the surrounded-SBU export
    is inside a try/except (lines 1203-1207): its failure leaves the
    returned pair as it is without diagnostics.  When the bond-length
    diagnostic or the rod detection raises, the exception reaches the caller
    and no descriptor pair is returned. *)
Theorem unwrapped_diagnostics_propagate :
  (run failing_diagnostics bridge_cif (Some "out") true false false).1 = Raise KeyError
  ∧ (run failing_diagnostics bridge_cif (Some "out") false false true).1 = Raise KeyError
  ∧ (run failing_diagnostics bridge_cif (Some "out") false true false).1
    = (run quiet_diagnostics bridge_cif (Some "out") false false false).1.
Proof. split; [|split]; vm_compute; reflexivity. Qed.

(** C4 (the code departs from the claim).  The first candidate of
    [hbridge_cif] shares no atom with any SBU, so [lc_names] is never
    assigned (line 274 only records the names when [j == 0]) while the lc
    values of the second linker are averaged: 20 names for 44 values. *)
Theorem names_shorter_than_values :
  shape (run quiet_diagnostics hbridge_cif (Some "out") false false false).1 = Some (20, 44).
Proof. vm_compute. reflexivity. Qed.

(** C5 (the code departs from the claim).  The hydrogen of a coordinated
    amine nitrogen enters the removal set although the nitrogen, bonded to
    carbon, is not in it: the loop of line 1014 runs over SBUlist, not over
    the removal set. *)
Theorem seed_removal_takes_amine_hydrogen :
  removelist_seed amine_mol = {[0; 3]}
  ∧ spec_seed_removal amine_mol = {[0]}
  ∧ removelist_seed amine_mol ≠ spec_seed_removal amine_mol.
Proof. split; [|split]; apply (bool_decide_unpack _); vm_compute; exact I. Qed.

(** ** Averaging *)

Section MeanFacts.
Context {A : Type} (zero : A) (add : A → A → A) (div_by : A → nat → A).
Hypothesis add_comm : ∀ x y, add x y = add y x.
Hypothesis add_assoc : ∀ x y z, add x (add y z) = add (add x y) z.

Lemma zip_with_add_swap (u v w : list A) :
  zip_with add (zip_with add u v) w = zip_with add (zip_with add u w) v.
Proof.
  revert v w. induction u as [|x u IH]; intros [|y v] [|z w]; simpl;
    try reflexivity;
    try (destruct (zip_with add u w); reflexivity);
    try (destruct (zip_with add u v); reflexivity).
  rewrite IH. f_equal.
  rewrite <- !add_assoc. f_equal. apply add_comm.
Qed.

Lemma column_fold_perm (rows rows' : list (list A)) :
  rows ≡ₚ rows' →
  ∀ acc, foldl (zip_with add) acc rows = foldl (zip_with add) acc rows'.
Proof.
  induction 1 as [|r l l' _ IH|r r' l|l l' l'' _ IH1 _ IH2]; intros acc; simpl.
  - reflexivity.
  - apply IH.
  - rewrite zip_with_add_swap. reflexivity.
  - rewrite IH1. apply IH2.
Qed.

Lemma forallb_perm {B} (f : B → bool) (l l' : list B) :
  l ≡ₚ l' → forallb f l = forallb f l'.
Proof.
  induction 1 as [|x l l' _ IH|x y l|l l' l'' _ IH1 _ IH2]; simpl.
  - reflexivity.
  - rewrite IH. reflexivity.
  - destruct (f x), (f y); reflexivity.
  - congruence.
Qed.

Lemma forallb_pointwise {B} (f g : B → bool) (l : list B) :
  (∀ x, f x = g x) → forallb f l = forallb g l.
Proof. intros E. induction l as [|x l IH]; simpl; [reflexivity | rewrite E, IH; reflexivity]. Qed.

Lemma same_width_head (r r' : list A) (rows : list (list A)) :
  forallb (λ s, length s =? length r) rows = true → r' ∈ rows →
  ∀ s : list A, (length s =? length r') = (length s =? length r).
Proof.
  intros Hall Hin s.
  rewrite forallb_forall in Hall.
  apply list_elem_of_In, Hall, Nat.eqb_eq in Hin. rewrite Hin. reflexivity.
Qed.

Lemma width_check_perm (r r' : list A) (rows rows' : list (list A)) :
  r :: rows ≡ₚ r' :: rows' →
  forallb (λ s, length s =? length r) (r :: rows) = true →
  length r' = length r
  ∧ forallb (λ s, length s =? length r') (r' :: rows') = true.
Proof.
  intros HP Hall.
  assert (Hin : r' ∈ r :: rows) by (rewrite HP; left).
  pose proof (same_width_head r r' (r :: rows) Hall Hin) as Hw.
  split.
  - specialize (Hw r'). rewrite Nat.eqb_refl in Hw. symmetry in Hw.
    apply Nat.eqb_eq in Hw. exact Hw.
  - rewrite <- (forallb_perm _ _ _ HP).
    rewrite <- Hall. apply forallb_pointwise. intros s. apply Hw.
Qed.

Lemma np_mean_axis0_perm (rows rows' : list (list A)) :
  rows ≡ₚ rows' →
  np_mean_axis0 zero add div_by rows = np_mean_axis0 zero add div_by rows'.
Proof.
  intros HP. destruct rows as [|r rows], rows' as [|r' rows'].
  - reflexivity.
  - apply Permutation_nil_l in HP. discriminate.
  - apply Permutation_nil_r in HP. discriminate.
  - unfold np_mean_axis0.
    destruct (forallb (λ s, length s =? length r) (r :: rows)) eqn:E.
    + destruct (width_check_perm r r' rows rows' HP E) as [Hlen ->].
      unfold column_sums. rewrite Hlen, (Permutation_length HP).
      rewrite (column_fold_perm _ _ HP). reflexivity.
    + destruct (forallb (λ s, length s =? length r') (r' :: rows')) eqn:E'; [|reflexivity].
      symmetry in HP.
      destruct (width_check_perm r' r rows' rows HP E') as [_ E''].
      congruence.
Qed.

End MeanFacts.

(** C8.  Permuting the per-substructure descriptor vectors leaves the
    component-wise mean unchanged, as an equation over the reals. *)
Theorem averaging_is_order_independent (rows rows' : list (list R)) :
  rows ≡ₚ rows' → np_mean_R rows = np_mean_R rows'.
Proof.
  apply np_mean_axis0_perm; intros; [apply Rplus_comm | symmetry; apply Rplus_assoc].
Qed.

Lemma averaging_is_order_independent_witness :
  np_mean_R [[1; 2]; [3; 4]; [5; 6]]%R = np_mean_R [[5; 6]; [1; 2]; [3; 4]]%R.
Proof.
  apply averaging_is_order_independent.
  apply Permutation_sym, (Permutation_cons_append [[1; 2]; [3; 4]]%R [5; 6]%R).
Defined.

(** The same on the rationals the pipeline computes with. *)
Lemma np_mean_Q_perm (rows rows' : list (list Q)) :
  rows ≡ₚ rows' → np_mean_Q rows = np_mean_Q rows'.
Proof.
  apply np_mean_axis0_perm.
  - intros [a b] [c d]. unfold Qplus. simpl.
    rewrite (Z.add_comm (a * Z.pos d)), (Pos.mul_comm b d). reflexivity.
  - intros [a b] [c d] [e f]. unfold Qplus. simpl.
    f_equal; [|apply Pos.mul_assoc].
    rewrite !Pos2Z.inj_mul. ring.
Qed.

(** ** Descriptor rows *)

Section DescriptorFacts.
Context `{PBC, Kernels}.

Lemma append_descriptors_values names descs list_of_names list_of_props prefix suffix :
  (append_descriptors names descs list_of_names list_of_props prefix suffix).2
  = descs ++ concat list_of_props.
Proof. reflexivity. Qed.

Lemma gen_and_append_desc_values temp_mol target depth names descs feature_type :
  (gen_and_append_desc temp_mol target depth names descs feature_type).2
  = descs ++ concat (results (generate_atomonly_autocorrelations temp_mol target depth))
          ++ concat (results (generate_atomonly_deltametrics temp_mol target depth)).
Proof. unfold gen_and_append_desc, append_descriptors. simpl. rewrite <- app_assoc. reflexivity. Qed.

Lemma gen_and_append_desc_dict temp_mol target depth names descs feature_type :
  (gen_and_append_desc temp_mol target depth names descs feature_type).1.1
  = generate_atomonly_deltametrics temp_mol target depth.
Proof. reflexivity. Qed.


Lemma functional_atoms_from_none (atoms : list atom3D) (link_list range acc : list nat) :
  (∀ jj, jj ∈ range →
     jj ∈ link_list ∨ ∃ a, atoms !! jj = Some a ∧ (sym a = "C" ∨ sym a = "H")) →
  functional_atoms_from atoms link_list range acc = Ok acc.
Proof.
  induction range as [|jj range IH]; intros Hno; simpl; [reflexivity|].
  assert (Hrest : ∀ k, k ∈ range →
            k ∈ link_list ∨ ∃ a, atoms !! k = Some a ∧ (sym a = "C" ∨ sym a = "H")).
  { intros k Hk. apply Hno. right. exact Hk. }
  destruct (Hno jj) as [Hin | (a & Ha & Hsym)]; [left | |].
  - rewrite bool_decide_eq_true_2 by exact Hin. apply IH, Hrest.
  - case_bool_decide; [apply IH, Hrest|].
    rewrite Ha.
    assert (String.eqb (sym a) "C" || String.eqb (sym a) "H" = true) as ->.
    { destruct Hsym as [-> | ->]; reflexivity. }
    apply IH, Hrest.
Qed.

(** C7.  A linker in which every atom is an anchor, a carbon or a hydrogen
    gets, after its lc values, two blocks of 6·(depth+1) zeros: the 'func'
    and the 'D_func' features. *)
Theorem no_functional_atoms_gives_zero_blocks (temp_mol : mol3D) (link_list : list nat)
    (depth : nat) (s : store) :
  (∀ jj, jj < shape0 (graph temp_mol) →
     jj ∈ link_list ∨ ∃ a, atoms temp_mol !! jj = Some a ∧ (sym a = "C" ∨ sym a = "H")) →
  ∃ names,
    lc_descriptors_of temp_mol link_list depth s
    = (Ok (names,
           (gen_and_append_desc temp_mol link_list depth [] [] "lc").2
             ++ repeat (NpFloat64 0) (6 * (depth + 1))
             ++ repeat (NpFloat64 0) (6 * (depth + 1))), s)
    ∧ length (repeat (NpFloat64 0) (6 * (depth + 1))) = 6 * (depth + 1).
Proof.
  intros Hno.
  assert (Hfa : functional_atoms temp_mol link_list = Ok []).
  { apply functional_atoms_from_none. intros jj Hjj. apply Hno.
    apply elem_of_seq in Hjj. lia. }
  unfold lc_descriptors_of.
  destruct (gen_and_append_desc temp_mol link_list depth [] [] "lc") as [[rd names] descs] eqn:E.
  unfold bind, lift. rewrite Hfa. cbn -[Nat.mul repeat].
  unfold append_descriptors, ret, np_zeros. cbn -[Nat.mul repeat].
  eexists. split; [|apply repeat_length].
  rewrite ?app_nil_r, <- (app_assoc descs). reflexivity.
Qed.

End DescriptorFacts.

Lemma no_functional_atoms_gives_zero_blocks_witness :
  ∃ names,
    lc_descriptors_of plain_linker [0] 1 empty_store
    = (Ok (names,
           (gen_and_append_desc plain_linker [0] 1 [] [] "lc").2
             ++ repeat (NpFloat64 0) (6 * (1 + 1))
             ++ repeat (NpFloat64 0) (6 * (1 + 1))), empty_store)
    ∧ length (repeat (NpFloat64 0) (6 * (1 + 1))) = 6 * (1 + 1).
Proof.
  apply no_functional_atoms_gives_zero_blocks.
  intros jj Hjj. change (shape0 (graph plain_linker)) with 3 in Hjj.
  destruct jj as [|[|[|jj]]]; [left; left | right; eexists; split; [reflexivity | left; reflexivity]
                              | right; eexists; split; [reflexivity | right; reflexivity] | lia].
Defined.

(** ** The reclassification pass *)

Lemma foldl_invariant {A B} (P : A → Prop) (f : A → B → A) (l : list B) (a : A) :
  P a → (∀ acc x, x ∈ l → P acc → P (f acc x)) → P (foldl f a l).
Proof.
  revert a. induction l as [|x l IH]; intros a Ha Hstep; simpl; [exact Ha|].
  apply IH.
  - apply Hstep; [left | exact Ha].
  - intros acc y Hy. apply Hstep. right. exact Hy.
Qed.

Lemma enumerate_lookup {A} (l : list A) (i : nat) (x : A) :
  (i, x) ∈ enumerate l → l !! i = Some x.
Proof.
  unfold enumerate. intros Hin.
  apply elem_of_lookup_imap in Hin as (j & y & [= -> ->] & Hy). exact Hy.
Qed.

Lemma enumerate_snoc {A} (l : list A) (x : A) :
  enumerate (l ++ [x]) = enumerate l ++ [(length l, x)].
Proof.
  unfold enumerate. rewrite imap_app. simpl. rewrite Nat.add_0_r. reflexivity.
Qed.

Section PartitionFacts.
Context `{Elements, PBC}.
Variables (molcif : mol3D) (adj : adj_matrix) (cell_v : cell) (name : string).
Variable initial_SBU_list : list (list nat).

Lemma find_anchors_consistent (atoms_list : list nat) :
  anchors_consistent initial_SBU_list (find_anchors adj initial_SBU_list atoms_list).
Proof.
  unfold find_anchors.
  apply foldl_invariant.
  { split; [set_solver | intros Hne; exfalso; apply Hne; reflexivity]. }
  intros ev [iii atoms] _ Hev.
  apply foldl_invariant; [exact Hev|].
  intros ev' [kk sbu_atoms_list] Hkk Hev'.
  apply foldl_invariant; [exact Hev'|].
  intros ev'' sbu_atoms _ [Hlt Hne].
  case_bool_decide; [|split; assumption].
  split; simpl.
  - intros k Hk. apply elem_of_union in Hk as [Hk | Hk]; [apply Hlt, Hk|].
    apply elem_of_singleton in Hk as ->.
    apply enumerate_lookup in Hkk. eapply lookup_lt_Some, Hkk.
  - intros _. set_solver.
Qed.

Lemma images_of_ok (sg : adj_matrix) (atoms_list : list nat) :
  let ev := find_anchors adj initial_SBU_list atoms_list in
  2 ≤ size (linkeranchors_list ev) →
  ∃ k sbu,
    elements (sbu_connect_list ev) !! 0 = Some k
    ∧ initial_SBU_list !! k = Some sbu
    ∧ images_of molcif adj cell_v initial_SBU_list sg atoms_list ev
      = Ok (ligand_detect cell_v
              (map (λ val, coords (getAtom molcif val))
                   (elements (linkeranchors_atoms ev ∪ list_to_set sbu)))
              (slice_mat adj (elements (linkeranchors_atoms ev ∪ list_to_set sbu)))
              (list_to_set (seq 0 (size (linkeranchors_list ev)))),
            ligand_detect cell_v (map (λ val, coords (getAtom molcif val)) atoms_list) sg
              (linkeranchors_list ev)).
Proof.
  intros ev Hsize.
  destruct (find_anchors_consistent atoms_list) as [Hlt Hne]. fold ev in Hlt, Hne.
  assert (Hanch : linkeranchors_list ev ≠ ∅).
  { intros E. rewrite E, size_empty in Hsize. lia. }
  specialize (Hne Hanch).
  destruct (elements (sbu_connect_list ev)) as [|k rest] eqn:Eel.
  { apply elements_empty_inv in Eel. apply leibniz_equiv in Eel. contradiction. }
  assert (Hk : k ∈ sbu_connect_list ev).
  { apply elem_of_elements. rewrite Eel. left. }
  destruct (lookup_lt_is_Some_2 initial_SBU_list k (Hlt k Hk)) as [sbu Hsbu].
  exists k, sbu. split; [reflexivity|]. split; [exact Hsbu|].
  unfold images_of. fold ev. rewrite Eel. simpl. rewrite Hsbu. reflexivity.
Qed.

End PartitionFacts.

Lemma select_snoc {A} (keep : nat → bool) (l : list A) (x : A) :
  select keep (l ++ [x]) = select keep l ++ (if keep (length l) then [x] else []).
Proof.
  unfold select. rewrite enumerate_snoc, omap_app. simpl.
  destruct (keep (length l)); reflexivity.
Qed.

Lemma delete_middle {A} (l1 l2 : list A) (x : A) :
  delete (length l1) (l1 ++ x :: l2) = l1 ++ l2.
Proof. induction l1 as [|y l1 IH]; simpl; [reflexivity | rewrite IH; reflexivity]. Qed.

Lemma snoc_of_length {A} (l : list A) (n : nat) :
  length l = S n → ∃ l' x, l = l' ++ [x] ∧ length l' = n.
Proof.
  intros Hlen. destruct (exists_last (l := l)) as (l' & x & ->).
  { intros ->. discriminate. }
  exists l', x. split; [reflexivity|].
  rewrite length_app in Hlen. simpl in Hlen. lia.
Qed.

Section PartitionLoop.
Context `{Elements, PBC}.
Variables (molcif : mol3D) (adj : adj_matrix) (cell_v : cell) (name : string).
Variable initial_SBU_list : list (list nat).

Abbreviation body := (classify_body molcif adj cell_v name initial_SBU_list).
Abbreviation kept := (is_kept molcif adj cell_v initial_SBU_list).

(** One iteration: it never raises when position [ii] exists in the three
    lists, and it either leaves the lists alone or moves the candidate to
    the SBU side. *)
Lemma classify_body_spec (templist : list (list nat)) (st : pstate) (s : store)
    (ii : nat) (atoms_list c : list nat) (sg : adj_matrix) :
  linker_subgraphlist st !! ii = Some sg →
  linker_list st !! ii = Some c →
  templist !! ii = Some atoms_list →
  ∃ st' s',
    body templist st (ii, atoms_list) s = (Ok st', s')
    ∧ if kept sg atoms_list
      then linker_list st' = linker_list st
           ∧ linker_subgraphlist st' = linker_subgraphlist st
           ∧ removelist st' = removelist st ∧ SBUlist st' = SBUlist st
      else linker_list st' = delete ii (linker_list st)
           ∧ linker_subgraphlist st' = delete ii (linker_subgraphlist st)
           ∧ removelist st' = removelist st ∪ list_to_set atoms_list
           ∧ SBUlist st' = SBUlist st ∪ list_to_set atoms_list.
Proof.
  intros Hsg Hc Ht.
  unfold classify_body, is_kept.
  set (ev := find_anchors adj initial_SBU_list atoms_list).
  unfold bind at 1. unfold index at 1. rewrite Hsg. unfold ret at 1.
  destruct (linker_length sg (linkeranchors_list ev)) as [min_length max_length].
  assert (Hmerge : ∀ s0, merge_ligand (push_anchors st (linkeranchors_atoms ev)) templist ii s0
            = (Ok {| removelist := removelist st ∪ list_to_set atoms_list;
                     SBUlist := SBUlist st ∪ list_to_set atoms_list;
                     linker_list := delete ii (linker_list st);
                     linker_subgraphlist := delete ii (linker_subgraphlist st);
                     max_min_linker_length := max_min_linker_length st;
                     min_max_linker_length := min_max_linker_length st;
                     linkeranchors_superlist :=
                       linkeranchors_superlist st ++ [linkeranchors_atoms ev] |}, s0)).
  { intros s0. unfold merge_ligand, bind, index, pop, ret. simpl.
    rewrite Ht, Hc, Hsg. reflexivity. }
  destruct (2 <=? size (linkeranchors_list ev)) eqn:Eanch.
  - destruct (2 <=? size (sbu_connect_list ev)) eqn:Econn.
    + eexists _, _. split; [reflexivity|]. simpl. auto.
    + apply Nat.leb_le in Eanch.
      destruct (images_of_ok molcif adj cell_v initial_SBU_list sg atoms_list Eanch)
        as (k & sbu & _ & _ & Eimg).
      fold ev in Eimg. rewrite Eimg.
      unfold bind at 1. unfold lift at 1. cbn [fst snd].
      destruct (crosses_boundary _ _).
      * eexists _, _. split; [reflexivity|]. simpl. auto.
      * unfold bind at 1. rewrite Hmerge.
        eexists _, _. split; [reflexivity|]. simpl. auto.
  - unfold bind at 1. unfold write2file at 1. unfold bind at 1. rewrite Hmerge.
    eexists _, _. split; [reflexivity|]. simpl. auto.
Qed.

(** The whole pass over a prefix of the candidates, from its last element
    down to the first. *)
Lemma reclassify_loop (templist : list (list nat)) (keep : nat → bool)
    (pre : list (list nat)) :
  ∀ (subsP : list adj_matrix),
  length subsP = length pre →
  (∀ i c, pre !! i = Some c → templist !! i = Some c) →
  (∀ i c g, pre !! i = Some c → subsP !! i = Some g → keep i = kept g c) →
  ∀ tailL tailS st s,
  linker_list st = pre ++ tailL →
  linker_subgraphlist st = subsP ++ tailS →
  ∃ st' s',
    forM (reverse (enumerate pre)) (body templist) st s = (Ok st', s')
    ∧ linker_list st' = select keep pre ++ tailL
    ∧ linker_subgraphlist st' = select keep subsP ++ tailS
    ∧ removelist st ⊆ removelist st' ∧ SBUlist st ⊆ SBUlist st'
    ∧ (∀ i c, pre !! i = Some c → keep i = false →
         list_to_set c ⊆ removelist st' ∧ list_to_set c ⊆ SBUlist st').
Proof.
  induction pre as [|x pre IH] using rev_ind; intros subsP Hlen Htemp Hkeep tailL tailS st s HL HS.
  - destruct subsP; [|discriminate]. exists st, s. simpl.
    split_and!; try assumption; try reflexivity.
    intros i c Hi; rewrite lookup_nil in Hi; discriminate.
  - rewrite length_app in Hlen. simpl in Hlen. rewrite Nat.add_1_r in Hlen.
    destruct (snoc_of_length subsP _ Hlen) as (subsP' & g & -> & Hlen').
    rewrite enumerate_snoc, reverse_snoc. cbn [forM].
    assert (Hx : (pre ++ [x]) !! length pre = Some x).
    { rewrite lookup_app_r by lia. rewrite Nat.sub_diag. reflexivity. }
    assert (Hg : (subsP' ++ [g]) !! length pre = Some g).
    { rewrite lookup_app_r by lia. rewrite Hlen', Nat.sub_diag. reflexivity. }
    destruct (classify_body_spec templist st s (length pre) x x g) as (st1 & s1 & E1 & Hcase).
    { rewrite HS, lookup_app_l by (rewrite length_app; simpl; lia). exact Hg. }
    { rewrite HL, lookup_app_l by (rewrite length_app; simpl; lia). exact Hx. }
    { apply Htemp, Hx. }
    unfold bind at 1. rewrite E1.
    rewrite <- (Hkeep (length pre) x g Hx Hg) in Hcase.
    assert (Htemp' : ∀ i c, pre !! i = Some c → templist !! i = Some c).
    { intros i c Hi. apply Htemp. rewrite lookup_app_l by (eapply lookup_lt_Some, Hi). exact Hi. }
    assert (Hkeep' : ∀ i c g0, pre !! i = Some c → subsP' !! i = Some g0 → keep i = kept g0 c).
    { intros i c g0 Hi Hgi. apply Hkeep.
      - rewrite lookup_app_l by (eapply lookup_lt_Some, Hi). exact Hi.
      - rewrite lookup_app_l by (eapply lookup_lt_Some, Hgi). exact Hgi. }
    rewrite !select_snoc, Hlen'.
    destruct (keep (length pre)) eqn:Ek.
    + destruct Hcase as (EL & ES & ER & EU).
      destruct (IH subsP' Hlen' Htemp' Hkeep' (x :: tailL) (g :: tailS) st1 s1)
        as (st' & s' & E & HL' & HS' & HR & HU & Hm).
      { rewrite EL, HL, <- app_assoc. reflexivity. }
      { rewrite ES, HS, <- app_assoc. reflexivity. }
      exists st', s'. rewrite E. split; [reflexivity|].
      rewrite <- !app_assoc. simpl.
      split_and!; try assumption.
      * rewrite <- ER. exact HR.
      * rewrite <- EU. exact HU.
      * intros i c Hi Hki.
        destruct (decide (i = length pre)) as [-> | Hne]; [congruence|].
        apply (Hm i); [|exact Hki].
        apply lookup_lt_Some in Hi as Hlt. rewrite length_app in Hlt. simpl in Hlt.
        rewrite lookup_app_l in Hi by lia. exact Hi.
    + destruct Hcase as (EL & ES & ER & EU).
      destruct (IH subsP' Hlen' Htemp' Hkeep' tailL tailS st1 s1)
        as (st' & s' & E & HL' & HS' & HR & HU & Hm).
      { rewrite EL, HL, <- app_assoc. apply delete_middle. }
      { rewrite ES, HS, <- app_assoc, <- Hlen'. apply delete_middle. }
      exists st', s'. rewrite E. split; [reflexivity|].
      rewrite !app_nil_r.
      split_and!; try assumption.
      * rewrite ER in HR. etrans; [apply union_subseteq_l | exact HR].
      * rewrite EU in HU. etrans; [apply union_subseteq_l | exact HU].
      * intros i c Hi Hki.
        destruct (decide (i = length pre)) as [-> | Hne].
        -- rewrite Hx in Hi. injection Hi as <-.
           rewrite ER in HR. rewrite EU in HU.
           split; (etrans; [apply union_subseteq_r |]); [exact HR | exact HU].
        -- apply (Hm i); [|assumption].
           apply lookup_lt_Some in Hi as Hlt. rewrite length_app in Hlt. simpl in Hlt.
           rewrite lookup_app_l in Hi by lia. exact Hi.
Qed.

End PartitionLoop.

Lemma n_images_pos (l : list image) : l ≠ [] → 1 ≤ n_images l.
Proof.
  unfold n_images. destruct l as [|x l]; [congruence|]. intros _.
  assert (Hin : x ∈ remove_dups (x :: l)) by (apply elem_of_remove_dups; left).
  destruct (remove_dups (x :: l)); [inversion Hin | simpl; lia].
Qed.

Section Classification.
Context `{Elements, PBC}.


End Classification.


(** ** The three tables *)

Lemma extends_refl s : extends s s.
Proof. repeat split; reflexivity. Qed.

Lemma extends_trans s1 s2 s3 : extends s1 s2 → extends s2 s3 → extends s1 s3.
Proof. intros (a & b & c) (a' & b' & c'). repeat split; etrans; eassumption. Qed.

Lemma quiet_extends {A} (m : M A) s : quiet m → extends s (m s).2.
Proof.
  intros Hq. specialize (Hq s). unfold tables in Hq. injection Hq as E1 E2 E3.
  unfold extends. rewrite E1, E2, E3. repeat split; reflexivity.
Qed.

Lemma quiet_ret {A} (a : A) : quiet (ret a).
Proof. intros s. reflexivity. Qed.

Lemma quiet_raise {A} (e : exn) : quiet (raise (A := A) e).
Proof. intros s. reflexivity. Qed.

Lemma quiet_lift {A} (r : result A) : quiet (lift r).
Proof. intros s. reflexivity. Qed.

Lemma quiet_bind {A B} (m : M A) (f : A → M B) :
  quiet m → (∀ a, quiet (f a)) → quiet (bind m f).
Proof.
  intros Hm Hf s. unfold bind. specialize (Hm s).
  destruct (m s) as [[a|e] s1]; simpl in *; [|exact Hm].
  rewrite Hf. exact Hm.
Qed.

Lemma quiet_try_except {A} (m h : M A) : quiet m → quiet h → quiet (try_except m h).
Proof.
  intros Hm Hh s. unfold try_except. specialize (Hm s).
  destruct (m s) as [[a|e] s1]; simpl in *; [exact Hm|].
  rewrite Hh. exact Hm.
Qed.

Lemma quiet_forM {A S} (l : list A) (body : S → A → M S) :
  (∀ acc x, quiet (body acc x)) → ∀ acc, quiet (forM l body acc).
Proof.
  intros Hb. induction l as [|x l IH]; intros acc; simpl.
  - apply quiet_ret.
  - apply quiet_bind; [apply Hb | apply IH].
Qed.

Lemma quiet_write2file file text : quiet (write2file file text).
Proof. intros s. reflexivity. Qed.

Lemma quiet_write_file file text : quiet (write_file file text).
Proof. intros s. reflexivity. Qed.

Lemma quiet_write_if_absent file text : quiet (write_if_absent file text).
Proof. intros s. unfold write_if_absent. destruct (written s !! file); reflexivity. Qed.

Lemma quiet_index {A} (l : list A) i : quiet (index l i).
Proof. intros s. unfold index. destruct (l !! i); reflexivity. Qed.

Lemma quiet_pop {A} (l : list A) i : quiet (pop l i).
Proof. intros s. unfold pop. destruct (l !! i); reflexivity. Qed.

Lemma quiet_on_files {A} (d : D A) : quiet (on_files d).
Proof.
  intros s. unfold on_files. destruct (d (texts s, written s)) as [r [t w]]. reflexivity.
Qed.

Lemma quiet_np_mean rows : quiet (np_mean rows).
Proof.
  intros s. unfold np_mean.
  destruct (mapM (mapM to_Q) rows); [|reflexivity].
  destruct (np_mean_Q l); reflexivity.
Qed.

Lemma quiet_list_of_ndarray a : quiet (list_of_ndarray a).
Proof. intros s. destruct a; reflexivity. Qed.

Lemma quiet_read_csv_sbu : quiet read_csv_sbu.
Proof. intros s. reflexivity. Qed.
Lemma quiet_read_csv_linker : quiet read_csv_linker.
Proof. intros s. reflexivity. Qed.
Lemma quiet_read_csv_lc : quiet read_csv_lc.
Proof. intros s. reflexivity. Qed.

Lemma quiet_failure_response msg : quiet (failure_response msg).
Proof. intros s. reflexivity. Qed.

Create HintDb quiet.
#[export] Hint Resolve quiet_ret quiet_raise quiet_lift quiet_write2file quiet_write_file
  quiet_write_if_absent quiet_index quiet_pop quiet_on_files quiet_np_mean
  quiet_list_of_ndarray quiet_read_csv_sbu quiet_read_csv_linker quiet_read_csv_lc
  quiet_failure_response : quiet.

(** Goes through binds, loops, branches and let-bound pairs. *)
Ltac quiet_step :=
  match goal with
  | |- quiet (bind _ _) => apply quiet_bind; [|intros ?]
  | |- quiet (forM _ _ _) => apply quiet_forM; intros ? ?
  | |- quiet (try_except _ _) => apply quiet_try_except
  | |- quiet (if ?b then _ else _) => destruct b
  | |- quiet (match ?x with (_, _) => _ end) => destruct x
  | |- quiet (let '(_, _) := ?x in _) => destruct x
  | |- quiet _ => solve [auto with quiet]
  end.

Section QuietParts.
Context `{Elements, PBC, Kernels, Diagnostics}.

Lemma quiet_merge_ligand st templist ii : quiet (merge_ligand st templist ii).
Proof. unfold merge_ligand. repeat quiet_step. Qed.

Lemma quiet_classify_body molcif adj cell_v name initial templist st cand :
  quiet (classify_body molcif adj cell_v name initial templist st cand).
Proof.
  unfold classify_body. destruct cand as [ii atoms_list].
  apply quiet_bind; [auto with quiet | intros sg].
  destruct (linker_length _ _).
  repeat first [apply quiet_merge_ligand | quiet_step].
Qed.

Lemma quiet_reclassify molcif adj cell_v name initial st :
  quiet (reclassify molcif adj cell_v name initial st).
Proof. unfold reclassify. apply quiet_forM. intros. apply quiet_classify_body. Qed.

Lemma quiet_assemble_SBUs molcif adj name allatoms st :
  quiet (assemble_SBUs molcif adj name allatoms st).
Proof. unfold assemble_SBUs. repeat quiet_step. Qed.

Lemma quiet_log_coordination molcif name types metals :
  quiet (log_coordination molcif name types metals).
Proof. unfold log_coordination. repeat quiet_step. Qed.

Lemma quiet_log_empty name out : quiet (log_empty name out).
Proof. unfold log_empty. repeat quiet_step. Qed.

Lemma diagnostics_quiet b1 b2 b3 data molcif adj sbus st :
  quiet (diagnostics b1 b2 b3 data molcif adj sbus st).
Proof. unfold diagnostics. repeat quiet_step. Qed.

End QuietParts.

Lemma quiet_run {A} (m : M A) (s s' : store) (r : result A) :
  quiet m → m s = (r, s') →
  sbu_table s' = sbu_table s ∧ linker_table s' = linker_table s ∧ lc_table s' = lc_table s.
Proof.
  intros Hq E. specialize (Hq s). rewrite E in Hq. unfold tables in Hq. simpl in Hq.
  injection Hq as -> -> ->. auto.
Qed.

Lemma bind_Ok_inv {A B} (m : M A) (f : A → M B) (s s' : store) (b : B) :
  bind m f s = (Ok b, s') → ∃ a s1, m s = (Ok a, s1) ∧ f a s1 = (Ok b, s').
Proof.
  unfold bind. destruct (m s) as [[a|e] s1]; [eauto | discriminate].
Qed.

Section TableFacts.
Context `{PBC, Kernels}.

Lemma quiet_lc_descriptors_of temp_mol link_list depth :
  quiet (lc_descriptors_of temp_mol link_list depth).
Proof.
  unfold lc_descriptors_of. destruct (gen_and_append_desc _ _ _ _ _ _) as [[rd n] d].
  apply quiet_bind; [auto with quiet | intros fa].
  destruct (0 <? length fa).
  - destruct (gen_and_append_desc _ _ _ _ _ _) as [[rd' n'] d']. auto with quiet.
  - destruct (append_descriptors _ _ _ _ _ _). auto with quiet.
Qed.

Lemma quiet_check_typing descriptors : quiet (check_typing descriptors).
Proof. unfold check_typing. destruct (forallb _ _); auto with quiet. Qed.

Lemma quiet_tagged_row name names descs : quiet (tagged_row name names descs).
Proof. unfold tagged_row. repeat quiet_step. Qed.

#[local] Hint Resolve quiet_lc_descriptors_of quiet_check_typing quiet_tagged_row : quiet.

Lemma quiet_lc_body molcif depth name anchoring subs SBU acc jl :
  quiet (lc_body molcif depth name anchoring subs SBU acc jl).
Proof.
  unfold lc_body. destruct jl as [j linker].
  destruct (0 <? _); [|auto with quiet].
  apply quiet_bind; [auto with quiet | intros g].
  apply quiet_bind; [apply quiet_lc_descriptors_of | intros nd].
  apply quiet_bind; [apply quiet_check_typing | intros _].
  apply quiet_bind; [apply quiet_tagged_row | intros [[d n] v]].
  auto with quiet.
Qed.

(** One linker against one SBU adds at most one row to the pending lc
    rows and none to the pending SBU rows. *)
Lemma lc_body_rows molcif depth name anchoring subs SBU acc jl s acc' s' :
  lc_body molcif depth name anchoring subs SBU acc jl s = (Ok acc', s') →
  sbu_descriptors acc' = sbu_descriptors acc
  ∧ lc_descriptors acc `prefix_of` lc_descriptors acc'.
Proof.
  unfold lc_body. destruct jl as [j linker].
  destruct (0 <? _).
  - intros E.
    apply bind_Ok_inv in E as (g & s1 & _ & E).
    apply bind_Ok_inv in E as (nd & s2 & _ & E).
    apply bind_Ok_inv in E as (u & s3 & _ & E).
    apply bind_Ok_inv in E as ([[d n] v] & s4 & _ & E).
    injection E as <- _. simpl. split; [reflexivity | apply prefix_app_r; reflexivity].
  - intros [= <- _]. split; reflexivity.
Qed.

Lemma lc_loop_rows molcif depth name anchoring subs SBU l :
  ∀ acc s acc' s',
  forM l (lc_body molcif depth name anchoring subs SBU) acc s = (Ok acc', s') →
  sbu_descriptors acc' = sbu_descriptors acc
  ∧ lc_descriptors acc `prefix_of` lc_descriptors acc'.
Proof.
  induction l as [|jl l IH]; intros acc s acc' s' E; simpl in E.
  - injection E as <- _. split; reflexivity.
  - apply bind_Ok_inv in E as (acc1 & s1 & E1 & E).
    apply lc_body_rows in E1 as [E1 P1].
    apply IH in E as [E2 P2].
    split; [congruence | etrans; eassumption].
Qed.

(** One SBU: the lc table is rewritten with the pending lc rows, which
    extend it; the SBU table is left for the end. *)
Lemma sbu_body_grows molcif depth name cell_v anchoring gci SBU_subgraph conn conn_subs
    acc iS s r s' :
  lc_table s `prefix_of` lc_descriptors acc →
  sbu_body molcif depth name cell_v anchoring gci SBU_subgraph conn conn_subs acc iS s
  = (r, s') →
  sbu_table s' = sbu_table s ∧ linker_table s' = linker_table s
  ∧ lc_table s `prefix_of` lc_table s'
  ∧ ∀ acc', r = Ok acc' →
      sbu_descriptors acc `prefix_of` sbu_descriptors acc'
      ∧ lc_table s' `prefix_of` lc_descriptors acc'.
Proof.
  intros Hpre E. unfold sbu_body in E. destruct iS as [i SBU].
  unfold bind at 1 in E.
  destruct (index SBU_subgraph i s) as [[g|e] s1] eqn:E1.
  2:{ apply quiet_run in E1 as (T1 & T2 & T3); [|auto with quiet].
      injection E as <- <-. rewrite T1, T2, T3.
      split_and!; try reflexivity; discriminate. }
  apply quiet_run in E1 as (T1 & T2 & T3); [|auto with quiet].
  unfold bind at 1 in E.
  destruct (forM (enumerate conn) _ acc s1) as [[acc1|e] s2] eqn:E2.
  2:{ apply quiet_run in E2 as (U1 & U2 & U3);
        [|apply quiet_forM; intros; apply quiet_lc_body].
      injection E as <- <-. rewrite U1, U2, U3, T1, T2, T3.
      split_and!; try reflexivity; discriminate. }
  pose proof E2 as E2'.
  apply quiet_run in E2' as (U1 & U2 & U3); [|apply quiet_forM; intros; apply quiet_lc_body].
  apply lc_loop_rows in E2 as [A1 A2].
  unfold bind at 1 in E.
  destruct (np_mean (lc_descriptor_list acc1) s2) as [[avg|e] s3] eqn:E3.
  2:{ apply quiet_run in E3 as (V1 & V2 & V3); [|auto with quiet].
      injection E as <- <-. rewrite V1, V2, V3, U1, U2, U3, T1, T2, T3.
      split_and!; try reflexivity; discriminate. }
  apply quiet_run in E3 as (V1 & V2 & V3); [|auto with quiet].
  unfold bind at 1 in E. unfold to_csv_lc at 1 in E.
  pose proof E as E'.
  apply quiet_run in E' as (W1 & W2 & W3).
  2:{ repeat quiet_step. }
  simpl in W1, W2, W3.
  rewrite W1, W2, W3, V1, V2, U1, U2, T1, T2.
  split_and!; try reflexivity.
  { etrans; [exact Hpre | exact A2]. }
  intros acc' ->.
  apply bind_Ok_inv in E as (u1 & s5 & _ & E).
  apply bind_Ok_inv in E as (u2 & s6 & _ & E).
  destruct (sbu_descriptors_of _ _ _) as [n v].
  apply bind_Ok_inv in E as ([[d n'] v'] & s7 & _ & E).
  injection E as <- _. simpl.
  split; [rewrite A1; apply prefix_app_r; reflexivity | reflexivity].
Qed.

End TableFacts.

Lemma quiet_grows {A} (m : M A) : quiet m → grows m.
Proof. intros Hq s. apply quiet_extends, Hq. Qed.

Lemma grows_bind {A B} (m : M A) (f : A → M B) :
  grows m → (∀ a, grows (f a)) → grows (bind m f).
Proof.
  intros Hm Hf s. unfold bind. specialize (Hm s).
  destruct (m s) as [[a|e] s1]; simpl in *; [|exact Hm].
  eapply extends_trans; [exact Hm | apply Hf].
Qed.

Section TableGrowth.
Context `{Elements, PBC, Kernels, Diagnostics}.

Lemma sbu_loop_grows molcif depth name cell_v anchoring gci SBU_subgraph conn conn_subs l :
  ∀ acc s r s',
  lc_table s `prefix_of` lc_descriptors acc →
  forM l (sbu_body molcif depth name cell_v anchoring gci SBU_subgraph conn conn_subs) acc s
  = (r, s') →
  sbu_table s' = sbu_table s ∧ linker_table s' = linker_table s
  ∧ lc_table s `prefix_of` lc_table s'
  ∧ ∀ acc', r = Ok acc' →
      sbu_descriptors acc `prefix_of` sbu_descriptors acc'
      ∧ lc_table s' `prefix_of` lc_descriptors acc'.
Proof.
  induction l as [|iS l IH]; intros acc s r s' Hpre E; simpl in E.
  - injection E as <- <-. split_and!; try reflexivity.
    intros acc' [= <-]. split; [reflexivity | exact Hpre].
  - unfold bind at 1 in E.
    destruct (sbu_body _ _ _ _ _ _ _ _ _ acc iS s) as [[acc1|e] s1] eqn:E1;
      apply sbu_body_grows in E1 as (T1 & T2 & T3 & T4); try exact Hpre.
    + destruct (T4 acc1 eq_refl) as [P1 P2].
      apply IH in E as (U1 & U2 & U3 & U4); [|exact P2].
      rewrite U1, U2, T1, T2. split_and!; try reflexivity.
      * etrans; eassumption.
      * intros acc' Hr. destruct (U4 acc' Hr) as [Q1 Q2].
        split; [etrans; eassumption | exact Q2].
    + injection E as <- <-. split_and!; assumption.
Qed.

Lemma make_MOF_SBU_RACs_grows SBUlist SBU_subgraph molcif depth name cell_v anchoring
    superlist conn conn_subs :
  grows (make_MOF_SBU_RACs SBUlist SBU_subgraph molcif depth name cell_v anchoring
                           superlist conn conn_subs).
Proof.
  intros s. unfold make_MOF_SBU_RACs.
  unfold bind at 1. unfold read_csv_sbu at 1.
  unfold bind at 1. unfold read_csv_lc at 1.
  unfold bind at 1.
  match goal with
  | |- context [forM ?l ?b ?a s] => destruct (forM l b a s) as [[acc|e] s1] eqn:E1
  end; apply sbu_loop_grows in E1 as (T1 & T2 & T3 & T4); try reflexivity.
  - destruct (T4 acc eq_refl) as [P1 P2]. simpl in P1.
    unfold bind at 1. unfold to_csv_sbu at 1.
    match goal with
    | |- extends s (?m ?s0).2 =>
        assert (Hq : quiet m); [|pose proof (Hq s0) as Hs; unfold tables in Hs]
    end.
    { apply quiet_bind; [auto with quiet | intros avg].
      destruct (averaged_lc_descriptors acc); auto with quiet. }
    injection Hs as F1 F2 F3.
    unfold extends. rewrite F1, F2, F3. simpl. rewrite T2.
    split_and!; [exact P1 | reflexivity | exact T3].
  - simpl. unfold extends. rewrite T1, T2. split_and!; [reflexivity | reflexivity | exact T3].
Qed.

Lemma quiet_linker_body molcif depth name cell_v gci subs acc il :
  quiet (linker_body molcif depth name cell_v gci subs acc il).
Proof.
  unfold linker_body. destruct acc as [[df dl] cn], il as [i linker].
  apply quiet_bind; [auto with quiet | intros g].
  apply quiet_bind; [auto with quiet | intros _].
  apply quiet_bind; [auto with quiet | intros _].
  destruct (linker_descriptors_of _ _) as [n v].
  apply quiet_bind; [apply quiet_tagged_row | intros [[d n'] v']].
  auto with quiet.
Qed.

Lemma linker_loop_rows molcif depth name cell_v gci subs l :
  ∀ acc s acc' s',
  forM l (linker_body molcif depth name cell_v gci subs) acc s = (Ok acc', s') →
  acc.1.1 `prefix_of` acc'.1.1.
Proof.
  induction l as [|il l IH]; intros acc s acc' s' E; simpl in E.
  - injection E as <- _. reflexivity.
  - apply bind_Ok_inv in E as (acc1 & s1 & E1 & E).
    apply IH in E. etrans; [|exact E].
    unfold linker_body in E1. destruct acc as [[df dl] cn], il as [i linker].
    apply bind_Ok_inv in E1 as (g & s2 & _ & E1).
    apply bind_Ok_inv in E1 as (u1 & s3 & _ & E1).
    apply bind_Ok_inv in E1 as (u2 & s4 & _ & E1).
    destruct (linker_descriptors_of _ _) as [n v].
    apply bind_Ok_inv in E1 as ([[d n'] v'] & s5 & _ & E1).
    injection E1 as <- _. simpl. apply prefix_app_r. reflexivity.
Qed.

Lemma make_MOF_linker_RACs_grows linkerlist subs molcif depth name cell_v superlist :
  grows (make_MOF_linker_RACs linkerlist subs molcif depth name cell_v superlist).
Proof.
  intros s. unfold make_MOF_linker_RACs.
  unfold bind at 1. unfold read_csv_linker at 1.
  unfold bind at 1.
  match goal with
  | |- context [forM ?l ?b ?a s] => destruct (forM l b a s) as [[acc|e] s1] eqn:E1
  end.
  - pose proof E1 as E1'.
    apply quiet_run in E1' as (T1 & T2 & T3); [|apply quiet_forM; intros; apply quiet_linker_body].
    apply linker_loop_rows in E1. simpl in E1.
    destruct acc as [[df dl] cn]. simpl in E1.
    unfold bind at 1. unfold to_csv_linker at 1.
    match goal with
    | |- extends s (?m ?s0).2 =>
        assert (Hq : quiet m); [|pose proof (Hq s0) as Hs; unfold tables in Hs]
    end.
    { apply quiet_bind; [auto with quiet | intros avg]. destruct cn; auto with quiet. }
    injection Hs as F1 F2 F3.
    unfold extends. rewrite F1, F2, F3. simpl. rewrite T1, T3.
    split_and!; [reflexivity | exact E1 | reflexivity].
  - apply quiet_run in E1 as (T1 & T2 & T3); [|apply quiet_forM; intros; apply quiet_linker_body].
    simpl. unfold extends. rewrite T1, T2, T3. split_and!; reflexivity.
Qed.

Lemma featurize_grows depth name cell_v molcif anc connections sbus st :
  grows (featurize depth name cell_v molcif anc connections sbus st).
Proof.
  unfold featurize. destruct (1 <=? _).
  - apply grows_bind; [apply make_MOF_SBU_RACs_grows | intros [[[n1 d1] n2] d2]].
    apply grows_bind; [apply make_MOF_linker_RACs_grows | intros [n3 d3]].
    apply quiet_grows. repeat quiet_step.
  - apply quiet_grows. repeat quiet_step.
Qed.

Lemma partition_and_featurize_grows data depth molcif adj b1 b2 b3 :
  grows (partition_and_featurize data depth molcif adj b1 b2 b3).
Proof.
  unfold partition_and_featurize.
  apply grows_bind; [apply quiet_grows, quiet_log_coordination | intros _].
  apply grows_bind; [apply quiet_grows, quiet_reclassify | intros st].
  apply grows_bind; [apply quiet_grows, quiet_assemble_SBUs | intros sbus].
  apply grows_bind; [apply featurize_grows | intros out].
  apply grows_bind; [apply quiet_grows, quiet_log_empty | intros _].
  apply grows_bind; [apply quiet_grows, diagnostics_quiet | intros _].
  apply quiet_grows, quiet_ret.
Qed.

Lemma get_MOF_descriptors_grows data depth path xyzpath graph_provided wiggle max b1 b2 b3 :
  grows (get_MOF_descriptors data depth path xyzpath graph_provided wiggle max b1 b2 b3).
Proof.
  unfold get_MOF_descriptors.
  destruct (negb _); [apply quiet_grows, quiet_raise|].
  destruct (max <? _); [apply quiet_grows, quiet_failure_response|].
  match goal with |- grows (match ?x with _ => _ end) => destruct x as [adj|[]] end;
    try solve [apply quiet_grows; auto with quiet].
  unfold validate_and_run.
  apply grows_bind; [apply quiet_grows, quiet_write_file | intros _].
  destruct (connected_components adj) as [n labels].
  destruct (negb _); [apply quiet_grows, quiet_failure_response|].
  destruct (existsb _ _); [apply quiet_grows, quiet_failure_response|].
  apply grows_bind; [apply quiet_grows; repeat quiet_step | intros _].
  apply partition_and_featurize_grows.
Qed.


End TableGrowth.

(** Two runs in the same directory: the rows of the first are still there. *)
Example two_runs_accumulate :
  let s1 := (run quiet_diagnostics bridge_cif (Some "out") false false false).2 in
  let s2 := (run_in toy_kernels quiet_diagnostics hbridge_cif (Some "out") 2000
                    false false false s1).2 in
  (length (sbu_table s1), length (linker_table s1), length (lc_table s1)) = (2, 1, 2)
  ∧ (length (sbu_table s2), length (linker_table s2), length (lc_table s2)) = (4, 3, 4)
  ∧ map (λ r : row, r !! "name") (linker_table s2)
    = [Some (PyStr "bridge"); Some (PyStr "hbridge"); Some (PyStr "hbridge")].
Proof.
  cbv zeta. split; [|split]; vm_compute; reflexivity.
Qed.

(** ** Terminal conditions *)

Section Terminal.
Context `{Elements, PBC, Kernels, Diagnostics}.

Lemma failure_response_spec msg s :
  failure_response msg s
  = (Ok ([PyInt 0], [PyInt 0]),
     {| texts := <["/FailedStructures.log" :=
                   default [] (texts s !! "/FailedStructures.log") ++ [msg]]> (texts s);
        sbu_table := sbu_table s; linker_table := linker_table s;
        lc_table := lc_table s; written := written s |}).
Proof. reflexivity. Qed.


(** Without linkers the sentinel pair is returned and the failure is logged. *)
Lemma no_linker_gives_sentinel depth name cell_v molcif anc connections sbus st s :
  linker_subgraphlist st = [] →
  bind (featurize depth name cell_v molcif anc connections sbus st)
       (λ out, log_empty name out >> ret out) s
  = (Ok ([PyInt 0], [PyInt 0]),
     (write2file "/FailedStructures.log"
        ("Failed to featurize " +:+ name +:+ ": Only zero or one total linkers identified."
           +:+ nl) s).2).
Proof. intros E. unfold featurize. rewrite E. reflexivity. Qed.

(** The pair ([1], [1]) of line 1185 is never returned: its branch is
    shadowed by the test of line 1173. *)
Lemma suspicious_branch_is_dead depth name cell_v molcif anc connections sbus st s s' :
  featurize depth name cell_v molcif anc connections sbus st s
  ≠ (Ok ([PyInt 1], [PyInt 1]), s').
Proof.
  unfold featurize. destruct (1 <=? length (linker_subgraphlist st)) eqn:E.
  - intros E1.
    apply bind_Ok_inv in E1 as ([[[n1 d1] n2] d2] & s1 & _ & E1).
    apply bind_Ok_inv in E1 as ([n3 d3] & s2 & _ & E1).
    apply bind_Ok_inv in E1 as (v1 & s3 & _ & E1).
    apply bind_Ok_inv in E1 as (v2 & s4 & _ & E1).
    apply bind_Ok_inv in E1 as (v3 & s5 & _ & E1).
    injection E1 as E1 _.
    destruct (n1 ++ n3 ++ n2); simpl in E1; discriminate.
  - destruct (length (linker_subgraphlist st) =? 1) eqn:E1.
    + apply Nat.eqb_eq in E1. rewrite E1 in E. discriminate.
    + discriminate.
Qed.

(** A failure of the surrounded-SBU export is caught and logged. *)
Lemma surrounded_failure_is_caught data molcif adj sbus st s :
  (diagnostics false true false data molcif adj sbus st s).1 = Ok tt.
Proof.
  unfold diagnostics, bind, try_except, ret, on_files. simpl.
  destruct (surrounded_sbu_gen _ _ _ _ _ _ _ _) as [[[]|e] [t w]]; reflexivity.
Qed.

(** A failure of the bond-length diagnostic is not. *)
Lemma bond_info_failure_propagates b2 b3 data molcif adj sbus st s e f :
  bond_information_write (linker_list st) (linkeranchors_superlist st) adj molcif
                         (cell_of data) (texts s, written s) = (Raise e, f) →
  (diagnostics true b2 b3 data molcif adj sbus st s).1 = Raise e.
Proof.
  intros E. unfold diagnostics, bind, on_files. simpl. rewrite E.
  destruct f. reflexivity.
Qed.

(** Neither is a failure of the rod detection. *)
Lemma rod_failure_propagates data molcif adj sbus st s e f :
  detect_1D_rod sbus.1 molcif (allatomtypes data) (cell_of data) (cif_name data)
                (texts s, written s) = (Raise e, f) →
  (diagnostics false false true data molcif adj sbus st s).1 = Raise e.
Proof.
  intros E. unfold diagnostics, bind, on_files, ret. simpl. rewrite E.
  destruct f. reflexivity.
Qed.

End Terminal.


(** The typing check of lines 261-264 raises to the caller. *)
Example mixed_typing_raises :
  (run_in int_kernels quiet_diagnostics bridge_cif (Some "out") 2000 false false false
          empty_store).1
  = Raise (AssertionError "Mixed typing creates issues. Please convert your typing.").
Proof. vm_compute. reflexivity. Qed.

(** ** The seed removal set, as computed *)

Lemma foldl_elem_of {B} (G : gset nat → B → gset nat) (Q : B → nat → Prop) :
  (∀ r a x, x ∈ G r a ↔ x ∈ r ∨ Q a x) →
  ∀ l r0 x, x ∈ foldl G r0 l ↔ x ∈ r0 ∨ ∃ a, a ∈ l ∧ Q a x.
Proof.
  intros HG. induction l as [|b l IH]; intros r0 x; simpl.
  - split; [auto | intros [Hx | (a & Ha & _)]; [exact Hx | inversion Ha]].
  - rewrite IH, HG. split.
    + intros [[Hx | Hq] | (a & Ha & Hq)]; [auto | right; exists b; split; [left | exact Hq] |].
      right. exists a. split; [right; exact Ha | exact Hq].
    + intros [Hx | (a & Ha & Hq)]; [auto|].
      apply elem_of_cons in Ha as [-> | Ha]; [auto | right; eauto].
Qed.

Section SeedFacts.
Context `{Elements}.

Lemma elem_of_SBUlist_seed (m : mol3D) (x : nat) :
  x ∈ SBUlist_seed m ↔
  x ∈ findMetal m ∨ ∃ metal, metal ∈ findMetal m ∧ x ∈ getBondedAtomsSmart m metal.
Proof.
  unfold SBUlist_seed.
  rewrite (foldl_elem_of _ (λ metal y, y ∈ getBondedAtomsSmart m metal)).
  - rewrite elem_of_list_to_set. reflexivity.
  - intros r a y. rewrite elem_of_union, elem_of_list_to_set. reflexivity.
Qed.

(** X2.  What lines 1001-1017 put in the removal set: the metals, the atoms
    of SBUlist whose neighbours are all metal or hydrogen, and every
    hydrogen bonded to an atom of SBUlist; nothing else. *)
Lemma elem_of_removelist_seed (m : mol3D) (x : nat) :
  x ∈ removelist_seed m ↔
  x ∈ findMetal m
  ∨ (x ∈ SBUlist_seed m ∧ only_metal_or_H m x = true)
  ∨ (is_H (getAtom m x) = true
     ∧ ∃ atom, atom ∈ SBUlist_seed m ∧ x ∈ getBondedAtomsSmart m atom).
Proof.
  unfold removelist_seed.
  rewrite (foldl_elem_of _ (λ atom y, y ∈ getBondedAtomsSmart m atom
                                       ∧ is_H (getAtom m y) = true)).
  - rewrite (foldl_elem_of _ (λ atom y, y = atom ∧ only_metal_or_H m atom = true)).
    + rewrite elem_of_list_to_set. split.
      * intros [[Hx | (a & Ha & -> & Hp)] | (a & Ha & Hb & Hh)].
        -- auto.
        -- right. left. split; [apply elem_of_elements, Ha | exact Hp].
        -- right. right. split; [exact Hh|]. exists a.
           split; [apply elem_of_elements, Ha | exact Hb].
      * intros [Hx | [[Hs Hp] | (Hh & a & Ha & Hb)]].
        -- auto.
        -- left. right. exists x. split; [apply elem_of_elements, Hs | auto].
        -- right. exists a. split; [apply elem_of_elements, Ha | auto].
    + intros r a y. destruct (only_metal_or_H m a).
      * rewrite elem_of_union, elem_of_singleton. split; [intros [?|?] | intros [?|[? _]]]; auto.
      * split; [auto | intros [? | [_ ?]]; [assumption | discriminate]].
  - intros r a y.
    rewrite (foldl_elem_of _ (λ val z, z = val ∧ is_H (getAtom m val) = true)).
    + split.
      * intros [Hy | (v & Hv & -> & Hh)]; auto.
      * intros [Hy | [Hb Hh]]; [auto | right; exists y; auto].
    + intros r' v z. destruct (is_H (getAtom m v)).
      * rewrite elem_of_union, elem_of_singleton. split; [intros [?|?] | intros [?|[? _]]]; auto.
      * split; [auto | intros [? | [_ ?]]; [assumption | discriminate]].
Qed.

End SeedFacts.

(** ** One new row per substructure *)

Section RowCounts.
Context `{PBC, Kernels}.

Lemma sbu_body_one_row molcif depth name cell_v anchoring gci SBU_subgraph conn conn_subs
    acc iS s acc' s' :
  sbu_body molcif depth name cell_v anchoring gci SBU_subgraph conn conn_subs acc iS s
  = (Ok acc', s') →
  ∃ d, sbu_descriptors acc' = sbu_descriptors acc ++ [d].
Proof.
  unfold sbu_body. destruct iS as [i SBU]. intros E.
  apply bind_Ok_inv in E as (g & s1 & _ & E).
  apply bind_Ok_inv in E as (acc1 & s2 & E1 & E).
  apply lc_loop_rows in E1 as [A1 _].
  apply bind_Ok_inv in E as (avg & s3 & _ & E).
  apply bind_Ok_inv in E as (u0 & s4 & _ & E).
  apply bind_Ok_inv in E as (u1 & s5 & _ & E).
  apply bind_Ok_inv in E as (u2 & s6 & _ & E).
  destruct (sbu_descriptors_of _ _ _) as [n v].
  apply bind_Ok_inv in E as ([[d n'] v'] & s7 & _ & E).
  injection E as <- _. simpl. rewrite A1. eauto.
Qed.

Lemma sbu_loop_row_count molcif depth name cell_v anchoring gci SBU_subgraph conn conn_subs l :
  ∀ acc s acc' s',
  forM l (sbu_body molcif depth name cell_v anchoring gci SBU_subgraph conn conn_subs) acc s
  = (Ok acc', s') →
  ∃ new, sbu_descriptors acc' = sbu_descriptors acc ++ new ∧ length new = length l.
Proof.
  induction l as [|iS l IH]; intros acc s acc' s' E; simpl in E.
  - injection E as <- _. exists []. rewrite app_nil_r. auto.
  - apply bind_Ok_inv in E as (acc1 & s1 & E1 & E).
    apply sbu_body_one_row in E1 as [d Hd].
    apply IH in E as (new & Hnew & Hlen).
    exists (d :: new). rewrite Hnew, Hd, <- app_assoc. simpl. auto.
Qed.

(** X8.  A call of [make_MOF_SBU_RACs] that returns leaves the SBU table
    with its earlier rows followed by one new row per SBU. *)
Lemma make_MOF_SBU_RACs_rows SBUlist SBU_subgraph molcif depth name cell_v anchoring
    superlist conn conn_subs s r s' :
  make_MOF_SBU_RACs SBUlist SBU_subgraph molcif depth name cell_v anchoring superlist
                    conn conn_subs s = (Ok r, s') →
  ∃ new, sbu_table s' = sbu_table s ++ new ∧ length new = length SBUlist.
Proof.
  unfold make_MOF_SBU_RACs. intros E.
  apply bind_Ok_inv in E as (df & s1 & E1 & E). injection E1 as <- <-.
  apply bind_Ok_inv in E as (lc & s1 & E1 & E). injection E1 as <- <-.
  apply bind_Ok_inv in E as (acc & s1 & E1 & E).
  apply sbu_loop_row_count in E1 as (new & Hnew & Hlen). simpl in Hnew.
  apply bind_Ok_inv in E as (u & s2 & E2 & E). injection E2 as _ <-.
  apply quiet_run in E as (T1 & _ & _).
  2:{ apply quiet_bind; [auto with quiet | intros avg].
      destruct (averaged_lc_descriptors acc); auto with quiet. }
  exists new. rewrite T1. simpl. unfold enumerate in Hlen. rewrite length_imap in Hlen. auto.
Qed.

Lemma linker_loop_row_count molcif depth name cell_v gci subs l :
  ∀ acc s acc' s',
  forM l (linker_body molcif depth name cell_v gci subs) acc s = (Ok acc', s') →
  ∃ new, acc'.1.1 = acc.1.1 ++ new ∧ length new = length l.
Proof.
  induction l as [|il l IH]; intros acc s acc' s' E; simpl in E.
  - injection E as <- _. exists []. rewrite app_nil_r. auto.
  - apply bind_Ok_inv in E as (acc1 & s1 & E1 & E).
    apply IH in E as (new & Hnew & Hlen).
    unfold linker_body in E1. destruct acc as [[df dl] cn], il as [i linker].
    apply bind_Ok_inv in E1 as (g & s2 & _ & E1).
    apply bind_Ok_inv in E1 as (u1 & s3 & _ & E1).
    apply bind_Ok_inv in E1 as (u2 & s4 & _ & E1).
    destruct (linker_descriptors_of _ _) as [n v].
    apply bind_Ok_inv in E1 as ([[d n'] v'] & s5 & _ & E1).
    injection E1 as <- _. simpl in *.
    exists (d :: new). rewrite Hnew, <- app_assoc. simpl. auto.
Qed.

(** X9.  A call of [make_MOF_linker_RACs] that returns leaves the linker
    table with its earlier rows followed by one new row per linker. *)
Lemma make_MOF_linker_RACs_rows linkerlist subs molcif depth name cell_v superlist s r s' :
  make_MOF_linker_RACs linkerlist subs molcif depth name cell_v superlist s = (Ok r, s') →
  ∃ new, linker_table s' = linker_table s ++ new ∧ length new = length linkerlist.
Proof.
  unfold make_MOF_linker_RACs. intros E.
  apply bind_Ok_inv in E as (df & s1 & E1 & E). injection E1 as <- <-.
  apply bind_Ok_inv in E as ([[df' dl] cn] & s1 & E1 & E).
  apply linker_loop_row_count in E1 as (new & Hnew & Hlen). simpl in Hnew.
  apply bind_Ok_inv in E as (u & s2 & E2 & E). injection E2 as _ <-.
  apply quiet_run in E as (_ & T2 & _).
  2:{ apply quiet_bind; [auto with quiet | intros avg]. destruct cn; auto with quiet. }
  exists new. rewrite T2. simpl. unfold enumerate in Hlen. rewrite length_imap in Hlen. auto.
Qed.

End RowCounts.

(** ** The names of the lc features *)

Section LcNames.
Context `{PBC, Kernels}.

Lemma lc_body_names_unset molcif depth name anchoring subs SBU acc j linker s acc' s' :
  lc_names acc = [] →
  (j = 0 → (list_to_set SBU : gset nat) ∩ list_to_set linker = ∅) →
  lc_body molcif depth name anchoring subs SBU acc (j, linker) s = (Ok acc', s') →
  lc_names acc' = [].
Proof.
  intros Hnil Hfirst. unfold lc_body.
  destruct (0 <? size ((list_to_set SBU : gset nat) ∩ list_to_set linker)) eqn:Etouch.
  - intros E.
    apply bind_Ok_inv in E as (g & s1 & _ & E).
    apply bind_Ok_inv in E as (nd & s2 & _ & E).
    apply bind_Ok_inv in E as (u & s3 & _ & E).
    apply bind_Ok_inv in E as ([[d n] v] & s4 & _ & E).
    injection E as <- _. simpl.
    destruct (j =? 0) eqn:Ej; [|exact Hnil].
    apply Nat.eqb_eq in Ej. rewrite (Hfirst Ej), size_empty in Etouch. discriminate.
  - intros [= <- _]. exact Hnil.
Qed.

Lemma lc_loop_names_unset molcif depth name anchoring subs SBU conn l :
  misses_first conn SBU →
  (∀ jl, jl ∈ l → jl ∈ enumerate conn) →
  ∀ acc s acc' s',
  lc_names acc = [] →
  forM l (lc_body molcif depth name anchoring subs SBU) acc s = (Ok acc', s') →
  lc_names acc' = [].
Proof.
  intros Hmiss. induction l as [|[j linker] l IH]; intros Hin acc s acc' s' Hnil E; simpl in E.
  - injection E as <- _. exact Hnil.
  - apply bind_Ok_inv in E as (acc1 & s1 & E1 & E).
    apply lc_body_names_unset in E1; [|exact Hnil|].
    + eapply IH; [|exact E1|exact E]. intros jl Hjl. apply Hin. right. exact Hjl.
    + intros ->. apply Hmiss, enumerate_lookup, Hin. left.
Qed.

Lemma sbu_loop_names_unset molcif depth name cell_v anchoring gci SBU_subgraph conn conn_subs l :
  (∀ i SBU, (i, SBU) ∈ l → misses_first conn SBU) →
  ∀ acc s acc' s',
  lc_names acc = [] →
  forM l (sbu_body molcif depth name cell_v anchoring gci SBU_subgraph conn conn_subs) acc s
  = (Ok acc', s') →
  lc_names acc' = [].
Proof.
  induction l as [|[i SBU] l IH]; intros Hmiss acc s acc' s' Hnil E; simpl in E.
  - injection E as <- _. exact Hnil.
  - apply bind_Ok_inv in E as (acc1 & s1 & E1 & E).
    eapply IH; [|clear E|exact E].
    { intros k S Hk. apply (Hmiss k). right. exact Hk. }
    unfold sbu_body in E1.
    apply bind_Ok_inv in E1 as (g & s2 & _ & E1).
    apply bind_Ok_inv in E1 as (acc2 & s3 & E2 & E1).
    apply lc_loop_names_unset with (conn := conn) in E2;
      [| apply (Hmiss i); left | auto | exact Hnil].
    apply bind_Ok_inv in E1 as (avg & s4 & _ & E1).
    apply bind_Ok_inv in E1 as (u0 & s5 & _ & E1).
    apply bind_Ok_inv in E1 as (u1 & s6 & _ & E1).
    apply bind_Ok_inv in E1 as (u2 & s7 & _ & E1).
    try destruct (sbu_descriptors_of _ _ _) as [n v].
    apply bind_Ok_inv in E1 as ([[d n'] v'] & s8 & _ & E1).
    injection E1 as <- _. exact E2.
Qed.

(** When no SBU shares an atom with the first linker of [connections_list],
    [make_MOF_SBU_RACs] returns no lc names, whatever lc values it averages. *)
Lemma lc_names_need_the_first_linker SBUlist SBU_subgraph molcif depth name cell_v anchoring
    superlist conn conn_subs s names avg lcn avg_lc s' :
  (∀ SBU, SBU ∈ SBUlist → misses_first conn SBU) →
  make_MOF_SBU_RACs SBUlist SBU_subgraph molcif depth name cell_v anchoring superlist
                    conn conn_subs s = (Ok (names, avg, lcn, avg_lc), s') →
  lcn = [].
Proof.
  intros Hmiss. unfold make_MOF_SBU_RACs. intros E.
  apply bind_Ok_inv in E as (df & s1 & _ & E).
  apply bind_Ok_inv in E as (lc & s2 & _ & E).
  apply bind_Ok_inv in E as (acc & s3 & E1 & E).
  apply sbu_loop_names_unset in E1; [| |reflexivity].
  2:{ intros i SBU Hi. apply Hmiss. apply enumerate_lookup in Hi.
      eapply list_elem_of_lookup_2, Hi. }
  apply bind_Ok_inv in E as (u & s4 & _ & E).
  apply bind_Ok_inv in E as (a & s5 & _ & E).
  destruct (averaged_lc_descriptors acc); [|discriminate].
  injection E as _ _ <- _ _. exact E1.
Qed.

End LcNames.

(** * Further properties of the code *)

(** ** The bond graph read from bond records (lines 950-953) *)

Lemma bond_fold_max (bonds : list (nat * nat)) :
  ∀ m0 a b, (a, b) ∈ bonds →
    a ≤ foldl (λ m '(a, b), Nat.max b (Nat.max a m)) m0 bonds
    ∧ b ≤ foldl (λ m '(a, b), Nat.max b (Nat.max a m)) m0 bonds.
Proof.
  assert (Hmono : ∀ l m0, m0 ≤ foldl (λ m '(a, b), Nat.max b (Nat.max a m)) m0 l).
  { induction l as [|[c d] l IH]; intros m0; simpl; [lia|].
    etrans; [|apply IH]. lia. }
  induction bonds as [|[c d] bonds IH]; intros m0 a b Hin; [inversion Hin|].
  simpl. apply elem_of_cons in Hin as [[= -> ->] | Hin]; [|apply IH, Hin].
  pose proof (Hmono bonds (Nat.max d (Nat.max c m0))). lia.
Qed.

Lemma adj_of_bonds_entry (bonds : list (nat * nat)) (i j : nat) :
  entry (adj_of_bonds bonds) i j = true ↔ (i, j) ∈ bonds ∨ (j, i) ∈ bonds.
Proof.
  simpl. rewrite existsb_exists. split.
  - intros ([a b] & Hin & Hab). apply list_elem_of_In in Hin.
    apply orb_true_iff in Hab as [Hab | Hab];
      apply andb_true_iff in Hab as [E1 E2];
      apply Nat.eqb_eq in E1, E2; subst; auto.
  - intros [Hin | Hin]; [exists (i, j) | exists (j, i)];
      (split; [apply list_elem_of_In, Hin|]); rewrite !Nat.eqb_refl; simpl;
      [reflexivity | apply orb_true_r].
Qed.

Lemma elem_of_bonded_row (bonds : list (nat * nat)) (a b : nat) :
  b ∈ nonzero_row (adj_of_bonds bonds) a ↔ (a, b) ∈ bonds ∨ (b, a) ∈ bonds.
Proof.
  unfold nonzero_row.
  rewrite list_elem_of_In, filter_In, <- list_elem_of_In, elem_of_seq, adj_of_bonds_entry.
  split; [intros [_ Hin]; exact Hin | intros Hin; split; [|exact Hin]].
  cbn [shape0 adj_of_bonds].
  destruct Hin as [Hin | Hin]; apply bond_fold_max with (m0 := 0) in Hin; lia.
Qed.

(** X1.  In the graph built from the bond records of the file, atom [j] is
    listed as bonded to atom [i] exactly when the file has a record for the
    pair in either order; bonding is therefore symmetric, and the matrix is
    large enough for every recorded index. *)
Theorem bond_records_give_a_symmetric_graph (bonds : list (nat * nat)) (i j : nat) :
  (j ∈ nonzero_row (adj_of_bonds bonds) i ↔ (i, j) ∈ bonds ∨ (j, i) ∈ bonds)
  ∧ (j ∈ nonzero_row (adj_of_bonds bonds) i ↔ i ∈ nonzero_row (adj_of_bonds bonds) j).
Proof. split; [apply elem_of_bonded_row|]. rewrite !elem_of_bonded_row. tauto. Qed.

(** ** Anchors (lines 1038-1043 and 1059-1076) *)

Lemma foldl_proj_elem_of {S B} (π : S → gset nat) (G : S → B → S) (Q : B → nat → Prop) :
  (∀ r a x, x ∈ π (G r a) ↔ x ∈ π r ∨ Q a x) →
  ∀ l r0 x, x ∈ π (foldl G r0 l) ↔ x ∈ π r0 ∨ ∃ a, a ∈ l ∧ Q a x.
Proof.
  intros HG. induction l as [|b l IH]; intros r0 x; simpl.
  - split; [auto | intros [Hx | (a & Ha & _)]; [exact Hx | inversion Ha]].
  - rewrite IH, HG. split.
    + intros [[Hx | Hq] | (a & Ha & Hq)]; [auto | right; exists b; split; [left | exact Hq] |].
      right. exists a. split; [right; exact Ha | exact Hq].
    + intros [Hx | (a & Ha & Hq)]; [auto|].
      apply elem_of_cons in Ha as [-> | Ha]; [auto | right; eauto].
Qed.

Lemma elem_of_anchoring_atoms (adj : adj_matrix) (metal_list : gset nat)
    (cands : list (list nat)) (x : nat) :
  x ∈ anchoring_atoms adj metal_list cands ↔
  ∃ linker, linker ∈ cands ∧ x ∈ linker
            ∧ ∃ metal, metal ∈ metal_list ∧ metal ∈ nonzero_row adj x.
Proof.
  unfold anchoring_atoms.
  rewrite (foldl_elem_of _ (λ linker y, y ∈ linker
             ∧ ∃ metal, metal ∈ metal_list ∧ metal ∈ nonzero_row adj y)).
  - split; [intros [Hx | (l & Hl & Hx)]; [set_solver | eauto] | intros (l & Hl & Hx); eauto].
  - intros r linker y.
    rewrite (foldl_elem_of _ (λ a z, z = a
               ∧ ∃ metal, metal ∈ metal_list ∧ metal ∈ nonzero_row adj a)).
    + split.
      * intros [Hy | (a & Ha & -> & Hm)]; auto.
      * intros [Hy | [Hl Hm]]; [auto | right; exists y; auto].
    + intros r' a z. case_bool_decide as Hnon.
      * rewrite elem_of_union, elem_of_singleton.
        assert (Hm : ∃ metal, metal ∈ metal_list ∧ metal ∈ nonzero_row adj a).
        { apply set_choose_L in Hnon as [metal Hmetal].
          apply elem_of_intersection in Hmetal as [H1 H2].
          apply elem_of_list_to_set in H1. eauto. }
        split; [intros [?|?]; auto | intros [?|[? _]]; auto].
      * split; [auto | intros [? | [_ (metal & H1 & H2)]]; [assumption|]].
        exfalso.
        assert (Hin : metal ∈ (list_to_set (nonzero_row adj a) : gset nat) ∩ metal_list).
        { apply elem_of_intersection. split; [apply elem_of_list_to_set, H2 | exact H1]. }
        rewrite Hnon in Hin. apply not_elem_of_empty in Hin. exact Hin.
Qed.

(** X3.  An anchoring atom is an atom of some candidate with a metal among
    its bonded atoms; when bonding is symmetric every anchoring atom also
    belongs to the initial SBUlist, so it is counted on both sides. *)
Theorem anchoring_atoms_are_shared `{Elements} (m : mol3D) (cands : list (list nat)) (x : nat) :
  (∀ i j, j ∈ nonzero_row (graph m) i → i ∈ nonzero_row (graph m) j) →
  x ∈ anchoring_atoms (graph m) (list_to_set (findMetal m)) cands →
  (∃ linker, linker ∈ cands ∧ x ∈ linker) ∧ x ∈ SBUlist_seed m.
Proof.
  intros Hsym Hx. apply elem_of_anchoring_atoms in Hx as (linker & Hl & Hxl & metal & Hm & Hb).
  split; [eauto|].
  apply elem_of_SBUlist_seed. right. exists metal.
  split; [apply elem_of_list_to_set in Hm; exact Hm | apply Hsym, Hb].
Qed.

Lemma anchoring_atoms_are_shared_witness :
  (∃ linker, linker ∈ [[1; 2; 3]] ∧ 1 ∈ linker) ∧ 1 ∈ SBUlist_seed bridge_mol.
Proof.
  apply (anchoring_atoms_are_shared bridge_mol [[1; 2; 3]] 1).
  - intros i j Hj. apply elem_of_bonded_row. apply elem_of_bonded_row in Hj. tauto.
  - apply (bool_decide_unpack _). vm_compute. exact I.
Defined.

Section AnchorEvidence.
Variables (adj : adj_matrix) (initial_SBU_list : list (list nat)) (atoms_list : list nat).

Abbreviation touches := (touches adj initial_SBU_list atoms_list).

Lemma find_anchors_proj (π : anchor_evidence → gset nat) (pick : nat → nat → nat → nat → nat) :
  π {| linkeranchors_list := ∅; linkeranchors_atoms := ∅;
       sbuanchors_list := ∅; sbu_connect_list := ∅ |} = ∅ →
  (∀ ev iii a kk b,
     π {| linkeranchors_list := linkeranchors_list ev ∪ {[iii]};
          linkeranchors_atoms := linkeranchors_atoms ev ∪ {[a]};
          sbuanchors_list := sbuanchors_list ev ∪ {[b]};
          sbu_connect_list := sbu_connect_list ev ∪ {[kk]} |}
     = π ev ∪ {[pick iii a kk b]}) →
  ∀ x, x ∈ π (find_anchors adj initial_SBU_list atoms_list)
       ↔ ∃ iii a kk b, touches iii a kk b ∧ x = pick iii a kk b.
Proof.
  intros Hempty Hstep x. unfold find_anchors.
  rewrite (foldl_proj_elem_of π _
    (λ '(iii, a) y, ∃ kk b, (∃ sbu, initial_SBU_list !! kk = Some sbu ∧ b ∈ sbu)
                           ∧ b ∈ nonzero_row adj a ∧ y = pick iii a kk b)).
  - rewrite Hempty. split.
    + intros [Hx | ([iii a] & Hin & kk & b & Hs & Hb & ->)]; [set_solver|].
      exists iii, a, kk, b. split; [|reflexivity].
      split; [apply enumerate_lookup, Hin | auto].
    + intros (iii & a & kk & b & (Ha & Hs & Hb) & ->). right. exists (iii, a).
      split; [|eauto 6].
      unfold enumerate. apply elem_of_lookup_imap. eauto.
  - intros r [iii a] y.
    rewrite (foldl_proj_elem_of π _
      (λ '(kk, sbu) z, ∃ b, b ∈ sbu ∧ b ∈ nonzero_row adj a ∧ z = pick iii a kk b)).
    + split.
      * intros [Hy | ([kk sbu] & Hin & b & Hb & Hn & ->)]; [auto|].
        right. exists kk, b. split; [|auto].
        exists sbu. split; [apply enumerate_lookup, Hin | exact Hb].
      * intros [Hy | (kk & b & (sbu & Hs & Hb) & Hn & ->)]; [auto|].
        right. exists (kk, sbu). split; [|eauto].
        unfold enumerate. apply elem_of_lookup_imap. eauto.
    + intros r' [kk sbu] z.
      rewrite (foldl_proj_elem_of π _
        (λ b w, b ∈ nonzero_row adj a ∧ w = pick iii a kk b)).
      * split.
        -- intros [Hz | (b & Hb & Hn & ->)]; eauto.
        -- intros [Hz | (b & Hb & Hn & ->)]; eauto.
      * intros r'' b w. case_bool_decide as Hb.
        -- rewrite Hstep, elem_of_union, elem_of_singleton.
           split; [intros [?|?]; auto | intros [?|[_ ?]]; auto].
        -- split; [auto | intros [? | [? _]]; [assumption | contradiction]].
Qed.

(** X4.  The evidence collected for a candidate: its anchors are exactly
    its atoms bonded to an atom of some initial SBU, the anchor positions
    are the positions of those atoms, and the SBU connections are the
    initial SBUs containing such a bonded atom. *)
Theorem find_anchors_collects_the_contacts (x : nat) :
  let ev := find_anchors adj initial_SBU_list atoms_list in
  (x ∈ linkeranchors_atoms ev ↔ ∃ iii kk b, touches iii x kk b)
  ∧ (x ∈ linkeranchors_list ev ↔ ∃ a kk b, touches x a kk b)
  ∧ (x ∈ sbu_connect_list ev ↔ ∃ iii a b, touches iii a x b)
  ∧ (x ∈ sbuanchors_list ev ↔ ∃ iii a kk, touches iii a kk x).
Proof.
  cbv zeta. split_and!.
  - rewrite (find_anchors_proj linkeranchors_atoms (λ _ a _ _, a)); [|reflexivity|reflexivity].
    split; [intros (iii & a & kk & b & Ht & ->); eauto | intros (iii & kk & b & Ht); eauto 6].
  - rewrite (find_anchors_proj linkeranchors_list (λ iii _ _ _, iii)); [|reflexivity|reflexivity].
    split; [intros (iii & a & kk & b & Ht & ->); eauto | intros (a & kk & b & Ht); eauto 6].
  - rewrite (find_anchors_proj sbu_connect_list (λ _ _ kk _, kk)); [|reflexivity|reflexivity].
    split; [intros (iii & a & kk & b & Ht & ->); eauto | intros (iii & a & b & Ht); eauto 6].
  - rewrite (find_anchors_proj sbuanchors_list (λ _ _ _ b, b)); [|reflexivity|reflexivity].
    split; [intros (iii & a & kk & b & Ht & ->); eauto | intros (iii & a & kk & Ht); eauto 6].
Qed.

End AnchorEvidence.

(** ** The reclassification pass as a whole (lines 1053-1125) *)

Lemma merged_snoc (keep : nat → bool) (pre : list (list nat)) (x : list nat) (y : nat) :
  merged keep (pre ++ [x]) y ↔ merged keep pre y ∨ (keep (length pre) = false ∧ y ∈ x).
Proof.
  unfold merged. split.
  - intros (i & c & Hi & Hk & Hy).
    destruct (decide (i < length pre)) as [Hlt | Hge].
    + rewrite lookup_app_l in Hi by exact Hlt. left. eauto.
    + apply lookup_lt_Some in Hi as Hlt. rewrite length_app in Hlt. simpl in Hlt.
      assert (i = length pre) as -> by lia.
      rewrite lookup_app_r, Nat.sub_diag in Hi by lia. injection Hi as <-. auto.
  - intros [(i & c & Hi & Hk & Hy) | [Hk Hy]].
    + exists i, c. split; [|auto].
      rewrite lookup_app_l by (eapply lookup_lt_Some, Hi). exact Hi.
    + exists (length pre), x. split; [|auto].
      rewrite lookup_app_r, Nat.sub_diag by lia. reflexivity.
Qed.

Section PartitionOutcome.
Context `{Elements, PBC}.
Variables (molcif : mol3D) (adj : adj_matrix) (cell_v : cell) (name : string).
Variable initial_SBU_list : list (list nat).

Abbreviation body := (classify_body molcif adj cell_v name initial_SBU_list).
Abbreviation kept := (is_kept molcif adj cell_v initial_SBU_list).
Abbreviation anchors := (anchors_of adj initial_SBU_list).

(** One iteration, with the anchor record and the two length bounds. *)
Lemma classify_body_full (templist : list (list nat)) (st : pstate) (s : store)
    (ii : nat) (atoms_list c : list nat) (sg : adj_matrix) :
  linker_subgraphlist st !! ii = Some sg →
  linker_list st !! ii = Some c →
  templist !! ii = Some atoms_list →
  ∃ st' s',
    body templist st (ii, atoms_list) s = (Ok st', s')
    ∧ linkeranchors_superlist st' = linkeranchors_superlist st ++ [anchors atoms_list]
    ∧ max_min_linker_length st ≤ max_min_linker_length st'
    ∧ min_max_linker_length st' ≤ min_max_linker_length st
    ∧ if kept sg atoms_list
      then linker_list st' = linker_list st
           ∧ linker_subgraphlist st' = linker_subgraphlist st
           ∧ removelist st' = removelist st ∧ SBUlist st' = SBUlist st
      else linker_list st' = delete ii (linker_list st)
           ∧ linker_subgraphlist st' = delete ii (linker_subgraphlist st)
           ∧ removelist st' = removelist st ∪ list_to_set atoms_list
           ∧ SBUlist st' = SBUlist st ∪ list_to_set atoms_list.
Proof.
  intros Hsg Hc Ht.
  unfold classify_body, is_kept, anchors_of.
  set (ev := find_anchors adj initial_SBU_list atoms_list).
  unfold bind at 1. unfold index at 1. rewrite Hsg. unfold ret at 1.
  destruct (linker_length sg (linkeranchors_list ev)) as [min_length max_length].
  assert (Hmerge : ∀ s0, merge_ligand (push_anchors st (linkeranchors_atoms ev)) templist ii s0
            = (Ok {| removelist := removelist st ∪ list_to_set atoms_list;
                     SBUlist := SBUlist st ∪ list_to_set atoms_list;
                     linker_list := delete ii (linker_list st);
                     linker_subgraphlist := delete ii (linker_subgraphlist st);
                     max_min_linker_length := max_min_linker_length st;
                     min_max_linker_length := min_max_linker_length st;
                     linkeranchors_superlist :=
                       linkeranchors_superlist st ++ [linkeranchors_atoms ev] |}, s0)).
  { intros s0. unfold merge_ligand, bind, index, pop, ret. simpl.
    rewrite Ht, Hc, Hsg. reflexivity. }
  destruct (2 <=? size (linkeranchors_list ev)) eqn:Eanch.
  - destruct (2 <=? size (sbu_connect_list ev)) eqn:Econn.
    + eexists _, _. split; [reflexivity|]. simpl. split_and!; auto; lia.
    + apply Nat.leb_le in Eanch.
      destruct (images_of_ok molcif adj cell_v initial_SBU_list sg atoms_list Eanch)
        as (k & sbu & _ & _ & Eimg).
      fold ev in Eimg. rewrite Eimg.
      unfold bind at 1. unfold lift at 1. cbn [fst snd].
      destruct (crosses_boundary _ _).
      * eexists _, _. split; [reflexivity|]. simpl. split_and!; auto; lia.
      * unfold bind at 1. rewrite Hmerge.
        eexists _, _. split; [reflexivity|]. simpl. split_and!; auto.
  - unfold bind at 1. unfold write2file at 1. unfold bind at 1. rewrite Hmerge.
    eexists _, _. split; [reflexivity|]. simpl. split_and!; auto.
Qed.

Lemma reclassify_loop_full (templist : list (list nat)) (keep : nat → bool)
    (pre : list (list nat)) :
  ∀ (subsP : list adj_matrix),
  length subsP = length pre →
  (∀ i c, pre !! i = Some c → templist !! i = Some c) →
  (∀ i c g, pre !! i = Some c → subsP !! i = Some g → keep i = kept g c) →
  ∀ tailL tailS st s,
  linker_list st = pre ++ tailL →
  linker_subgraphlist st = subsP ++ tailS →
  ∃ st' s',
    forM (reverse (enumerate pre)) (body templist) st s = (Ok st', s')
    ∧ linker_list st' = select keep pre ++ tailL
    ∧ linker_subgraphlist st' = select keep subsP ++ tailS
    ∧ (∀ y, y ∈ removelist st' ↔ y ∈ removelist st ∨ merged keep pre y)
    ∧ (∀ y, y ∈ SBUlist st' ↔ y ∈ SBUlist st ∨ merged keep pre y)
    ∧ linkeranchors_superlist st' = linkeranchors_superlist st ++ reverse (map anchors pre)
    ∧ max_min_linker_length st ≤ max_min_linker_length st'
    ∧ min_max_linker_length st' ≤ min_max_linker_length st.
Proof.
  induction pre as [|x pre IH] using rev_ind; intros subsP Hlen Htemp Hkeep tailL tailS st s HL HS.
  - destruct subsP; [|discriminate]. exists st, s. simpl.
    split_and!; try assumption; try reflexivity.
    + intros y. split; [auto | intros [Hy | (i & c & Hi & _)]; [exact Hy|]].
      rewrite lookup_nil in Hi. discriminate.
    + intros y. split; [auto | intros [Hy | (i & c & Hi & _)]; [exact Hy|]].
      rewrite lookup_nil in Hi. discriminate.
    + rewrite app_nil_r. reflexivity.
  - rewrite length_app in Hlen. simpl in Hlen. rewrite Nat.add_1_r in Hlen.
    destruct (snoc_of_length subsP _ Hlen) as (subsP' & g & -> & Hlen').
    rewrite enumerate_snoc, reverse_snoc. cbn [forM].
    assert (Hx : (pre ++ [x]) !! length pre = Some x).
    { rewrite lookup_app_r by lia. rewrite Nat.sub_diag. reflexivity. }
    assert (Hg : (subsP' ++ [g]) !! length pre = Some g).
    { rewrite lookup_app_r by lia. rewrite Hlen', Nat.sub_diag. reflexivity. }
    destruct (classify_body_full templist st s (length pre) x x g)
      as (st1 & s1 & E1 & Esup & Hmax & Hmin & Hcase).
    { rewrite HS, lookup_app_l by (rewrite length_app; simpl; lia). exact Hg. }
    { rewrite HL, lookup_app_l by (rewrite length_app; simpl; lia). exact Hx. }
    { apply Htemp, Hx. }
    unfold bind at 1. rewrite E1.
    rewrite <- (Hkeep (length pre) x g Hx Hg) in Hcase.
    assert (Htemp' : ∀ i c, pre !! i = Some c → templist !! i = Some c).
    { intros i c Hi. apply Htemp. rewrite lookup_app_l by (eapply lookup_lt_Some, Hi). exact Hi. }
    assert (Hkeep' : ∀ i c g0, pre !! i = Some c → subsP' !! i = Some g0 → keep i = kept g0 c).
    { intros i c g0 Hi Hgi. apply Hkeep.
      - rewrite lookup_app_l by (eapply lookup_lt_Some, Hi). exact Hi.
      - rewrite lookup_app_l by (eapply lookup_lt_Some, Hgi). exact Hgi. }
    rewrite !select_snoc, Hlen'.
    assert (Hrev : ∀ l0 : list (gset nat),
              (l0 ++ [anchors x]) ++ reverse (map anchors pre)
              = l0 ++ reverse (map anchors (pre ++ [x]))).
    { intros l0. rewrite map_app, reverse_app, <- app_assoc. reflexivity. }
    destruct (keep (length pre)) eqn:Ek.
    + destruct Hcase as (EL & ES & ER & EU).
      destruct (IH subsP' Hlen' Htemp' Hkeep' (x :: tailL) (g :: tailS) st1 s1)
        as (st' & s' & E & HL' & HS' & HR & HU & Hsup & Hmax' & Hmin').
      { rewrite EL, HL, <- app_assoc. reflexivity. }
      { rewrite ES, HS, <- app_assoc. reflexivity. }
      exists st', s'. rewrite E. split; [reflexivity|].
      rewrite <- !app_assoc. simpl.
      split_and!; try assumption; try lia.
      * intros y. rewrite HR, ER, merged_snoc, Ek. intuition congruence.
      * intros y. rewrite HU, EU, merged_snoc, Ek. intuition congruence.
      * rewrite Hsup, Esup. apply Hrev.
    + destruct Hcase as (EL & ES & ER & EU).
      destruct (IH subsP' Hlen' Htemp' Hkeep' tailL tailS st1 s1)
        as (st' & s' & E & HL' & HS' & HR & HU & Hsup & Hmax' & Hmin').
      { rewrite EL, HL, <- app_assoc. apply delete_middle. }
      { rewrite ES, HS, <- app_assoc, <- Hlen'. apply delete_middle. }
      exists st', s'. rewrite E. split; [reflexivity|].
      rewrite !app_nil_r.
      split_and!; try assumption; try lia.
      * intros y. rewrite HR, ER, merged_snoc, Ek, elem_of_union, elem_of_list_to_set.
        intuition congruence.
      * intros y. rewrite HU, EU, merged_snoc, Ek, elem_of_union, elem_of_list_to_set.
        intuition congruence.
      * rewrite Hsup, Esup. apply Hrev.
Qed.

Lemma reclassify_full (st : pstate) (s : store) :
  length (linker_subgraphlist st) = length (linker_list st) →
  let keep := kept_at molcif adj cell_v initial_SBU_list st in
  ∃ st' s',
    reclassify molcif adj cell_v name initial_SBU_list st s = (Ok st', s')
    ∧ linker_list st' = select keep (linker_list st)
    ∧ linker_subgraphlist st' = select keep (linker_subgraphlist st)
    ∧ (∀ y, y ∈ removelist st' ↔ y ∈ removelist st ∨ merged keep (linker_list st) y)
    ∧ (∀ y, y ∈ SBUlist st' ↔ y ∈ SBUlist st ∨ merged keep (linker_list st) y)
    ∧ linkeranchors_superlist st'
      = linkeranchors_superlist st ++ reverse (map anchors (linker_list st))
    ∧ max_min_linker_length st ≤ max_min_linker_length st'
    ∧ min_max_linker_length st' ≤ min_max_linker_length st.
Proof.
  intros Hlen keep.
  destruct (reclassify_loop_full (linker_list st) keep (linker_list st)
              (linker_subgraphlist st) Hlen) with (tailL := @nil (list nat))
              (tailS := @nil adj_matrix) (st := st) (s := s)
    as (st' & s' & E & HL & HS & Hrest).
  { auto. }
  { intros i c g Hi Hgi. unfold keep, kept_at. rewrite Hi, Hgi. reflexivity. }
  { rewrite app_nil_r. reflexivity. }
  { rewrite app_nil_r. reflexivity. }
  rewrite app_nil_r in HL, HS.
  exists st', s'. split; [exact E|]. split; [exact HL|]. split; [exact HS|]. exact Hrest.
Qed.

Lemma select_length {A B} (keep : nat → bool) (l : list A) (l' : list B) :
  length l = length l' → length (select keep l) = length (select keep l').
Proof.
  revert l'. induction l as [|x l IH] using rev_ind; intros l' Hlen.
  - destruct l'; [reflexivity | discriminate].
  - rewrite length_app in Hlen. simpl in Hlen. rewrite Nat.add_1_r in Hlen.
    destruct (snoc_of_length l' _ (eq_sym Hlen)) as (l0 & y & -> & Hl0).
    rewrite !select_snoc, !length_app, (IH l0) by lia. rewrite Hl0.
    destruct (keep (length l)); reflexivity.
Qed.

(** X5.  On parallel linker lists the reclassification pass never raises.
    It keeps exactly the candidates its body keeps, at the same positions
    of both lists, which therefore stay parallel; and the removal set and
    SBUlist gain exactly the atoms of the candidates that were not kept. *)
Theorem reclassification_moves_exactly_the_ligands (st : pstate) (s : store) :
  length (linker_subgraphlist st) = length (linker_list st) →
  ∃ st' s',
    reclassify molcif adj cell_v name initial_SBU_list st s = (Ok st', s')
    ∧ linker_list st'
      = select (kept_at molcif adj cell_v initial_SBU_list st) (linker_list st)
    ∧ linker_subgraphlist st'
      = select (kept_at molcif adj cell_v initial_SBU_list st) (linker_subgraphlist st)
    ∧ length (linker_subgraphlist st') = length (linker_list st')
    ∧ ∀ y, let gone := merged (kept_at molcif adj cell_v initial_SBU_list st)
                              (linker_list st) y in
           (y ∈ removelist st' ↔ y ∈ removelist st ∨ gone)
           ∧ (y ∈ SBUlist st' ↔ y ∈ SBUlist st ∨ gone).
Proof.
  intros Hlen.
  destruct (reclassify_full st s Hlen) as (st' & s' & E & HL & HS & HR & HU & _).
  exists st', s'. split_and!; try assumption.
  - rewrite HL, HS. apply select_length, Hlen.
  - intros y. cbv zeta. split; [apply HR | apply HU].
Qed.

(** X6.  The pass appends one anchor set per candidate it started with,
    kept or not, in the order of the loop, that is from the last candidate
    to the first; and it can only raise the largest minimum linker length
    and lower the smallest maximum. *)
Theorem anchor_sets_are_recorded_last_to_first (st : pstate) (s : store) :
  length (linker_subgraphlist st) = length (linker_list st) →
  ∃ st' s',
    reclassify molcif adj cell_v name initial_SBU_list st s = (Ok st', s')
    ∧ linkeranchors_superlist st'
      = linkeranchors_superlist st
        ++ reverse (map (anchors_of adj initial_SBU_list) (linker_list st))
    ∧ (∀ i c, linker_list st !! i = Some c →
         linkeranchors_superlist st'
           !! (length (linkeranchors_superlist st) + (length (linker_list st) - 1 - i))
         = Some (anchors_of adj initial_SBU_list c))
    ∧ max_min_linker_length st ≤ max_min_linker_length st'
    ∧ min_max_linker_length st' ≤ min_max_linker_length st.
Proof.
  intros Hlen.
  destruct (reclassify_full st s Hlen)
    as (st' & s' & E & _ & _ & _ & _ & Hsup & Hmax & Hmin).
  exists st', s'. split_and!; try assumption.
  intros i c Hi. rewrite Hsup.
  rewrite lookup_app_r by lia.
  replace (length (linkeranchors_superlist st) + (length (linker_list st) - 1 - i)
           - length (linkeranchors_superlist st))
    with (length (linker_list st) - 1 - i) by lia.
  apply lookup_lt_Some in Hi as Hlt.
  rewrite reverse_lookup by (rewrite length_map; lia).
  rewrite length_map.
  replace (length (linker_list st) - S (length (linker_list st) - 1 - i)) with i by lia.
  rewrite list_lookup_fmap, Hi. reflexivity.
Qed.

(** X7.  The two cases the loop decides without looking at periodic
    images: a candidate with fewer than two anchors always goes to the SBU
    side with all its atoms, and one with at least two anchors that touches
    at least two initial SBUs always stays a linker. *)
Theorem anchor_counts_decide_without_images (st : pstate) (s : store)
    (ii : nat) (c : list nat) :
  length (linker_subgraphlist st) = length (linker_list st) →
  linker_list st !! ii = Some c →
  let ev := find_anchors adj initial_SBU_list c in
  ∃ st' s' keep,
    reclassify molcif adj cell_v name initial_SBU_list st s = (Ok st', s')
    ∧ linker_list st' = select keep (linker_list st)
    ∧ (size (linkeranchors_list ev) < 2 →
         keep ii = false
         ∧ (list_to_set c : gset nat) ⊆ removelist st'
         ∧ (list_to_set c : gset nat) ⊆ SBUlist st')
    ∧ (2 ≤ size (linkeranchors_list ev) → 2 ≤ size (sbu_connect_list ev) →
         keep ii = true ∧ c ∈ linker_list st').
Proof.
  intros Hlen Hc ev.
  destruct (reclassify_full st s Hlen) as (st' & s' & E & HL & _ & HR & HU & _).
  destruct (lookup_lt_is_Some_2 (linker_subgraphlist st) ii) as [g Hg].
  { rewrite Hlen. eapply lookup_lt_Some, Hc. }
  exists st', s', (kept_at molcif adj cell_v initial_SBU_list st).
  split; [exact E|]. split; [exact HL|].
  assert (Hk : kept_at molcif adj cell_v initial_SBU_list st ii = kept g c).
  { unfold kept_at. rewrite Hc, Hg. reflexivity. }
  split.
  - intros Hfew.
    assert (Hf : kept_at molcif adj cell_v initial_SBU_list st ii = false).
    { rewrite Hk. unfold is_kept. fold ev.
      rewrite (proj2 (Nat.leb_gt _ _) Hfew). reflexivity. }
    split; [exact Hf|].
    split; intros y Hy; [apply HR | apply HU]; right; exists ii, c;
      (split; [exact Hc | split; [exact Hf | apply elem_of_list_to_set in Hy; exact Hy]]).
  - intros Hanch Hconn.
    assert (Ht : kept_at molcif adj cell_v initial_SBU_list st ii = true).
    { rewrite Hk. unfold is_kept. fold ev.
      rewrite (proj2 (Nat.leb_le _ _) Hanch), (proj2 (Nat.leb_le _ _) Hconn). reflexivity. }
    split; [exact Ht|].
    rewrite HL. unfold select. apply list_elem_of_omap.
    exists (ii, c). split; [|rewrite Ht; reflexivity].
    unfold enumerate. apply elem_of_lookup_imap. eauto.
Qed.

End PartitionOutcome.

Lemma reclassification_moves_exactly_the_ligands_witness :
  ∃ st' s',
    reclassify chelate_mol (graph chelate_mol) (cell_of chelate_cif) "chelate"
               chelate_initial_SBUs chelate_start empty_store = (Ok st', s')
    ∧ linker_list st'
      = select (kept_at chelate_mol (graph chelate_mol) (cell_of chelate_cif)
                        chelate_initial_SBUs chelate_start) (linker_list chelate_start)
    ∧ linker_subgraphlist st'
      = select (kept_at chelate_mol (graph chelate_mol) (cell_of chelate_cif)
                        chelate_initial_SBUs chelate_start) (linker_subgraphlist chelate_start)
    ∧ length (linker_subgraphlist st') = length (linker_list st')
    ∧ ∀ y, let gone := merged (kept_at chelate_mol (graph chelate_mol) (cell_of chelate_cif)
                                       chelate_initial_SBUs chelate_start)
                              (linker_list chelate_start) y in
           (y ∈ removelist st' ↔ y ∈ removelist chelate_start ∨ gone)
           ∧ (y ∈ SBUlist st' ↔ y ∈ SBUlist chelate_start ∨ gone).
Proof.
  apply (reclassification_moves_exactly_the_ligands chelate_mol (graph chelate_mol)
           (cell_of chelate_cif) "chelate" chelate_initial_SBUs chelate_start empty_store).
  reflexivity.
Defined.

Lemma anchor_sets_are_recorded_last_to_first_witness :
  ∃ st' s',
    reclassify bridge_mol (graph bridge_mol) (cell_of bridge_cif) "bridge"
               (initial_SBUs_of bridge_mol) (start_of bridge_mol) empty_store = (Ok st', s')
    ∧ linkeranchors_superlist st'
      = linkeranchors_superlist (start_of bridge_mol)
        ++ reverse (map (anchors_of (graph bridge_mol) (initial_SBUs_of bridge_mol))
                        (linker_list (start_of bridge_mol)))
    ∧ (∀ i c, linker_list (start_of bridge_mol) !! i = Some c →
         linkeranchors_superlist st'
           !! (length (linkeranchors_superlist (start_of bridge_mol))
               + (length (linker_list (start_of bridge_mol)) - 1 - i))
         = Some (anchors_of (graph bridge_mol) (initial_SBUs_of bridge_mol) c))
    ∧ max_min_linker_length (start_of bridge_mol) ≤ max_min_linker_length st'
    ∧ min_max_linker_length st' ≤ min_max_linker_length (start_of bridge_mol).
Proof.
  apply (anchor_sets_are_recorded_last_to_first bridge_mol (graph bridge_mol)
           (cell_of bridge_cif) "bridge" (initial_SBUs_of bridge_mol) (start_of bridge_mol)
           empty_store).
  reflexivity.
Defined.

Lemma anchor_counts_decide_without_images_witness :
  let ev := find_anchors (graph bridge_mol) (initial_SBUs_of bridge_mol) [1; 2; 3] in
  ∃ st' s' keep,
    reclassify bridge_mol (graph bridge_mol) (cell_of bridge_cif) "bridge"
               (initial_SBUs_of bridge_mol) (start_of bridge_mol) empty_store = (Ok st', s')
    ∧ linker_list st' = select keep (linker_list (start_of bridge_mol))
    ∧ (size (linkeranchors_list ev) < 2 →
         keep 0 = false
         ∧ (list_to_set [1; 2; 3] : gset nat) ⊆ removelist st'
         ∧ (list_to_set [1; 2; 3] : gset nat) ⊆ SBUlist st')
    ∧ (2 ≤ size (linkeranchors_list ev) → 2 ≤ size (sbu_connect_list ev) →
         keep 0 = true ∧ [1; 2; 3] ∈ linker_list st').
Proof.
  apply (anchor_counts_decide_without_images bridge_mol (graph bridge_mol)
           (cell_of bridge_cif) "bridge" (initial_SBUs_of bridge_mol) (start_of bridge_mol)
           empty_store 0 [1; 2; 3]).
  - reflexivity.
  - vm_compute. reflexivity.
Defined.

(** ** The featurization calls on a concrete structure *)

Lemma make_MOF_linker_RACs_rows_witness :
  ∃ new, linker_table (bridge_linker_call empty_store).2 = linker_table empty_store ++ new
         ∧ length new = length [[1; 2; 3]].
Proof.
  eapply (make_MOF_linker_RACs_rows [[1; 2; 3]] [toy_slice_mat (graph bridge_mol) [1; 2; 3]]
            bridge_mol 0 "bridge" (cell_of bridge_cif) [{[1; 3]}] empty_store).
  vm_compute. reflexivity.
Defined.

Lemma make_MOF_SBU_RACs_rows_witness :
  ∃ new, sbu_table (bridge_sbu_call empty_store).2 = sbu_table empty_store ++ new
         ∧ length new = length [[0]].
Proof.
  eapply (make_MOF_SBU_RACs_rows [[0]] [toy_slice_mat (graph bridge_mol) [0]] bridge_mol 0
            "bridge" (cell_of bridge_cif) {[1; 3]} [{[1; 3]}]
            [[1; 2; 3]] [toy_slice_mat (graph bridge_mol) [1; 2; 3]] empty_store).
  vm_compute. reflexivity.
Defined.

(** X10.  The lc names returned by [make_MOF_SBU_RACs] are only ever set
    while the first linker of [connections_list] is processed: when no SBU
    shares an atom with that linker the call returns no lc names, whatever
    lc values it averages. *)
Theorem lc_names_are_set_by_the_first_linker_only `{PBC, Kernels}
    (SBUlist : list (list nat)) (SBU_subgraph : list adj_matrix) (molcif : mol3D)
    (depth : nat) (name : string) (cell_v : cell) (anchoring : gset nat)
    (superlist : list (gset nat)) (conn : list (list nat)) (conn_subs : list adj_matrix)
    (s : store) :
  (∀ SBU, SBU ∈ SBUlist → misses_first conn SBU) →
  match (make_MOF_SBU_RACs SBUlist SBU_subgraph molcif depth name cell_v anchoring superlist
                           conn conn_subs s).1 with
  | Ok (_, _, lc_names, _) => lc_names = []
  | Raise _ => True
  end.
Proof.
  intros Hmiss.
  destruct (make_MOF_SBU_RACs _ _ _ _ _ _ _ _ _ _ s) as [[[[[n a] lcn] al]|e] s'] eqn:E;
    [|exact I].
  simpl. eapply lc_names_need_the_first_linker; [exact Hmiss | exact E].
Qed.

Lemma lc_names_are_set_by_the_first_linker_only_witness :
  match (bridge_sbu_call empty_store).1 with
  | Ok (_, _, lc_names, _) => lc_names = []
  | Raise _ => True
  end.
Proof.
  apply (lc_names_are_set_by_the_first_linker_only [[0]] [toy_slice_mat (graph bridge_mol) [0]]
           bridge_mol 0 "bridge" (cell_of bridge_cif) {[1; 3]} [{[1; 3]}]
           [[1; 2; 3]] [toy_slice_mat (graph bridge_mol) [1; 2; 3]] empty_store).
  intros SBU HS linker [= <-]. apply list_elem_of_singleton in HS as ->.
  apply (bool_decide_unpack _). vm_compute. exact I.
Defined.

(** ** What the averaging step computes *)

Lemma forallb_false_elem {B} (f : B → bool) (l : list B) :
  forallb f l = false → ∃ x, x ∈ l ∧ f x = false.
Proof.
  induction l as [|x l IH]; simpl; [discriminate|].
  destruct (f x) eqn:Ex; simpl.
  - intros E. destruct (IH E) as (y & Hy & Hf). exists y. split; [right; exact Hy | exact Hf].
  - intros _. exists x. split; [left | exact Ex].
Qed.

Section MeanValue.
Context {A : Type} (zero : A) (add : A → A → A) (div_by : A → nat → A).

Lemma lookup_repeat_lt (x : A) (n k : nat) : k < n → repeat x n !! k = Some x.
Proof.
  revert k. induction n as [|n IH]; intros k Hk; [lia|].
  destruct k as [|k]; simpl; [reflexivity | apply IH; lia].
Qed.

Lemma column_fold_lookup (k : nat) (rows : list (list A)) :
  ∀ (acc : list A) (a : A),
  acc !! k = Some a →
  (∀ s, s ∈ rows → length s = length acc) →
  foldl (zip_with add) acc rows !! k
  = Some (foldl add a (map (λ s, default zero (s !! k)) rows)).
Proof.
  induction rows as [|s rows IH]; intros acc a Ha Hw; simpl; [exact Ha|].
  assert (Hs : length s = length acc) by (apply Hw; left).
  destruct (lookup_lt_is_Some_2 s k) as [x Hx].
  { rewrite Hs. eapply lookup_lt_Some, Ha. }
  apply IH.
  - rewrite lookup_zip_with, Ha, Hx. simpl. reflexivity.
  - intros t Ht. rewrite length_zip_with, Hs, Nat.min_id. apply Hw. right. exact Ht.
Qed.

Lemma np_mean_axis0_cases (rows : list (list A)) :
  match np_mean_axis0 zero add div_by rows with
  | NdNaN => rows = []
  | NdRagged => ∃ r s, rows !! 0 = Some r ∧ s ∈ rows ∧ length s ≠ length r
  | NdVector v =>
      ∃ r, rows !! 0 = Some r
           ∧ (∀ s, s ∈ rows → length s = length r)
           ∧ length v = length r
           ∧ ∀ k, k < length r →
               v !! k = Some (div_by (foldl add zero (map (λ s, default zero (s !! k)) rows))
                                     (length rows))
  end.
Proof.
  unfold np_mean_axis0. destruct rows as [|r rest]; [reflexivity|].
  destruct (forallb _ _) eqn:Ew.
  - assert (Hw : ∀ s, s ∈ r :: rest → length s = length r).
    { intros s Hs. rewrite forallb_forall in Ew.
      apply Nat.eqb_eq, Ew, list_elem_of_In, Hs. }
    assert (Hcol : ∀ k, k < length r →
              column_sums zero add (length r) (r :: rest) !! k
              = Some (foldl add zero (map (λ s, default zero (s !! k)) (r :: rest)))).
    { intros k Hk. unfold column_sums. apply column_fold_lookup.
      - apply lookup_repeat_lt, Hk.
      - intros s Hs. rewrite repeat_length. apply Hw, Hs. }
    exists r. split_and!; [reflexivity | exact Hw | |].
    + rewrite length_map. unfold column_sums.
      assert (Hlen : ∀ (l : list (list A)) acc, (∀ s, s ∈ l → length s = length acc) →
                length (foldl (zip_with add) acc l) = length acc).
      { induction l as [|s l IH]; intros acc Hl; simpl; [reflexivity|].
        assert (Hs : length s = length acc) by (apply Hl; left).
        rewrite IH; rewrite length_zip_with, Hs, Nat.min_id; [reflexivity|].
        intros t Ht. apply Hl. right. exact Ht. }
      rewrite Hlen; rewrite repeat_length; [reflexivity | exact Hw].
    + intros k Hk. rewrite list_lookup_fmap, (Hcol k Hk). reflexivity.
  - apply forallb_false_elem in Ew as (s & Hs & Hne).
    exists r, s. split; [reflexivity|]. split; [exact Hs|]. apply Nat.eqb_neq, Hne.
Qed.

End MeanValue.

(** X11.  The three outcomes of the averaging step on rational rows: the
    scalar nan exactly for no rows; no array when some row differs in
    length from the first; otherwise a vector as wide as the rows whose
    k-th entry is the sum of the k-th entries, taken in row order from 0,
    divided by the number of rows. *)
Theorem np_mean_is_the_column_mean (rows : list (list Q)) :
  match np_mean_Q rows with
  | NdNaN => rows = []
  | NdRagged => ∃ r s, rows !! 0 = Some r ∧ s ∈ rows ∧ length s ≠ length r
  | NdVector v =>
      ∃ r, rows !! 0 = Some r
           ∧ (∀ s, s ∈ rows → length s = length r)
           ∧ length v = length r
           ∧ ∀ k, k < length r →
               v !! k = Some (foldl Qplus 0 (map (λ s, default 0 (s !! k)) rows)
                              / inject_Z (Z.of_nat (length rows)))%Q
  end.
Proof. apply (np_mean_axis0_cases 0%Q Qplus (λ x n, (x / inject_Z (Z.of_nat n))%Q)). Qed.

(** ** What the featurization calls average *)

Lemma py_remove_snoc_numeric (name : string) (v : list pyval) (q : list Q) :
  mapM to_Q (py_remove (PyStr name) (v ++ [PyStr name])) = Some q →
  py_remove (PyStr name) (v ++ [PyStr name]) = v.
Proof.
  revert q. induction v as [|y v IH]; intros q; simpl.
  - rewrite String.eqb_refl. reflexivity.
  - destruct (py_eqb y (PyStr name)) eqn:Ey.
    + intros E. apply mapM_Some in E.
      apply Forall2_app_inv_l in E as (q1 & q2 & _ & Hlast & _).
      inversion Hlast as [|? ? ? ? Hx]. discriminate Hx.
    + intros E. apply mapM_Some in E. inversion E as [|? b ? q' Hy Hrest]; subst.
      f_equal. apply (IH q'). apply mapM_Some. exact Hrest.
Qed.

Lemma str_remove_snoc_fresh (x : string) (l : list string) :
  (∀ y, y ∈ l → String.eqb y x = false) → str_remove x (l ++ [x]) = l.
Proof.
  induction l as [|y l IH]; intros Hl; simpl.
  - rewrite String.eqb_refl. reflexivity.
  - rewrite (Hl y) by left. f_equal. apply IH. intros z Hz. apply Hl. right. exact Hz.
Qed.

Section LinkerAverage.
Context `{PBC, Kernels}.

Lemma linker_colnames_fresh (m : mol3D) (depth : nat) (y : string) :
  y ∈ (linker_descriptors_of m depth).1 → String.eqb y "name" = false.
Proof.
  unfold linker_descriptors_of. cbn [fst].
  intros Hy. apply list_elem_of_In, in_concat in Hy as (l & Hl & Hy).
  apply in_map_iff in Hl as ([p label] & <- & _).
  apply in_map_iff in Hy as (j & <- & _). reflexivity.
Qed.

Lemma tagged_row_Ok (name : string) (names : list string) (values : list pyval)
    (t : row * list string * list pyval) (s s' : store) :
  tagged_row name names values s = (Ok t, s') →
  t.1.2 = str_remove "name" (names ++ ["name"])
  ∧ t.2 = py_remove (PyStr name) (values ++ [PyStr name]).
Proof.
  unfold tagged_row, bind, lift, ret.
  destruct (mk_dict _ _ _) as [d|e]; [|discriminate].
  intros [= <- _]. auto.
Qed.

Lemma linker_body_values molcif depth name cell_v gci subs acc i linker s acc' s' :
  linker_body molcif depth name cell_v gci subs acc (i, linker) s = (Ok acc', s') →
  ∃ g, subs !! i = Some g
       ∧ acc'.1.2 = acc.1.2
           ++ [py_remove (PyStr name)
                 ((linker_descriptors_of (sub_mol molcif linker g) depth).2 ++ [PyStr name])]
       ∧ acc'.2 = Some (linker_descriptors_of (sub_mol molcif linker g) depth).1.
Proof.
  unfold linker_body. destruct acc as [[df dl] cn]. intros E.
  apply bind_Ok_inv in E as (g & s1 & Eg & E).
  unfold index, ret, raise in Eg. destruct (subs !! i) as [g0|] eqn:Esub; [|discriminate].
  injection Eg as -> _.
  apply bind_Ok_inv in E as (u1 & s2 & _ & E).
  apply bind_Ok_inv in E as (u2 & s3 & _ & E).
  destruct (linker_descriptors_of (sub_mol molcif linker g) depth) as [n v] eqn:Eld.
  apply bind_Ok_inv in E as ([[d n'] v'] & s4 & Et & E).
  apply tagged_row_Ok in Et as [En Ev]. cbn [fst snd] in En, Ev.
  injection E as <- _. exists g. rewrite Eld. cbn [fst snd].
  split; [reflexivity|]. split; [rewrite Ev; reflexivity|].
  rewrite En. f_equal. apply str_remove_snoc_fresh.
  intros y Hy. apply (linker_colnames_fresh (sub_mol molcif linker g) depth).
  rewrite Eld. exact Hy.
Qed.

Lemma linker_loop_values molcif depth name cell_v gci subs l :
  ∀ acc s acc' s',
  forM l (linker_body molcif depth name cell_v gci subs) acc s = (Ok acc', s') →
  ∃ rows,
    acc'.1.2 = acc.1.2 ++ rows
    ∧ Forall2 (λ (il : nat * list nat) row, ∃ g,
                 subs !! il.1 = Some g
                 ∧ row = py_remove (PyStr name)
                           ((linker_descriptors_of (sub_mol molcif il.2 g) depth).2
                              ++ [PyStr name])) l rows
    ∧ (l = [] ∧ acc'.2 = acc.2 ∨ l ≠ [] ∧ ∀ m, acc'.2 = Some (linker_descriptors_of m depth).1).
Proof.
  induction l as [|[i linker] l IH]; intros acc s acc' s' E; simpl in E.
  - injection E as <- _. exists []. rewrite app_nil_r. split_and!; auto.
  - apply bind_Ok_inv in E as (acc1 & s1 & E1 & E).
    apply linker_body_values in E1 as (g & Hg & Hrow & Hn).
    apply IH in E as (rows & Hrows & Hall & Hnames).
    eexists (_ :: rows). rewrite Hrows, Hrow, <- app_assoc. split; [reflexivity|].
    split; [constructor; [exists g; split; [exact Hg | reflexivity] | exact Hall]|].
    right. split; [discriminate|].
    intros m. destruct Hnames as [[_ ->] | [_ Hnames]]; [|apply Hnames].
    rewrite Hn. reflexivity.
Qed.

(** X12.  When [make_MOF_linker_RACs] returns, there was at least one
    linker, the names are the fixed column names of the five full-scope
    autocorrelations, and the averaged vector is the averaging step applied
    to one row per linker, in order: the values [full_autocorrelation] gave
    for that linker, unchanged by the insertion and removal of the
    structure name. *)
Theorem linker_average_is_the_mean_of_the_kernel_rows
    (linkerlist : list (list nat)) (subs : list adj_matrix) (molcif : mol3D) (depth : nat)
    (name : string) (cell_v : cell) (superlist : list (gset nat)) (s s' : store)
    (names : list string) (avg : ndarray Q) :
  make_MOF_linker_RACs linkerlist subs molcif depth name cell_v superlist s
  = (Ok (names, avg), s') →
  linkerlist ≠ []
  ∧ (∀ m, names = (linker_descriptors_of m depth).1)
  ∧ ∃ qrows,
      Forall2 (λ (il : nat * list nat) q, ∃ g,
                 subs !! il.1 = Some g
                 ∧ mapM to_Q (linker_descriptors_of (sub_mol molcif il.2 g) depth).2 = Some q)
              (enumerate linkerlist) qrows
      ∧ avg = np_mean_Q qrows.
Proof.
  unfold make_MOF_linker_RACs. intros E.
  apply bind_Ok_inv in E as (df & s1 & E1 & E). clear E1.
  apply bind_Ok_inv in E as ([[df' dl] cn] & s2 & Eloop & E).
  apply linker_loop_values in Eloop as (rows & Hrows & Hall & Hnames).
  cbn [fst snd] in Hrows, Hnames. rewrite app_nil_l in Hrows. subst dl.
  apply bind_Ok_inv in E as (u & s3 & _ & E).
  apply bind_Ok_inv in E as (a & s4 & Emean & E).
  unfold ret, raise in E. destruct cn as [c|]; [|discriminate]. injection E as <- <- _.
  destruct Hnames as [[Hnil Hcn] | [Hne Hnames]]; [discriminate|].
  split; [intros ->; apply Hne; reflexivity|].
  split; [intros m; specialize (Hnames m); congruence|].
  unfold np_mean, ret, raise in Emean.
  destruct (mapM (mapM to_Q) rows) as [qrows|] eqn:Eq; [|discriminate].
  exists qrows. split.
  - apply mapM_Some in Eq. clear Emean Hne.
    revert qrows Eq. induction Hall as [|il row l rows' (g & Hg & Hrow) Hall IH]; intros qrows Eq.
    + inversion Eq. constructor.
    + inversion Eq as [|? q ? qrows' Hq Hrest]; subst qrows. constructor; [|apply IH, Hrest].
      exists g. split; [exact Hg|].
      rewrite Hrow in Hq. rewrite (py_remove_snoc_numeric name _ q Hq) in Hq. exact Hq.
  - destruct (np_mean_Q qrows); [injection Emean as <- _; reflexivity
                                | injection Emean as <- _; reflexivity | discriminate].
Qed.
End LinkerAverage.

Lemma linker_average_is_the_mean_of_the_kernel_rows_witness :
  [[1; 2; 3]] ≠ []
  ∧ (∀ m, ["f-lig-chi-0"; "f-lig-Z-0"; "f-lig-I-0"; "f-lig-T-0"; "f-lig-S-0"]
          = (linker_descriptors_of m 0).1)
  ∧ ∃ qrows,
      Forall2 (λ (il : nat * list nat) q, ∃ g,
                 [toy_slice_mat (graph bridge_mol) [1; 2; 3]] !! il.1 = Some g
                 ∧ mapM to_Q (linker_descriptors_of (sub_mol bridge_mol il.2 g) 0).2 = Some q)
              (enumerate [[1; 2; 3]]) qrows
      ∧ NdVector [3%Q; 3%Q; 3%Q; 3%Q; 3%Q] = np_mean_Q qrows.
Proof.
  eapply (linker_average_is_the_mean_of_the_kernel_rows [[1; 2; 3]]
            [toy_slice_mat (graph bridge_mol) [1; 2; 3]] bridge_mol 0 "bridge"
            (cell_of bridge_cif) [{[1; 3]}] empty_store).
  vm_compute. reflexivity.
Defined.

Lemma py_remove_snoc_floats (name : string) (v : list pyval) :
  forallb is_float v = true → py_remove (PyStr name) (v ++ [PyStr name]) = v.
Proof.
  induction v as [|y v IH]; simpl.
  - rewrite String.eqb_refl. reflexivity.
  - intros Hf. apply andb_true_iff in Hf as [Hy Hv].
    destruct y; try discriminate; simpl; rewrite IH by exact Hv; reflexivity.
Qed.

Lemma append_descriptors_fresh (names : list string) (descs : list pyval)
    (list_of_names : list (list string)) (list_of_props : list (list pyval))
    (c : ascii) (prefix suffix : string) :
  Ascii.eqb c "n" = false →
  (∀ y, y ∈ names → String.eqb y "name" = false) →
  ∀ y, y ∈ (append_descriptors names descs list_of_names list_of_props
                               (String c prefix) suffix).1 →
       String.eqb y "name" = false.
Proof.
  intros Hc Hn y. unfold append_descriptors. cbn [fst].
  rewrite elem_of_app. intros [Hy | Hy]; [apply Hn, Hy|].
  apply list_elem_of_In, in_concat in Hy as (l & Hl & Hy).
  apply in_map_iff in Hl as (l0 & <- & _).
  apply in_map_iff in Hy as (n & <- & _).
  simpl. rewrite Hc. reflexivity.
Qed.

Section SbuAverage.
Context `{PBC, Kernels}.

Lemma sbu_names_fresh (SBU_mol molcif : mol3D) (depth : nat) (y : string) :
  y ∈ (sbu_descriptors_of SBU_mol molcif depth).1 → String.eqb y "name" = false.
Proof.
  unfold sbu_descriptors_of.
  destruct (append_descriptors [] [] _ _ "f" "all") as [n1 d1] eqn:E1.
  destruct (append_descriptors n1 d1 _ _ "mc" "all") as [n2 d2] eqn:E2.
  apply (append_descriptors_fresh n2 d2 _ _ "D" "_mc" "all"); [reflexivity|].
  intros z. replace n2 with (n2, d2).1 by reflexivity. rewrite <- E2.
  apply (append_descriptors_fresh n1 d1 _ _ "m" "c" "all"); [reflexivity|].
  intros z'. replace n1 with (n1, d1).1 by reflexivity. rewrite <- E1.
  apply (append_descriptors_fresh [] [] _ _ "f" "" "all"); [reflexivity|].
  intros z'' Hz. inversion Hz.
Qed.

Lemma lc_body_values molcif depth name anchoring conn_subs SBU acc jl s acc' s' :
  lc_body molcif depth name anchoring conn_subs SBU acc jl s = (Ok acc', s') →
  descriptor_list acc' = descriptor_list acc
  ∧ names acc' = names acc
  ∧ averaged_lc_descriptors acc' = averaged_lc_descriptors acc
  ∧ if touching SBU jl.2
    then ∃ r, lc_row_of molcif depth anchoring conn_subs jl r
              ∧ lc_descriptor_list acc' = lc_descriptor_list acc ++ [r]
    else lc_descriptor_list acc' = lc_descriptor_list acc.
Proof.
  unfold lc_body, touching. destruct jl as [j linker]. cbn [snd].
  destruct (0 <? _).
  - intros E.
    apply bind_Ok_inv in E as (g & s1 & Eg & E).
    unfold index, ret, raise in Eg.
    destruct (conn_subs !! j) as [g0|] eqn:Esub; [|discriminate]. injection Eg as -> _.
    apply bind_Ok_inv in E as ([n v] & s2 & End & E).
    apply bind_Ok_inv in E as (u & s3 & Ety & E).
    unfold check_typing, ret, raise in Ety. cbn [snd] in Ety.
    destruct (forallb is_float v) eqn:Efl; [|discriminate].
    apply bind_Ok_inv in E as ([[d n'] v'] & s4 & Et & E).
    apply tagged_row_Ok in Et as [_ Ev]. cbn [fst snd] in Ev.
    rewrite (py_remove_snoc_floats name v Efl) in Ev. subst v'.
    injection E as <- _. cbn. split_and!; try reflexivity.
    exists v. split; [|reflexivity].
    exists g, n, s1, s2. cbn [fst snd]. auto.
  - intros [= <- _]. auto.
Qed.

Lemma lc_loop_values molcif depth name anchoring conn_subs SBU l :
  ∀ acc s acc' s',
  forM l (lc_body molcif depth name anchoring conn_subs SBU) acc s = (Ok acc', s') →
  descriptor_list acc' = descriptor_list acc
  ∧ names acc' = names acc
  ∧ averaged_lc_descriptors acc' = averaged_lc_descriptors acc
  ∧ ∃ rows, lc_descriptor_list acc' = lc_descriptor_list acc ++ rows
            ∧ Forall2 (lc_row_of molcif depth anchoring conn_subs)
                      (List.filter (λ jl, touching SBU jl.2) l) rows.
Proof.
  induction l as [|jl l IH]; intros acc s acc' s' E; simpl in E.
  - injection E as <- _. split_and!; try reflexivity.
    exists []. rewrite app_nil_r. split; [reflexivity | constructor].
  - apply bind_Ok_inv in E as (acc1 & s1 & E1 & E).
    apply lc_body_values in E1 as (D1 & N1 & A1 & L1).
    apply IH in E as (D2 & N2 & A2 & rows & L2 & Hall).
    split_and!; try congruence.
    cbn [List.filter]. destruct (touching SBU jl.2).
    + destruct L1 as (r & Hr & L1). exists (r :: rows).
      rewrite L2, L1, <- app_assoc. split; [reflexivity | constructor; assumption].
    + exists rows. rewrite L2, L1. auto.
Qed.

Lemma sbu_body_values molcif depth name cell_v anchoring gci subs conn conn_subs
    acc i SBU s acc' s' :
  sbu_body molcif depth name cell_v anchoring gci subs conn conn_subs acc (i, SBU) s
  = (Ok acc', s') →
  (∃ g, subs !! i = Some g
        ∧ descriptor_list acc'
          = descriptor_list acc
              ++ [py_remove (PyStr name)
                    ((sbu_descriptors_of (sub_mol molcif SBU g) molcif depth).2
                       ++ [PyStr name])]
        ∧ names acc' = if i =? 0
                       then (sbu_descriptors_of (sub_mol molcif SBU g) molcif depth).1
                       else names acc)
  ∧ (∃ rows, lc_descriptor_list acc' = lc_descriptor_list acc ++ rows
             ∧ Forall2 (lc_row_of molcif depth anchoring conn_subs)
                       (List.filter (λ jl, touching SBU jl.2) (enumerate conn)) rows)
  ∧ ∃ avg s0 s1, averaged_lc_descriptors acc' = Some avg
                 ∧ np_mean (lc_descriptor_list acc') s0 = (Ok avg, s1).
Proof.
  unfold sbu_body. intros E.
  apply bind_Ok_inv in E as (g & s1 & Eg & E).
  unfold index, ret, raise in Eg.
  destruct (subs !! i) as [g0|] eqn:Esub; [|discriminate]. injection Eg as -> _.
  apply bind_Ok_inv in E as (acc2 & s2 & Eloop & E).
  apply lc_loop_values in Eloop as (D2 & N2 & A2 & rows & L2 & Hall).
  apply bind_Ok_inv in E as (avg & s3 & Eavg & E).
  apply bind_Ok_inv in E as (u0 & s4 & _ & E).
  apply bind_Ok_inv in E as (u1 & s5 & _ & E).
  apply bind_Ok_inv in E as (u2 & s6 & _ & E).
  destruct (sbu_descriptors_of (sub_mol molcif SBU g) molcif depth) as [n v] eqn:Esd.
  apply bind_Ok_inv in E as ([[d n'] v'] & s7 & Et & E).
  apply tagged_row_Ok in Et as [En Ev]. cbn [fst snd] in En, Ev.
  injection E as <- _. cbn [descriptor_list names lc_descriptor_list averaged_lc_descriptors].
  split_and!.
  - exists g. rewrite Esd. cbn [fst snd]. split; [reflexivity|].
    rewrite D2, N2, Ev. split; [reflexivity|].
    destruct (i =? 0); [|reflexivity].
    rewrite En. apply str_remove_snoc_fresh.
    intros y Hy. apply (sbu_names_fresh (sub_mol molcif SBU g) molcif depth).
    rewrite Esd. exact Hy.
  - exists rows. auto.
  - exists avg, s2, s3. auto.
Qed.

Lemma np_mean_Ok (rows : list (list pyval)) (a : ndarray Q) (s s' : store) :
  np_mean rows s = (Ok a, s') →
  ∃ qrows, mapM (mapM to_Q) rows = Some qrows ∧ a = np_mean_Q qrows.
Proof.
  unfold np_mean, ret, raise.
  destruct (mapM (mapM to_Q) rows) as [qrows|]; [|discriminate].
  intros E. exists qrows. split; [reflexivity|].
  destruct (np_mean_Q qrows); [injection E as <- _; reflexivity
                              | injection E as <- _; reflexivity | discriminate].
Qed.

Lemma enumerate_tail_indices {A} (x : A) (l : list A) :
  ∃ tl, enumerate (x :: l) = (0, x) :: tl ∧ ∀ iS, iS ∈ tl → iS.1 ≠ 0.
Proof.
  exists (imap (pair ∘ S) l). split; [reflexivity|].
  intros iS Hin. apply elem_of_lookup_imap in Hin as (j & y & -> & _). simpl. lia.
Qed.


Lemma sbu_loop_values molcif depth name cell_v anchoring gci subs conn conn_subs l :
  ∀ acc s acc' s',
  forM l (sbu_body molcif depth name cell_v anchoring gci subs conn conn_subs) acc s
  = (Ok acc', s') →
  (∃ rows, descriptor_list acc' = descriptor_list acc ++ rows
           ∧ Forall2 (sbu_row_of molcif depth name subs) l rows)
  ∧ (∃ lcrows, lc_descriptor_list acc' = lc_descriptor_list acc ++ lcrows
               ∧ Forall2 (λ p r, lc_row_of molcif depth anchoring conn_subs p.2 r)
                         (connected_pairs l conn) lcrows)
  ∧ (l = [] ∧ averaged_lc_descriptors acc' = averaged_lc_descriptors acc
     ∨ l ≠ [] ∧ ∃ avg s0 s1, averaged_lc_descriptors acc' = Some avg
                            ∧ np_mean (lc_descriptor_list acc') s0 = (Ok avg, s1))
  ∧ ((∀ iS, iS ∈ l → iS.1 ≠ 0) → names acc' = names acc).
Proof.
  induction l as [|[i SBU] l IH]; intros acc s acc' s' E; simpl in E.
  - injection E as <- _. split_and!; auto.
    + exists []. rewrite app_nil_r. split; [reflexivity | constructor].
    + exists []. rewrite app_nil_r. split; [reflexivity | constructor].
  - apply bind_Ok_inv in E as (acc1 & s1 & E1 & E).
    apply sbu_body_values in E1 as ((g & Hg & D1 & N1) & (lc1 & L1 & Hlc1) & Havg1).
    apply IH in E as ((rows & D2 & Hrows) & (lc2 & L2 & Hlc2) & Havg2 & N2).
    split_and!.
    + eexists (_ :: rows). rewrite D2, D1, <- app_assoc. split; [reflexivity|].
      constructor; [exists g; auto | exact Hrows].
    + exists (lc1 ++ lc2). rewrite L2, L1, <- app_assoc. split; [reflexivity|].
      unfold connected_pairs. cbn [map concat]. apply Forall2_app; [|exact Hlc2].
      apply Forall2_fmap_l. cbn [snd]. exact Hlc1.
    + right. split; [discriminate|].
      destruct Havg2 as [[-> Ha] | [_ Ha]]; [|exact Ha].
      rewrite Ha. destruct Havg1 as (avg & s0 & s2 & A1 & M1).
      exists avg, s0, s2. split; [exact A1|].
      rewrite L2. inversion Hlc2. rewrite app_nil_r. exact M1.
    + intros Hnz. rewrite N2 by (intros iS HiS; apply Hnz; right; exact HiS).
      rewrite N1. specialize (Hnz (i, SBU)). simpl in Hnz.
      destruct (i =? 0) eqn:Ei; [|reflexivity].
      apply Nat.eqb_eq in Ei. exfalso. apply Hnz; [left | exact Ei].
Qed.

Lemma numeric_rows {I} (R : I → list pyval → Prop) (V : I → list pyval → Prop) (name : string)
    (l : list I) (rows : list (list pyval)) (qrows : list (list Q)) :
  (∀ i r, R i r → ∃ v, V i v ∧ r = py_remove (PyStr name) (v ++ [PyStr name])) →
  Forall2 R l rows →
  mapM (mapM to_Q) rows = Some qrows →
  Forall2 (λ i q, ∃ v, V i v ∧ mapM to_Q v = Some q) l qrows.
Proof.
  intros HR Hall Eq. apply mapM_Some in Eq. revert qrows Eq.
  induction Hall as [|i r l rows' Hr Hall IH]; intros qrows Eq.
  - inversion Eq. constructor.
  - inversion Eq as [|? q ? qrows' Hq Hrest]; subst qrows. constructor; [|apply IH, Hrest].
    destruct (HR i r Hr) as (v & Hv & Hrow). exists v. split; [exact Hv|].
    rewrite Hrow in Hq. rewrite (py_remove_snoc_numeric name _ q Hq) in Hq. exact Hq.
Qed.

Lemma make_MOF_SBU_RACs_values SBUlist subs molcif depth name cell_v anchoring superlist
    conn conn_subs s names0 avg lcn avg_lc s' :
  make_MOF_SBU_RACs SBUlist subs molcif depth name cell_v anchoring superlist conn conn_subs s
  = (Ok (names0, avg, lcn, avg_lc), s') →
  (∃ SBU0 g0, SBUlist !! 0 = Some SBU0 ∧ subs !! 0 = Some g0
              ∧ names0 = (sbu_descriptors_of (sub_mol molcif SBU0 g0) molcif depth).1)
  ∧ (∃ rows qrows, Forall2 (sbu_row_of molcif depth name subs) (enumerate SBUlist) rows
                   ∧ mapM (mapM to_Q) rows = Some qrows ∧ avg = np_mean_Q qrows)
  ∧ ∃ lcrows qrows,
      Forall2 (λ p r, lc_row_of molcif depth anchoring conn_subs p.2 r)
              (connected_pairs (enumerate SBUlist) conn) lcrows
      ∧ mapM (mapM to_Q) lcrows = Some qrows ∧ avg_lc = np_mean_Q qrows.
Proof.
  unfold make_MOF_SBU_RACs. intros E.
  apply bind_Ok_inv in E as (df & s1 & _ & E).
  apply bind_Ok_inv in E as (lc & s2 & _ & E).
  apply bind_Ok_inv in E as (acc & s3 & Eloop & E).
  apply bind_Ok_inv in E as (u & s4 & _ & E).
  apply bind_Ok_inv in E as (a & s5 & Emean & E).
  unfold ret, raise in E.
  destruct (averaged_lc_descriptors acc) as [al|] eqn:Eal; [|discriminate].
  injection E as <- <- <- <- _.
  pose proof Eloop as Eall.
  apply sbu_loop_values in Eall as ((rows & D & Hrows) & (lcrows & L & Hlc) & Havg & _).
  cbn [descriptor_list lc_descriptor_list averaged_lc_descriptors] in D, L, Havg.
  rewrite app_nil_l in D, L.
  destruct Havg as [[_ Hnone] | [Hne (avg' & s0 & s0' & Ha & Hm)]]; [congruence|].
  split_and!.
  - destruct SBUlist as [|SBU0 rest]; [contradiction Hne; reflexivity|].
    destruct (enumerate_tail_indices SBU0 rest) as (tl & Etl & Hnz).
    rewrite Etl in Eloop. cbn [forM] in Eloop.
    apply bind_Ok_inv in Eloop as (acc1 & s6 & E1 & Eloop).
    apply sbu_body_values in E1 as ((g & Hg & _ & N1) & _).
    apply sbu_loop_values in Eloop as (_ & _ & _ & N2).
    exists SBU0, g. split; [reflexivity|]. split; [exact Hg|].
    rewrite (N2 Hnz), N1. reflexivity.
  - apply np_mean_Ok in Emean as (qrows & Eq & ->). rewrite D in Eq. eauto.
  - rewrite Eal in Ha. injection Ha as <-.
    apply np_mean_Ok in Hm as (qrows & Eq & ->). rewrite L in Eq. eauto.
Qed.

(** X13.  When [make_MOF_SBU_RACs] returns, the names are those of the row
    of the first SBU, and the averaged SBU vector is the averaging step
    applied to one row per SBU, in order: the values the three kernels gave
    for that SBU, unchanged by the insertion and removal of the structure
    name. *)
Theorem sbu_average_is_the_mean_of_the_kernel_rows
    (SBUlist : list (list nat)) (subs : list adj_matrix) (molcif : mol3D) (depth : nat)
    (name : string) (cell_v : cell) (anchoring : gset nat) (superlist : list (gset nat))
    (conn : list (list nat)) (conn_subs : list adj_matrix) (s s' : store)
    (names0 lcn : list string) (avg avg_lc : ndarray Q) :
  make_MOF_SBU_RACs SBUlist subs molcif depth name cell_v anchoring superlist conn conn_subs s
  = (Ok (names0, avg, lcn, avg_lc), s') →
  (∃ SBU0 g0, SBUlist !! 0 = Some SBU0 ∧ subs !! 0 = Some g0
              ∧ names0 = (sbu_descriptors_of (sub_mol molcif SBU0 g0) molcif depth).1)
  ∧ ∃ qrows,
      Forall2 (λ (iS : nat * list nat) q, ∃ g,
                 subs !! iS.1 = Some g
                 ∧ mapM to_Q (sbu_descriptors_of (sub_mol molcif iS.2 g) molcif depth).2
                   = Some q)
              (enumerate SBUlist) qrows
      ∧ avg = np_mean_Q qrows.
Proof.
  intros E. apply make_MOF_SBU_RACs_values in E as (Hn & (rows & qrows & Hrows & Eq & ->) & _).
  split; [exact Hn|]. exists qrows. split; [|reflexivity].
  assert (Hall := numeric_rows (sbu_row_of molcif depth name subs)
            (λ iS v, ∃ g, subs !! iS.1 = Some g
                          ∧ v = (sbu_descriptors_of (sub_mol molcif iS.2 g) molcif depth).2)
            name (enumerate SBUlist) rows qrows).
  eapply Forall2_impl; [apply Hall; [|exact Hrows|exact Eq]|].
  - intros iS r (g & Hg & ->). eauto.
  - intros iS q (v & (g & Hg & ->) & Hq). eauto.
Qed.

(** X14.  The lc rows are never reset between SBUs: the lc average that
    [make_MOF_SBU_RACs] returns is the averaging step applied to one row
    per (SBU, linker) pair sharing an atom, over all SBUs in loop order, so
    a linker shared by two SBUs counts twice.  Each row is the list of
    floats [lc_descriptors_of] produced for that linker. *)
Theorem lc_average_runs_over_all_connected_pairs
    (SBUlist : list (list nat)) (subs : list adj_matrix) (molcif : mol3D) (depth : nat)
    (name : string) (cell_v : cell) (anchoring : gset nat) (superlist : list (gset nat))
    (conn : list (list nat)) (conn_subs : list adj_matrix) (s s' : store)
    (names0 lcn : list string) (avg avg_lc : ndarray Q) :
  make_MOF_SBU_RACs SBUlist subs molcif depth name cell_v anchoring superlist conn conn_subs s
  = (Ok (names0, avg, lcn, avg_lc), s') →
  ∃ lcrows qrows,
    Forall2 (λ p r, lc_row_of molcif depth anchoring conn_subs p.2 r)
            (connected_pairs (enumerate SBUlist) conn) lcrows
    ∧ mapM (mapM to_Q) lcrows = Some qrows
    ∧ avg_lc = np_mean_Q qrows.
Proof.
  intros E. apply make_MOF_SBU_RACs_values in E as (_ & _ & Hlc). exact Hlc.
Qed.
End SbuAverage.

Lemma sbu_average_is_the_mean_of_the_kernel_rows_witness :
  (∃ SBU0 g0,
     [[0; 1]; [3; 4]] !! 0 = Some SBU0
     ∧ [toy_slice_mat (graph bridge_mol) [0; 1]; toy_slice_mat (graph bridge_mol) [3; 4]] !! 0
       = Some g0
     ∧ ["f-chi-0-all"; "f-Z-0-all"; "f-I-0-all"; "f-T-0-all"; "f-S-0-all";
        "mc-chi-0-all"; "mc-Z-0-all"; "mc-I-0-all"; "mc-T-0-all"; "mc-S-0-all";
        "D_mc-chi-0-all"; "D_mc-Z-0-all"; "D_mc-I-0-all"; "D_mc-T-0-all"; "D_mc-S-0-all"]
       = (sbu_descriptors_of (sub_mol bridge_mol SBU0 g0) bridge_mol 0).1)
  ∧ ∃ qrows,
      Forall2 (λ (iS : nat * list nat) q, ∃ g,
                 [toy_slice_mat (graph bridge_mol) [0; 1];
                  toy_slice_mat (graph bridge_mol) [3; 4]] !! iS.1 = Some g
                 ∧ mapM to_Q (sbu_descriptors_of (sub_mol bridge_mol iS.2 g) bridge_mol 0).2
                   = Some q)
              (enumerate [[0; 1]; [3; 4]]) qrows
      ∧ NdVector (repeat (4 # 2)%Q 5 ++ repeat (10 # 2)%Q 10) = np_mean_Q qrows.
Proof.
  apply (sbu_average_is_the_mean_of_the_kernel_rows [[0; 1]; [3; 4]]
           [toy_slice_mat (graph bridge_mol) [0; 1]; toy_slice_mat (graph bridge_mol) [3; 4]]
           bridge_mol 0 "bridge" (cell_of bridge_cif) {[1; 3]} [{[1; 3]}]
           [[1; 2; 3]] [toy_slice_mat (graph bridge_mol) [1; 2; 3]] empty_store)
    with (s' := (bridge_halves_call empty_store).2)
         (lcn := match (bridge_halves_call empty_store).1 with
                 | Ok r => r.1.2
                 | Raise _ => []
                 end)
         (avg_lc := match (bridge_halves_call empty_store).1 with
                    | Ok r => r.2
                    | Raise _ => NdNaN
                    end).
  vm_compute. reflexivity.
Defined.

Lemma lc_average_runs_over_all_connected_pairs_witness :
  ∃ lcrows qrows,
    Forall2 (λ p r, lc_row_of bridge_mol 0 {[1; 3]}
                              [toy_slice_mat (graph bridge_mol) [1; 2; 3]] p.2 r)
            (connected_pairs (enumerate [[0; 1]; [3; 4]]) [[1; 2; 3]]) lcrows
    ∧ mapM (mapM to_Q) lcrows = Some qrows
    ∧ NdVector (repeat (4 # 2)%Q 12 ++ repeat (0 # 2)%Q 12) = np_mean_Q qrows.
Proof.
  apply (lc_average_runs_over_all_connected_pairs [[0; 1]; [3; 4]]
           [toy_slice_mat (graph bridge_mol) [0; 1]; toy_slice_mat (graph bridge_mol) [3; 4]]
           bridge_mol 0 "bridge" (cell_of bridge_cif) {[1; 3]} [{[1; 3]}]
           [[1; 2; 3]] [toy_slice_mat (graph bridge_mol) [1; 2; 3]] empty_store)
    with (s' := (bridge_halves_call empty_store).2)
         (names0 := match (bridge_halves_call empty_store).1 with
                    | Ok r => r.1.1.1
                    | Raise _ => []
                    end)
         (lcn := match (bridge_halves_call empty_store).1 with
                 | Ok r => r.1.2
                 | Raise _ => []
                 end)
         (avg := match (bridge_halves_call empty_store).1 with
                 | Ok r => r.1.1.2
                 | Raise _ => NdNaN
                 end).
  vm_compute. reflexivity.
Defined.

(** ** When the featurization step cannot return *)

Section FeaturizeFacts.
Context `{PBC, Kernels}.

(** X15.  With at least one linker left but no SBU sharing an atom with any
    linker of [connections_list], the featurization step cannot return a
    pair: no lc row exists, their average is the scalar nan, and the
    conversion of line 1178 (or an earlier step) raises. *)
Theorem featurization_needs_a_connected_pair (depth : nat) (name : string) (cell_v : cell)
    (molcif : mol3D) (anc_atoms : gset nat) (connections sbus : subgraphs) (st : pstate)
    (s : store) :
  1 ≤ length (linker_subgraphlist st) →
  connected_pairs (enumerate sbus.1) connections.1 = [] →
  ∃ e, (featurize depth name cell_v molcif anc_atoms connections sbus st s).1 = Raise e.
Proof.
  intros Hlen Hnone.
  destruct (featurize _ _ _ _ _ _ _ _ s) as [[out|e] s'] eqn:E; [|eauto].
  exfalso. unfold featurize in E. rewrite (proj2 (Nat.leb_le _ _) Hlen) in E.
  apply bind_Ok_inv in E as ([[[n1 d1] n2] d2] & s1 & Esbu & E).
  apply make_MOF_SBU_RACs_values in Esbu as (_ & _ & lcrows & qrows & Hall & Eq & ->).
  rewrite Hnone in Hall. inversion Hall; subst lcrows. simpl in Eq. injection Eq as <-.
  apply bind_Ok_inv in E as ([n3 d3] & s2 & _ & E).
  apply bind_Ok_inv in E as (v1 & s3 & _ & E).
  apply bind_Ok_inv in E as (v2 & s4 & _ & E).
  apply bind_Ok_inv in E as (v3 & s5 & E3 & _).
  discriminate E3.
Qed.
End FeaturizeFacts.

Lemma featurization_needs_a_connected_pair_witness :
  ∃ e, (featurize 0 "bridge" (cell_of bridge_cif) bridge_mol {[1; 3]}
                  ([[1; 2; 3]], [toy_slice_mat (graph bridge_mol) [1; 2; 3]])
                  ([[0]], [toy_slice_mat (graph bridge_mol) [0]])
                  (start_of bridge_mol) empty_store).1 = Raise e.
Proof.
  apply (featurization_needs_a_connected_pair 0 "bridge" (cell_of bridge_cif) bridge_mol
           {[1; 3]} ([[1; 2; 3]], [toy_slice_mat (graph bridge_mol) [1; 2; 3]])
           ([[0]], [toy_slice_mat (graph bridge_mol) [0]]) (start_of bridge_mol) empty_store).
  - vm_compute. lia.
  - vm_compute. reflexivity.
Defined.

(** ** Table rows *)

Lemma mk_dict_short (keys : list string) :
  ∀ (values : list pyval) (acc : row),
  length values < length keys → mk_dict keys values acc = Raise IndexError.
Proof.
  induction keys as [|k keys IH]; intros values acc Hlen; simpl in *; [lia|].
  destruct values as [|v values]; [reflexivity|]. apply IH. simpl in Hlen. lia.
Qed.

Lemma mk_dict_Ok (keys : list string) :
  ∀ (values : list pyval) (acc : row),
  length keys ≤ length values →
  ∃ d, mk_dict keys values acc = Ok d
       ∧ ∀ k, (∀ i, keys !! i = Some k → (∀ j, i < j → keys !! j ≠ Some k) →
                 d !! k = values !! i)
              ∧ (k ∉ keys → d !! k = acc !! k).
Proof.
  induction keys as [|k0 keys IH]; intros values acc Hlen.
  - exists acc. split; [reflexivity|]. intros k. split; [|reflexivity].
    intros i Hi. rewrite lookup_nil in Hi. discriminate.
  - destruct values as [|v0 values]; simpl in Hlen; [lia|].
    destruct (IH values (<[k0 := v0]> acc)) as (d & Ed & Hd); [lia|].
    exists d. split; [exact Ed|]. intros k. split.
    + intros [|i] Hi Hlast.
      * injection Hi as ->. simpl.
        destruct (Hd k) as [_ Hout]. rewrite Hout; [apply lookup_insert_eq|].
        intros Hin. apply list_elem_of_lookup_1 in Hin as [j Hj].
        apply (Hlast (S j)); [lia | exact Hj].
      * simpl. apply (proj1 (Hd k)); [exact Hi|].
        intros j Hj. apply (Hlast (S j)). lia.
    + intros Hnot. rewrite not_elem_of_cons in Hnot. destruct Hnot as [Hne Hnot].
      rewrite (proj2 (Hd k) Hnot). apply lookup_insert_ne. congruence.
Qed.

(** X16.  The table row built from a name list and a value list: when the
    names outnumber the values the comprehension raises IndexError; when
    they do not, the call returns with the store untouched, every name other
    than 'name' is mapped to the value at the position of its last
    occurrence, and the key 'name' is mapped to the entry of the extended
    value list at position [len(names)], which is the structure name exactly
    when the two lists are equally long. *)
Theorem row_maps_names_to_values (name : string) (names : list string)
    (values : list pyval) (s : store) :
  (length values < length names →
     tagged_row name names values s = (Raise IndexError, s))
  ∧ (length names ≤ length values →
     ∃ d, tagged_row name names values s
          = (Ok (d, str_remove "name" (names ++ ["name"]),
                 py_remove (PyStr name) (values ++ [PyStr name])), s)
          ∧ d !! "name" = (values ++ [PyStr name]) !! length names
          ∧ (length names = length values → d !! "name" = Some (PyStr name))
          ∧ ∀ i k, names !! i = Some k → k ≠ "name" →
                   (∀ j, i < j → names !! j ≠ Some k) → d !! k = values !! i).
Proof.
  unfold tagged_row, bind, lift, ret. split.
  - intros Hlen. rewrite mk_dict_short; [reflexivity|]. rewrite !length_app. simpl. lia.
  - intros Hlen.
    destruct (mk_dict_Ok (names ++ ["name"]) (values ++ [PyStr name]) ∅) as (d & Ed & Hd).
    { rewrite !length_app. simpl. lia. }
    rewrite Ed. exists d. split; [reflexivity|].
    assert (Hname : d !! "name" = (values ++ [PyStr name]) !! length names).
    { apply (proj1 (Hd "name")).
      - rewrite lookup_app_r, Nat.sub_diag by lia. reflexivity.
      - intros j Hj Hsome. apply lookup_lt_Some in Hsome.
        rewrite length_app in Hsome. simpl in Hsome. lia. }
    split; [exact Hname|]. split.
    + intros Heq. rewrite Hname, Heq, lookup_app_r, Nat.sub_diag by lia. reflexivity.
    + intros i k Hi Hne Hlast.
      rewrite (proj1 (Hd k) i).
      * apply lookup_app_l. apply lookup_lt_Some in Hi. lia.
      * rewrite lookup_app_l by (eapply lookup_lt_Some, Hi). exact Hi.
      * intros j Hj Hsome.
        destruct (decide (j < length names)) as [Hlt | Hge].
        -- rewrite lookup_app_l in Hsome by exact Hlt. apply (Hlast j Hj Hsome).
        -- rewrite lookup_app_r in Hsome by lia.
           destruct (j - length names) as [|n]; simpl in Hsome; [congruence | discriminate].
Qed.

(** ** Functional atoms *)

Lemma functional_atoms_from_spec (atoms : list atom3D) (link_list : list nat) (range : list nat) :
  ∀ acc,
  (∀ jj, jj ∈ range → jj ∈ link_list ∨ jj < length atoms) →
  ∃ fa, functional_atoms_from atoms link_list range acc = Ok (acc ++ fa)
        ∧ fa = List.filter (λ jj, negb (bool_decide (jj ∈ link_list))
                                  && match atoms !! jj with
                                     | Some a => negb (String.eqb (sym a) "C"
                                                       || String.eqb (sym a) "H")
                                     | None => false
                                     end) range.
Proof.
  induction range as [|jj range IH]; intros acc Hin; simpl.
  - exists []. rewrite app_nil_r. auto.
  - assert (Hin' : ∀ j, j ∈ range → j ∈ link_list ∨ j < length atoms).
    { intros j Hj. apply Hin. right. exact Hj. }
    case_bool_decide as Hl; simpl.
    + apply IH, Hin'.
    + destruct (Hin jj) as [Hc | Hlt]; [left | contradiction |].
      destruct (lookup_lt_is_Some_2 atoms jj Hlt) as [a Ha]. rewrite Ha.
      destruct (String.eqb (sym a) "C" || String.eqb (sym a) "H"); simpl.
      * apply IH, Hin'.
      * destruct (IH (acc ++ [jj]) Hin') as (fa & E & Hfa).
        exists (jj :: fa). rewrite E, <- app_assoc. simpl. split; [reflexivity|].
        rewrite Hfa. reflexivity.
Qed.

Lemma functional_atoms_from_short (atoms : list atom3D) (link_list : list nat)
    (range : list nat) :
  ∀ acc jj, jj ∈ range → jj ∉ link_list → length atoms ≤ jj →
  functional_atoms_from atoms link_list range acc = Raise IndexError.
Proof.
  induction range as [|x range IH]; intros acc jj Hin Hnl Hge; [inversion Hin|].
  simpl. apply elem_of_cons in Hin as [<- | Hin].
  - rewrite bool_decide_eq_false_2 by exact Hnl.
    rewrite lookup_ge_None_2 by exact Hge. reflexivity.
  - case_bool_decide; [eapply IH; eassumption|].
    destruct (atoms !! x) as [a|]; [|reflexivity].
    destruct (_ || _); eapply IH; eassumption.
Qed.

(** X17.  The functional atoms of a linker (lines 246-250): when some
    position of the subgraph that is not an lc atom has no atom in the
    molecule the scan raises IndexError; otherwise it returns, in ascending
    order and without repetition, exactly the positions that are not lc
    atoms and whose element is neither "C" nor "H", so functional atoms and
    lc atoms never overlap. *)
Theorem functional_atoms_are_the_other_heteroatoms (temp_mol : mol3D) (link_list : list nat) :
  ((∃ jj, jj < shape0 (graph temp_mol) ∧ (jj ∉ link_list) ∧ length (atoms temp_mol) ≤ jj) →
     functional_atoms temp_mol link_list = Raise IndexError)
  ∧ ((∀ jj, jj < shape0 (graph temp_mol) → jj ∈ link_list ∨ jj < length (atoms temp_mol)) →
     ∃ fa, functional_atoms temp_mol link_list = Ok fa
           ∧ (∀ jj, jj ∈ fa ↔ jj < shape0 (graph temp_mol) ∧ (jj ∉ link_list)
                              ∧ ∃ a, atoms temp_mol !! jj = Some a
                                     ∧ sym a ≠ "C" ∧ sym a ≠ "H")
           ∧ StronglySorted lt fa).
Proof.
  unfold functional_atoms. split.
  - intros (jj & Hlt & Hnl & Hge).
    apply (functional_atoms_from_short _ _ _ [] jj); [|exact Hnl|exact Hge].
    apply elem_of_seq. lia.
  - intros Hin.
    destruct (functional_atoms_from_spec (atoms temp_mol) link_list
                (seq 0 (shape0 (graph temp_mol))) []) as (fa & E & Hfa).
    { intros jj Hjj. apply Hin. apply elem_of_seq in Hjj. lia. }
    exists fa. split; [exact E|]. split.
    + intros jj. rewrite Hfa, list_elem_of_In, filter_In, <- list_elem_of_In, elem_of_seq.
      rewrite andb_true_iff, negb_true_iff, bool_decide_eq_false.
      split.
      * intros (Hr & Hnl & Ha). split; [lia|]. split; [exact Hnl|].
        destruct (atoms temp_mol !! jj) as [a|]; [|discriminate].
        exists a. split; [reflexivity|].
        apply negb_true_iff, orb_false_iff in Ha as [HC HH].
        apply String.eqb_neq in HC, HH. auto.
      * intros (Hr & Hnl & a & Ha & HC & HH). split; [lia|]. split; [exact Hnl|].
        rewrite Ha. apply negb_true_iff, orb_false_iff.
        split; apply String.eqb_neq; assumption.
    + rewrite Hfa. clear.
      generalize 0 as start. generalize (shape0 (graph temp_mol)) as n.
      induction n as [|n IH]; intros start; simpl; [constructor|].
      destruct (_ && _).
      * constructor; [apply IH|]. apply Forall_forall. intros x Hx.
        apply list_elem_of_In, filter_In in Hx as [Hx _]. apply in_seq in Hx. lia.
      * apply IH.
Qed.

(** ** A structure without linkers *)

Lemma succeeds_ret {A} (a : A) : succeeds (ret a).
Proof. intros s. exists a, s. reflexivity. Qed.

Lemma succeeds_bind {A B} (m : M A) (f : A → M B) :
  succeeds m → (∀ a, succeeds (f a)) → succeeds (bind m f).
Proof.
  intros Hm Hf s. destruct (Hm s) as (a & s1 & E). destruct (Hf a s1) as (b & s2 & E2).
  exists b, s2. unfold bind. rewrite E. exact E2.
Qed.

Lemma succeeds_write2file file text : succeeds (write2file file text).
Proof. intros s. eexists _, _. reflexivity. Qed.

Lemma succeeds_forM {A S} (l : list A) (body : S → A → M S) :
  (∀ acc x, succeeds (body acc x)) → ∀ acc, succeeds (forM l body acc).
Proof.
  intros Hb. induction l as [|x l IH]; intros acc; simpl.
  - apply succeeds_ret.
  - apply succeeds_bind; [apply Hb | apply IH].
Qed.

Ltac succeeds_step :=
  first [ apply succeeds_ret | apply succeeds_write2file
        | apply succeeds_bind; [|intros ?]
        | match goal with |- succeeds (if ?b then _ else _) => destruct b end
        | match goal with |- succeeds (let '(_, _) := ?p in _) => destruct p end ].

Lemma select_none {A} (keep : nat → bool) (l : list A) :
  (∀ i, i < length l → keep i = false) → select keep l = [].
Proof.
  induction l as [|x l IH] using rev_ind; intros Hk; [reflexivity|].
  rewrite select_snoc, IH.
  - rewrite Hk; [reflexivity|]. rewrite length_app. simpl. lia.
  - intros i Hi. apply Hk. rewrite length_app. simpl. lia.
Qed.

Section NoLinkerLeft.
Context `{Elements, PBC, Kernels, Diagnostics}.

Lemma succeeds_log_coordination molcif name types metals :
  succeeds (log_coordination molcif name types metals).
Proof. unfold log_coordination. apply succeeds_forM. intros. apply succeeds_write2file. Qed.

Lemma succeeds_assemble_SBUs molcif adj name allatoms st :
  succeeds (assemble_SBUs molcif adj name allatoms st).
Proof. unfold assemble_SBUs. repeat succeeds_step. Qed.

(** X18.  With the three diagnostics off (the defaults): when every
    candidate is reclassified as a ligand, the rest of the run raises
    nothing, returns the pair ([0], [0]), leaves the three tables as they
    were and ends FailedStructures.log with the line about zero or one
    linkers.  The two linker lists that [get_closed_subgraph] returns are
    assumed to be equally long. *)
Theorem all_ligands_gives_the_sentinel (data : cif_file) (depth : nat) (molcif : mol3D)
    (adj : adj_matrix) (s : store) :
  let start := partition_start molcif adj in
  length (linker_subgraphlist start) = length (linker_list start) →
  (∀ i, i < length (linker_list start) →
        kept_at molcif adj (cell_of data) (partition_initial_SBUs molcif adj) start i = false) →
  ∃ s' earlier,
    partition_and_featurize data depth molcif adj false false false s
    = (Ok ([PyInt 0], [PyInt 0]), s')
    ∧ tables s' = tables s
    ∧ texts s' !! "/FailedStructures.log"
      = Some (earlier ++ ["Failed to featurize " +:+ cif_name data
                            +:+ ": Only zero or one total linkers identified." +:+ nl]).
Proof.
  intros start Hlen Hnone. unfold partition_and_featurize.
  destruct (succeeds_log_coordination molcif (cif_name data) (allatomtypes data)
              (elements (list_to_set (findMetal molcif) : gset nat)) s) as ([] & s1 & E1).
  pose proof (quiet_run _ _ _ _ (quiet_log_coordination _ _ _ _) E1) as Q1.
  unfold bind at 1. rewrite E1.
  destruct (reclassify_full molcif adj (cell_of data) (cif_name data)
              (partition_initial_SBUs molcif adj) start s1 Hlen)
    as (st' & s2 & E2 & _ & HS & _).
  pose proof (quiet_run _ _ _ _ (quiet_reclassify _ _ _ _ _ _) E2) as Q2.
  fold (partition_initial_SBUs molcif adj). fold (partition_start molcif adj). fold start.
  unfold bind at 1. rewrite E2.
  rewrite select_none in HS by (intros i Hi; apply Hnone; rewrite <- Hlen; exact Hi).
  destruct (succeeds_assemble_SBUs molcif adj (cif_name data)
              (list_to_set (seq 0 (shape0 adj))) st' s2) as (sbus & s3 & E3).
  pose proof (quiet_run _ _ _ _ (quiet_assemble_SBUs _ _ _ _ _) E3) as Q3.
  unfold bind at 1. rewrite E3.
  unfold featurize. rewrite HS. cbn [length Nat.leb Nat.eqb].
  unfold bind, ret, log_empty, diagnostics, write2file. cbn.
  eexists _, (default [] (texts s3 !! "/FailedStructures.log")).
  split; [reflexivity|]. split.
  - unfold tables. cbn.
    destruct Q1 as (A1 & A2 & A3), Q2 as (B1 & B2 & B3), Q3 as (C1 & C2 & C3).
    rewrite C1, C2, C3, B1, B2, B3, A1, A2, A3. reflexivity.
  - cbn. apply lookup_insert_eq.
Qed.
End NoLinkerLeft.

Lemma all_ligands_gives_the_sentinel_witness :
  ∃ s' earlier,
    @partition_and_featurize toy_elements toy_pbc toy_kernels quiet_diagnostics
      chelate_cif 0 chelate_mol (graph chelate_mol) false false false empty_store
    = (Ok ([PyInt 0], [PyInt 0]), s')
    ∧ tables s' = tables empty_store
    ∧ texts s' !! "/FailedStructures.log"
      = Some (earlier ++ ["Failed to featurize " +:+ cif_name chelate_cif
                            +:+ ": Only zero or one total linkers identified." +:+ nl]).
Proof.
  apply (@all_ligands_gives_the_sentinel toy_elements toy_pbc toy_kernels quiet_diagnostics
           chelate_cif 0 chelate_mol (graph chelate_mol) empty_store).
  - reflexivity.
  - intros i Hi. assert (i = 0) as -> by (vm_compute in Hi; lia).
    vm_compute. reflexivity.
Defined.

(** ** Pairwise distances *)

Lemma sq_dist_sym (xi : list R) : ∀ xj, sq_dist xi xj = sq_dist xj xi.
Proof.
  unfold sq_dist. induction xi as [|a xi IH]; intros [|b xj]; simpl; try reflexivity.
  rewrite IH. f_equal. unfold Rsqr. ring.
Qed.

Lemma sq_dist_nonneg (xi : list R) : ∀ xj, (0 <= sq_dist xi xj)%R.
Proof.
  unfold sq_dist. induction xi as [|a xi IH]; intros [|b xj]; simpl; try apply Rle_refl.
  apply Rplus_le_le_0_compat; [apply Rle_0_sqr | apply IH].
Qed.

Lemma sq_dist_refl (x : list R) : sq_dist x x = 0%R.
Proof.
  unfold sq_dist. induction x as [|a x IH]; simpl; [reflexivity|].
  rewrite IH. unfold Rsqr. ring.
Qed.

Lemma sq_dist_zero (xi : list R) :
  ∀ xj, length xi = length xj → sq_dist xi xj = 0%R → xi = xj.
Proof.
  induction xi as [|a xi IH]; intros [|b xj] Hlen Hz; try discriminate; [reflexivity|].
  unfold sq_dist in Hz. simpl in Hz. fold (sq_dist xi xj) in Hz.
  pose proof (Rle_0_sqr (a - b)) as H1. pose proof (sq_dist_nonneg xi xj) as H2.
  assert (Ha : Rsqr (a - b) = 0%R) by lra.
  assert (Hr : sq_dist xi xj = 0%R) by lra.
  apply Rsqr_0_uniq in Ha. f_equal; [lra|]. apply IH; [|exact Hr].
  simpl in Hlen. lia.
Qed.

(** X19.  On exact reals [dist_mat_comp] returns a square table over the
    rows of its argument: the entries (i, j) and (j, i) are the same
    non-negative number whose square is the sum of the squared coordinate
    differences, the diagonal is zero, and a zero entry between rows of the
    same width means equal rows. *)
Theorem pairwise_distances_form_a_symmetric_table (X : list (list R)) :
  length (dist_mat_comp X) = length X
  ∧ (∀ row, row ∈ dist_mat_comp X → length row = length X)
  ∧ ∀ i j xi xj, X !! i = Some xi → X !! j = Some xj →
      ∃ d, dist_mat_comp X !! i ≫= (.!! j) = Some d
           ∧ dist_mat_comp X !! j ≫= (.!! i) = Some d
           ∧ (0 <= d)%R
           ∧ (d * d = sq_dist xi xj)%R
           ∧ (i = j → d = 0%R)
           ∧ (length xi = length xj → d = 0%R → xi = xj).
Proof.
  unfold dist_mat_comp. split; [apply length_map|]. split.
  - intros row Hrow. apply list_elem_of_fmap in Hrow as (xi & -> & _). apply length_map.
  - intros i j xi xj Hi Hj. exists (sqrt (sq_dist xi xj)).
    rewrite !list_lookup_fmap, Hi, Hj. simpl. rewrite !list_lookup_fmap, Hi, Hj. simpl.
    split_and!.
    + reflexivity.
    + rewrite (sq_dist_sym xj xi). reflexivity.
    + apply sqrt_pos.
    + apply sqrt_sqrt, sq_dist_nonneg.
    + intros ->. rewrite Hi in Hj. injection Hj as ->.
      rewrite sq_dist_refl. apply sqrt_0.
    + intros Hlen Hz. apply sq_dist_zero; [exact Hlen|].
      apply sqrt_eq_0; [apply sq_dist_nonneg | exact Hz].
Qed.

(** ** The output folders *)

Lemma dirname_aux_child (path name : string) :
  dirname_aux name = None → dirname_aux (path +:+ "/" +:+ name) = Some path.
Proof.
  intros Hn. induction path as [|c path IH].
  - change (dirname_aux (String "/" name) = Some ""). simpl. rewrite Hn. reflexivity.
  - change (dirname_aux (String c (path +:+ "/" +:+ name)) = Some (String c path)).
    simpl. rewrite IH. reflexivity.
Qed.

Lemma dirname_child (path name : string) :
  dirname_aux name = None → dirname (path +:+ "/" +:+ name) = path.
Proof. intros Hn. unfold dirname. rewrite dirname_aux_child by exact Hn. reflexivity. Qed.

Lemma keeps_refl fs : keeps fs fs.
Proof. intros q n Hq. exact Hq. Qed.

Lemma keeps_trans fs1 fs2 fs3 : keeps fs1 fs2 → keeps fs2 fs3 → keeps fs1 fs3.
Proof. intros H1 H2 q n Hq. apply H2, H1, Hq. Qed.

Lemma keeps_insert_fresh (fs : fsys) p n : fs !! p = None → keeps fs (<[p := n]> fs).
Proof.
  intros Hp q m Hq. rewrite lookup_insert_ne; [exact Hq|]. intros ->. congruence.
Qed.

(** One step of either loop, for a child [p] of the folder [path]. *)
Lemma ensure_child (path : string) (p : string) (n : node) (fs : fsys)
    (create : string → fsys → result unit * fsys) :
  (∀ fs0, fs0 !! p = None → parent_is_folder p fs0 = true →
          create p fs0 = (Ok tt, <[p := n]> fs0)) →
  parent_is_folder p fs = true →
  ∃ fs', (if negb (os_path_exists p fs) then create p fs else (Ok tt, fs)) = (Ok tt, fs')
         ∧ keeps fs fs' ∧ is_Some (fs' !! p)
         ∧ (is_Some (fs !! p) → fs' = fs).
Proof.
  intros Hcreate Hparent. unfold os_path_exists. case_bool_decide as Hex; simpl.
  - exists fs. split_and!; auto using keeps_refl.
  - assert (Hnone : fs !! p = None).
    { destruct (fs !! p) eqn:E; [exfalso; apply Hex; eauto | reflexivity]. }
    exists (<[p := n]> fs). rewrite Hcreate by assumption. split_and!.
    + reflexivity.
    + apply keeps_insert_fresh, Hnone.
    + rewrite lookup_insert_eq. eauto.
    + intros Hs. contradiction.
Qed.

Lemma required_folder_parent (path : string) (p : string) :
  p ∈ required_folders path → dirname p = path.
Proof.
  unfold required_folders. intros Hp.
  repeat (apply elem_of_cons in Hp as [-> | Hp]; [apply dirname_child; reflexivity|]).
  inversion Hp.
Qed.

Lemma required_file_parent (path : string) (f : string) :
  f ∈ required_files → dirname (path +:+ "/" +:+ f) = path.
Proof.
  unfold required_files. intros Hf.
  repeat (apply elem_of_cons in Hf as [-> | Hf]; [apply dirname_child; reflexivity|]).
  inversion Hf.
Qed.

Lemma parent_is_folder_child (path p : string) (fs : fsys) :
  dirname p = path → fs !! path = Some Folder → parent_is_folder p fs = true.
Proof.
  intros Hd Hpath. unfold parent_is_folder. rewrite Hd.
  destruct path as [|c path']; [reflexivity|]. rewrite Hpath. reflexivity.
Qed.

(** A loop that makes sure each child of [path] in [l] exists. *)
Lemma ensure_children (path : string) (n : node) (name_of : string → string)
    (create : string → fsys → result unit * fsys) (l : list string) :
  (∀ x, x ∈ l → dirname (name_of x) = path) →
  (∀ p fs0, fs0 !! p = None → parent_is_folder p fs0 = true →
            create p fs0 = (Ok tt, <[p := n]> fs0)) →
  ∀ fs, fs !! path = Some Folder →
  ∃ fs', for_each l (λ x fs, if negb (os_path_exists (name_of x) fs)
                             then create (name_of x) fs else (Ok tt, fs)) fs
         = (Ok tt, fs')
         ∧ keeps fs fs'
         ∧ (∀ x, x ∈ l → is_Some (fs' !! name_of x))
         ∧ ((∀ x, x ∈ l → is_Some (fs !! name_of x)) → fs' = fs).
Proof.
  intros Hparent Hcreate. induction l as [|x l IH]; intros fs Hpath.
  - exists fs. split_and!; auto using keeps_refl. intros x Hx. inversion Hx.
  - destruct (ensure_child path (name_of x) n fs create) as (fs1 & E1 & K1 & S1 & I1).
    { intros fs0. apply Hcreate. }
    { apply (parent_is_folder_child path); [apply Hparent; left | exact Hpath]. }
    destruct IH with (fs := fs1) as (fs2 & E2 & K2 & S2 & I2).
    { intros y Hy. apply Hparent. right. exact Hy. }
    { apply K1, Hpath. }
    exists fs2. cbn [for_each]. rewrite E1. split_and!.
    + exact E2.
    + eapply keeps_trans; eassumption.
    + intros y Hy. apply elem_of_cons in Hy as [-> | Hy]; [|apply S2, Hy].
      destruct S1 as [m Hm]. exists m. apply K2, Hm.
    + intros Hall. assert (fs1 = fs) as -> by (apply I1, Hall; left).
      apply I2. intros y Hy. apply Hall. right. exact Hy.
Qed.

(** X20.  [path_maker] on an existing folder [path] raises nothing; it
    leaves every path that existed, folder or file with its content, as it
    was (a descriptor table that is already there is never truncated);
    afterwards the five folders and the three csv files exist; and when
    they all existed before, nothing changes at all. *)
Theorem path_maker_only_adds_what_is_missing (path : string) (fs : fsys) :
  fs !! path = Some Folder →
  ∃ fs', path_maker path fs = (Ok tt, fs')
         ∧ keeps fs fs'
         ∧ (∀ p, p ∈ required_folders path → is_Some (fs' !! p))
         ∧ (∀ f, f ∈ required_files → is_Some (fs' !! (path +:+ "/" +:+ f)))
         ∧ ((∀ p, p ∈ required_folders path → is_Some (fs !! p))
            → (∀ f, f ∈ required_files → is_Some (fs !! (path +:+ "/" +:+ f)))
            → fs' = fs).
Proof.
  intros Hpath. unfold path_maker, mkdir_if_absent, make_file_if_absent.
  destruct (ensure_children path Folder (λ p, p) os_mkdir (required_folders path))
    with (fs := fs) as (fs1 & E1 & K1 & S1 & I1).
  { apply required_folder_parent. }
  { intros p fs0 Hnone Hpar. unfold os_mkdir, os_path_exists.
    rewrite bool_decide_eq_false_2 by (rewrite Hnone; intros [? ?]; discriminate).
    rewrite Hpar. reflexivity. }
  { exact Hpath. }
  rewrite E1.
  destruct (ensure_children path (Regular "") (λ f, path +:+ "/" +:+ f) open_w_close
              required_files) with (fs := fs1) as (fs2 & E2 & K2 & S2 & I2).
  { apply required_file_parent. }
  { intros p fs0 Hnone Hpar. unfold open_w_close. rewrite Hnone, Hpar. reflexivity. }
  { apply K1, Hpath. }
  exists fs2. split_and!.
  - exact E2.
  - eapply keeps_trans; eassumption.
  - intros p Hp. destruct (S1 p Hp) as [m Hm]. exists m. apply K2, Hm.
  - exact S2.
  - intros Hd Hf. assert (fs1 = fs) as -> by (apply I1, Hd). apply I2, Hf.
Qed.

(** X21.  [path_maker] does not create the base folder: when [path] is not
    an existing folder and the first required folder is missing too, the
    first [os.mkdir] raises and nothing is created. *)
Theorem path_maker_needs_the_base_folder (path : string) (fs : fsys) :
  path ≠ "" →
  fs !! path ≠ Some Folder →
  fs !! (path +:+ "/ligands") = None →
  path_maker path fs = (Raise OSError, fs).
Proof.
  intros Hne Hpath Hlig. unfold path_maker, mkdir_if_absent, required_folders.
  cbn [for_each]. unfold os_path_exists, os_mkdir, os_path_exists.
  rewrite bool_decide_eq_false_2 by (rewrite Hlig; intros [? ?]; discriminate).
  cbn [negb]. unfold parent_is_folder.
  replace (dirname (path +:+ "/ligands")) with path
    by (symmetry; apply (dirname_child path "ligands"); reflexivity).
  destruct path as [|c path]; [contradiction Hne; reflexivity|].
  destruct (fs !! String c path) as [[|content]|]; [contradiction Hpath; reflexivity | |];
    reflexivity.
Qed.

Lemma path_maker_only_adds_what_is_missing_witness :
  ∃ fs', path_maker "out" used_folder = (Ok tt, fs')
         ∧ keeps used_folder fs'
         ∧ (∀ p, p ∈ required_folders "out" → is_Some (fs' !! p))
         ∧ (∀ f, f ∈ required_files → is_Some (fs' !! ("out" +:+ "/" +:+ f)))
         ∧ ((∀ p, p ∈ required_folders "out" → is_Some (used_folder !! p))
            → (∀ f, f ∈ required_files → is_Some (used_folder !! ("out" +:+ "/" +:+ f)))
            → fs' = used_folder).
Proof. apply (path_maker_only_adds_what_is_missing "out" used_folder). reflexivity. Defined.

Lemma path_maker_needs_the_base_folder_witness :
  path_maker "out" ∅ = (Raise OSError, ∅).
Proof.
  apply (path_maker_needs_the_base_folder "out" ∅).
  - discriminate.
  - rewrite lookup_empty. discriminate.
  - apply lookup_empty.
Defined.

(** ** Bond lengths between SBUs and linkers *)

Section BondFacts.
Context `{Elements}.
Variable shifted_distance : mol3D → cell → nat → nat → Q.
Variable COVALENT_RADII : string → option Q.

Lemma scan_empty_set (superlist : list (gset nat)) (linker : list nat) :
  ∀ cur, ∅ ∈ superlist → connection_points_scan superlist linker cur = Raise IndexError.
Proof.
  unfold connection_points_scan.
  induction superlist as [|a superlist IH]; intros cur Hin; [inversion Hin|].
  cbn [fold_result]. apply elem_of_cons in Hin as [<- | Hin].
  - rewrite elements_empty. reflexivity.
  - destruct (elements a !! 0) as [first|]; [|reflexivity].
    case_bool_decide; apply IH, Hin.
Qed.

Lemma scan_no_match (superlist : list (gset nat)) (linker : list nat) :
  ∀ cur,
  (∀ a, a ∈ superlist → ∃ first, elements a !! 0 = Some first ∧ first ∉ linker) →
  connection_points_scan superlist linker cur = Ok cur.
Proof.
  unfold connection_points_scan.
  induction superlist as [|a superlist IH]; intros cur Hall; [reflexivity|].
  cbn [fold_result]. destruct (Hall a) as (first & -> & Hnot); [left|].
  rewrite bool_decide_eq_false_2 by exact Hnot.
  apply IH. intros b Hb. apply Hall. right. exact Hb.
Qed.

(** X22.  The scan for connection points looks at the first element of
    every anchor set, whatever linker it is working on: as soon as there is
    a linker, one empty anchor set makes the bond-length pass raise
    IndexError before anything is measured; without any linker the two
    lists stay empty. *)
Theorem an_empty_anchor_set_stops_the_bond_lengths (linker_list : list (list nat))
    (linkeranchors_superlist : list (gset nat)) (adj : adj_matrix) (molcif : mol3D)
    (cell_v : cell) :
  (linker_list = [] →
     bond_length_lists shifted_distance COVALENT_RADII linker_list linkeranchors_superlist
                       adj molcif cell_v = Ok (None, ([], [])))
  ∧ (linker_list ≠ [] → ∅ ∈ linkeranchors_superlist →
     bond_length_lists shifted_distance COVALENT_RADII linker_list linkeranchors_superlist
                       adj molcif cell_v = Raise IndexError).
Proof.
  split; [intros ->; reflexivity|].
  intros Hne Hin. destruct linker_list as [|l ls]; [contradiction Hne; reflexivity|].
  unfold bond_length_lists. cbn [fold_result fst].
  rewrite scan_empty_set by exact Hin. reflexivity.
Qed.


End BondFacts.

Section BondFacts2.
Context `{Elements}.
Variable shifted_distance : mol3D → cell → nat → nat → Q.
Variable COVALENT_RADII : string → option Q.
Variables (adj : adj_matrix) (molcif : mol3D) (cell_v : cell).

Abbreviation dist_of := (λ pm : nat * nat, shifted_distance molcif cell_v pm.1 pm.2).
Abbreviation scaled_of :=
  (λ pm : nat * nat,
     (shifted_distance molcif cell_v pm.1 pm.2,
      (default 0%Q (COVALENT_RADII (sym (getAtom molcif pm.2)))
       + default 0%Q (COVALENT_RADII (sym (getAtom molcif pm.1))))%Q)).

Lemma scan_last (superlist : list (gset nat)) (linker : list nat) :
  (∀ a, a ∈ superlist → a ≠ ∅) →
  ∀ cur,
  connection_points_scan superlist linker cur
  = Ok (match last (List.filter (starts_in linker) superlist) with
        | Some a => Some (elements a)
        | None => cur
        end).
Proof.
  unfold connection_points_scan.
  induction superlist as [|a superlist IH]; intros Hne cur; [reflexivity|].
  cbn [fold_result List.filter].
  assert (Hne' : ∀ b, b ∈ superlist → b ≠ ∅) by (intros b Hb; apply Hne; right; exact Hb).
  destruct (elements a !! 0) as [first|] eqn:Ea.
  - assert (Hs : starts_in linker a = bool_decide (first ∈ linker)).
    { unfold starts_in. rewrite Ea. reflexivity. }
    rewrite Hs. case_bool_decide.
    + rewrite IH by exact Hne'. rewrite last_cons.
      destruct (last (List.filter (starts_in linker) superlist)); reflexivity.
    + apply IH, Hne'.
  - exfalso. apply (Hne a); [left|].
    destruct (elements a) eqn:Ee; [|discriminate].
    apply elements_empty_inv in Ee. apply leibniz_equiv, Ee.
Qed.

Hypothesis radii_known : ∀ i, is_Some (COVALENT_RADII (sym (getAtom molcif i))).

Lemma measure_bond_eq (p : nat) (acc : bond_lists) (m : nat) :
  measure_bond shifted_distance COVALENT_RADII molcif cell_v p acc m
  = Ok (if ismetal false (getAtom molcif m)
        then (acc.1 ++ [dist_of (p, m)], acc.2 ++ [scaled_of (p, m)])
        else acc).
Proof.
  unfold measure_bond. destruct (ismetal false (getAtom molcif m)); [|reflexivity].
  destruct (radii_known m) as [r1 E1]. destruct (radii_known p) as [r2 E2].
  cbn [fst snd]. rewrite E1, E2. reflexivity.
Qed.

Lemma measure_neighbours (p : nat) (nbrs : list nat) :
  ∀ acc : bond_lists,
  fold_result nbrs (measure_bond shifted_distance COVALENT_RADII molcif cell_v p) acc
  = Ok (acc.1 ++ map dist_of (map (pair p)
                  (List.filter (λ m, ismetal false (getAtom molcif m)) nbrs)),
        acc.2 ++ map scaled_of (map (pair p)
                  (List.filter (λ m, ismetal false (getAtom molcif m)) nbrs))).
Proof.
  induction nbrs as [|m nbrs IH]; intros [a1 a2]; cbn [fold_result List.filter].
  - cbn [map fst snd]. rewrite !app_nil_r. reflexivity.
  - rewrite measure_bond_eq.
    destruct (ismetal false (getAtom molcif m)); rewrite IH; [|reflexivity].
    cbn [map fst snd]. rewrite <- !app_assoc. reflexivity.
Qed.

Lemma measure_all_points (points : list nat) :
  ∀ acc : bond_lists,
  measure_points shifted_distance COVALENT_RADII adj molcif cell_v points acc
  = Ok (acc.1 ++ map dist_of (concat (map (λ p, map (pair p)
                  (List.filter (λ m, ismetal false (getAtom molcif m)) (nonzero_row adj p)))
                  points)),
        acc.2 ++ map scaled_of (concat (map (λ p, map (pair p)
                  (List.filter (λ m, ismetal false (getAtom molcif m)) (nonzero_row adj p)))
                  points))).
Proof.
  unfold measure_points.
  induction points as [|p points IH]; intros [a1 a2]; cbn [fold_result map concat fst snd].
  - rewrite !app_nil_r. reflexivity.
  - rewrite measure_neighbours, IH. cbn [fst snd].
    rewrite !map_app, <- !app_assoc. reflexivity.
Qed.

Abbreviation pairs_of superlist linker :=
  (concat (map (λ p, map (pair p)
                         (List.filter (λ m, ismetal false (getAtom molcif m))
                                      (nonzero_row adj p)))
               (points_for superlist linker))).

Lemma linker_step (superlist : list (gset nat)) (linker : list nat)
    (cur : option (list nat)) (acc : bond_lists) :
  (∀ a, a ∈ superlist → a ≠ ∅) →
  (∃ a, a ∈ superlist ∧ starts_in linker a = true) →
  match connection_points_scan superlist linker cur with
  | Raise e => Raise e
  | Ok None => Raise UnboundLocalError
  | Ok (Some points) =>
      match measure_points shifted_distance COVALENT_RADII adj molcif cell_v points acc with
      | Raise e => Raise e
      | Ok acc' => Ok (Some points, acc')
      end
  end
  = Ok (Some (points_for superlist linker),
        (acc.1 ++ map dist_of (pairs_of superlist linker),
         acc.2 ++ map scaled_of (pairs_of superlist linker))).
Proof.
  intros Hne (a & Ha & Hs). rewrite scan_last by exact Hne. unfold points_for.
  assert (Hl : ∃ b, last (List.filter (starts_in linker) superlist) = Some b).
  { assert (Hin : a ∈ List.filter (starts_in linker) superlist).
    { apply list_elem_of_In, filter_In. split; [apply list_elem_of_In, Ha | exact Hs]. }
    destruct (List.filter (starts_in linker) superlist) as [|x xs _] using rev_ind;
      [inversion Hin|].
    exists x. apply last_snoc. }
  destruct Hl as [b ->]. rewrite measure_all_points. reflexivity.
Qed.


End BondFacts2.

(** ** The SBU skeleton *)

Section SkeletonFacts.
Variable place : cell → point → point → point.
Variables (atoms_sbu : list nat) (molcif : mol3D) (adj : adj_matrix) (cell_v : cell)
          (allatomtypes : list string).
Hypothesis types_known : ∀ x, x ∈ atoms_sbu → x < length allatomtypes.

Abbreviation Inv := (traversal_inv atoms_sbu adj).
Abbreviation step := (traversal_step place atoms_sbu molcif adj cell_v allatomtypes).
Abbreviation left := (passes_left atoms_sbu adj).

Lemma nonzero_row_length (i : nat) : length (nonzero_row adj i) ≤ shape0 adj.
Proof.
  unfold nonzero_row. etrans; [apply filter_length_le|]. rewrite length_seq. reflexivity.
Qed.

Lemma added_bound (st : traversal) :
  Inv st → length (added_idx st) ≤ size (list_to_set atoms_sbu : gset nat).
Proof.
  intros I. rewrite <- (size_list_to_set (C := gset nat) (added_idx st)) by apply I.
  apply subseteq_size. intros x Hx. apply elem_of_list_to_set in Hx.
  apply elem_of_list_to_set. apply I, Hx.
Qed.

Lemma pending_app (q1 q2 : list (nat * list nat)) (a : list nat) (d : gmap nat atom3D)
    (s : list atom3D) :
  pending {| added_idx := a; atom3D_dict := d; surrounded_sbu := s;
             sbu_atoms_to_branch_from := q1 ++ q2 |}
  = pending {| added_idx := a; atom3D_dict := d; surrounded_sbu := s;
               sbu_atoms_to_branch_from := q1 |}
    + pending {| added_idx := a; atom3D_dict := d; surrounded_sbu := s;
                 sbu_atoms_to_branch_from := q2 |}.
Proof.
  unfold pending. simpl. induction q1 as [|kl q1 IH]; simpl; [reflexivity|]. rewrite IH. lia.
Qed.

Lemma step_ok (st : traversal) :
  Inv st → sbu_atoms_to_branch_from st ≠ [] →
  ∃ st', step st = Ok st' ∧ Inv st' ∧ left st' < left st
         ∧ added_idx st `prefix_of` added_idx st'.
Proof.
  intros I Hq. unfold traversal_step.
  destruct (sbu_atoms_to_branch_from st) as [|[my_key pend] others] eqn:Eq;
    [contradiction Hq; reflexivity|].
  destruct (inv_pending _ _ _ I my_key pend) as (Hkey & Hne & Hpend); [rewrite Eq; left|].
  destruct pend as [|neighbor rest]; [contradiction Hne; reflexivity|].
  set (branch := match rest with [] => others | _ => (my_key, rest) :: others end).
  assert (Hbranch : ∀ k l, (k, l) ∈ branch →
             (k, l) ∈ others ∨ (k = my_key ∧ l = rest ∧ rest ≠ [])).
  { intros k l Hin. subst branch. destruct rest as [|r rest']; [left; exact Hin|].
    apply elem_of_cons in Hin as [[= -> ->] | Hin]; [right; split_and!; [reflexivity..|discriminate]
                                                    | left; exact Hin]. }
  assert (Hbranch' : ∀ k l, (k, l) ∈ others → (k, l) ∈ branch).
  { intros k l Hin. subst branch. destruct rest; [exact Hin | right; exact Hin]. }
  assert (Hrest : ∀ y, y ∈ rest → ∃ l, (my_key, l) ∈ branch ∧ y ∈ l).
  { intros y Hy. exists rest. split; [|exact Hy]. subst branch.
    destruct rest; [inversion Hy | left]. }
  assert (Hpb : ∀ a d s,
    pending {| added_idx := a; atom3D_dict := d; surrounded_sbu := s;
               sbu_atoms_to_branch_from := branch |} + 1 = pending st).
  { intros a d s. unfold pending. rewrite Eq. subst branch. simpl.
    destruct rest; simpl; lia. }
  assert (Hold : ∀ k l, (k, l) ∈ branch →
            k ∈ added_idx st ∧ l ≠ [] ∧ ∀ y, y ∈ l → y ∈ atoms_sbu ∧ y ∈ nonzero_row adj k).
  { intros k l Hin. apply Hbranch in Hin as [Hin | (-> & -> & Hr)].
    - apply (inv_pending _ _ _ I). rewrite Eq. right. exact Hin.
    - split; [exact Hkey|]. split; [exact Hr|]. intros y Hy. apply Hpend. right. exact Hy. }
  case_bool_decide as Hadded.
  - eexists. split; [reflexivity|]. split; [|split; [|reflexivity]].
    + constructor; cbn; try apply I.
      * exact Hold.
      * intros a b Ha Hb Hs.
        destruct (inv_closed _ _ _ I a b Ha Hb Hs) as [? | (k & l & Hin & Hbl)]; [auto|].
        rewrite Eq in Hin. apply elem_of_cons in Hin as [[= -> ->] | Hin].
        -- apply elem_of_cons in Hbl as [-> | Hbl]; [auto|].
           right. destruct (Hrest b Hbl) as (l & ? & ?). eauto.
        -- right. exists k, l. auto.
    + unfold passes_left. cbn [added_idx]. specialize (Hpb (added_idx st) (atom3D_dict st)
                                                        (surrounded_sbu st)). lia.
  - destruct (inv_dict _ _ _ I my_key Hkey) as [atom_my_key ->].
    destruct (Hpend neighbor) as [Hns Hnk]; [left|].
    destruct (lookup_lt_is_Some_2 allatomtypes neighbor (types_known _ Hns)) as [symb ->].
    set (added := added_idx st ++ [neighbor]).
    set (to_check := List.filter _ (nonzero_row adj neighbor)).
    set (new_atom3D := {| sym := symb; coords := _ |}).
    assert (Hcheck : ∀ y, y ∈ to_check ↔ y ∈ nonzero_row adj neighbor ∧ (y ∉ added)
                                          ∧ y ∈ atoms_sbu).
    { intros y. subst to_check.
      rewrite list_elem_of_In, filter_In, <- list_elem_of_In, andb_true_iff, negb_true_iff,
              bool_decide_eq_false, bool_decide_eq_true. tauto. }
    eexists. split; [reflexivity|]. split; [|split].
    + constructor; cbn [added_idx atom3D_dict surrounded_sbu sbu_atoms_to_branch_from].
      * apply NoDup_app. split; [apply I|]. split; [|apply NoDup_singleton].
        intros x Hx Hx'. apply list_elem_of_singleton in Hx' as ->. contradiction.
      * intros x Hx. apply elem_of_app in Hx as [Hx | Hx]; [apply I, Hx|].
        apply list_elem_of_singleton in Hx as ->. exact Hns.
      * intros k l Hin.
        assert (Hin' : (k, l) ∈ branch ∨ (k = neighbor ∧ l = to_check ∧ to_check ≠ [])).
        { destruct to_check as [|c cs] eqn:Ec; [left; exact Hin|].
          apply elem_of_app in Hin as [Hin | Hin]; [left; exact Hin|].
          apply list_elem_of_singleton in Hin as [= -> ->]. right. split_and!; [reflexivity..|discriminate]. }
        destruct Hin' as [Hin' | (-> & -> & Hne')].
        -- destruct (Hold k l Hin') as (H1 & H2 & H3).
           split; [apply elem_of_app; left; exact H1 | split; assumption].
        -- split; [apply elem_of_app; right; left|]. split; [exact Hne'|].
           intros y Hy. apply Hcheck in Hy as (H1 & _ & H3). auto.
      * intros x Hx. apply elem_of_app in Hx as [Hx | Hx].
        -- destruct (decide (x = neighbor)) as [-> | Hne'];
             [rewrite lookup_insert_eq; eauto|].
           rewrite lookup_insert_ne by congruence. apply I, Hx.
        -- apply list_elem_of_singleton in Hx as ->. rewrite lookup_insert_eq. eauto.
      * subst added. rewrite !length_app. simpl. rewrite (inv_atoms _ _ _ I). reflexivity.
      * intros a b Ha Hb Hs.
        destruct (decide (b ∈ added)) as [? | Hnb]; [left; assumption|]. right.
        assert (Hq' : ∀ k l, (k, l) ∈ branch ∨ (k = neighbor ∧ l = to_check ∧ to_check ≠ []) →
                  (k, l) ∈ match to_check with
                           | [] => branch
                           | _ :: _ => branch ++ [(neighbor, to_check)]
                           end).
        { intros k l [Hin | (-> & -> & Hne')].
          - destruct to_check; [exact Hin | apply elem_of_app; left; exact Hin].
          - destruct to_check; [contradiction Hne'; reflexivity | apply elem_of_app; right; left]. }
        apply elem_of_app in Ha as [Ha | Ha].
        -- destruct (inv_closed _ _ _ I a b Ha Hb Hs) as [Hin | (k & l & Hin & Hbl)].
           { exfalso. apply Hnb. apply elem_of_app. left. exact Hin. }
           rewrite Eq in Hin. apply elem_of_cons in Hin as [[= -> ->] | Hin].
           ++ apply elem_of_cons in Hbl as [-> | Hbl].
              { exfalso. apply Hnb. apply elem_of_app. right. left. }
              destruct (Hrest b Hbl) as (l & Hl1 & Hl2). exists my_key, l. split; [|exact Hl2].
              apply Hq'. left. exact Hl1.
           ++ exists k, l. split; [|exact Hbl]. apply Hq'. left. apply Hbranch', Hin.
        -- apply list_elem_of_singleton in Ha as ->.
           assert (Hbc : b ∈ to_check) by (apply Hcheck; auto).
           exists neighbor, to_check. split; [|exact Hbc].
           apply Hq'. right. split_and!; try reflexivity. intros E. rewrite E in Hbc. inversion Hbc.
      * intros i x Hi. subst added.
        destruct (decide (S i < length (added_idx st))) as [Hlt | Hge].
        -- rewrite lookup_app_l in Hi by exact Hlt.
           destruct (inv_reached _ _ _ I i x Hi) as (j & k & Hj & Hk & Hx).
           exists j, k. split; [exact Hj|]. split; [|exact Hx].
           rewrite lookup_app_l by (eapply lookup_lt_Some, Hk). exact Hk.
        -- apply lookup_lt_Some in Hi as Hlen. rewrite length_app in Hlen. simpl in Hlen.
           rewrite lookup_app_r in Hi by lia.
           replace (S i - length (added_idx st)) with 0 in Hi by lia. injection Hi as <-.
           apply list_elem_of_lookup_1 in Hkey as [j Hj].
           exists j, my_key. apply lookup_lt_Some in Hj as Hjl.
           split; [lia|]. split; [|exact Hnk].
           rewrite lookup_app_l by exact Hjl. exact Hj.
    + unfold passes_left. cbn [added_idx]. subst added. rewrite length_app. simpl.
      pose proof (added_bound st I) as Hb.
      assert (Hlt : length (added_idx st) < size (list_to_set atoms_sbu : gset nat)).
      { assert (Hb' : length (added_idx st ++ [neighbor])
                      ≤ size (list_to_set atoms_sbu : gset nat)).
        { rewrite <- (size_list_to_set (C := gset nat) (added_idx st ++ [neighbor])).
          - apply subseteq_size. intros x Hx. apply elem_of_list_to_set in Hx.
            apply elem_of_list_to_set. apply elem_of_app in Hx as [Hx | Hx]; [apply I, Hx|].
            apply list_elem_of_singleton in Hx as ->. exact Hns.
          - apply NoDup_app. split; [apply I|]. split; [|apply NoDup_singleton].
            intros x Hx Hx'. apply list_elem_of_singleton in Hx' as ->. contradiction. }
        rewrite length_app in Hb'. simpl in Hb'. lia. }
      assert (Hpend' : pending {| added_idx := added_idx st ++ [neighbor];
                  atom3D_dict := <[neighbor := new_atom3D]> (atom3D_dict st);
                  surrounded_sbu := surrounded_sbu st ++ [new_atom3D];
                  sbu_atoms_to_branch_from :=
                    match to_check with
                    | [] => branch
                    | _ :: _ => branch ++ [(neighbor, to_check)]
                    end |} + 1 ≤ pending st + shape0 adj).
      { assert (Hlen : length to_check ≤ shape0 adj).
        { subst to_check. etrans; [apply filter_length_le | apply nonzero_row_length]. }
        specialize (Hpb (added_idx st ++ [neighbor])
                        (<[neighbor := new_atom3D]> (atom3D_dict st))
                        (surrounded_sbu st ++ [new_atom3D])).
        destruct to_check as [|c cs] eqn:Ec; [lia|].
        rewrite pending_app. unfold pending at 2. cbn [sbu_atoms_to_branch_from foldr snd].
        lia. }
      nia.
    + apply prefix_app_r. reflexivity.
Qed.
End SkeletonFacts.

Lemma size_list_to_set_le (l : list nat) : size (list_to_set l : gset nat) ≤ length l.
Proof.
  induction l as [|x l IH]; [reflexivity|].
  cbn [list_to_set length]. rewrite size_union_alt, size_singleton.
  pose proof (subseteq_size (list_to_set l ∖ {[x]}) (list_to_set l : gset nat)) as Hs.
  assert (Hsub : (list_to_set l ∖ {[x]} : gset nat) ⊆ list_to_set l).
  { intros y Hy. apply elem_of_difference in Hy. tauto. }
  specialize (Hs Hsub). lia.
Qed.

Section SkeletonResult.
Variable place : cell → point → point → point.
Variables (atoms_sbu : list nat) (molcif : mol3D) (adj : adj_matrix) (cell_v : cell)
          (allatomtypes : list string).

Abbreviation Inv := (traversal_inv atoms_sbu adj).
Abbreviation left := (passes_left atoms_sbu adj).
Abbreviation loop := (traversal_loop place atoms_sbu molcif adj cell_v allatomtypes).

Lemma loop_ok :
  (∀ x, x ∈ atoms_sbu → x < length allatomtypes) →
  ∀ fuel st, Inv st → left st ≤ fuel →
  ∃ st', loop fuel st = Some (Ok st') ∧ Inv st' ∧ sbu_atoms_to_branch_from st' = []
         ∧ added_idx st `prefix_of` added_idx st'.
Proof.
  intros Htypes. induction fuel as [|fuel IH]; intros st I Hfuel.
  - destruct (sbu_atoms_to_branch_from st) as [|[k l] q] eqn:Eq.
    + exists st. simpl. rewrite Eq. auto.
    + exfalso. destruct (inv_pending _ _ _ I k l) as (_ & Hne & _); [rewrite Eq; left|].
      assert (Hp : 1 ≤ pending st).
      { unfold pending. rewrite Eq. destruct l; [contradiction Hne; reflexivity | simpl; lia]. }
      unfold passes_left in Hfuel. apply Nat.le_0_r, Nat.eq_add_0 in Hfuel as [H0 _].
      rewrite H0 in Hp. inversion Hp.
  - destruct (sbu_atoms_to_branch_from st) as [|[k l] q] eqn:Eq.
    + exists st. simpl. rewrite Eq. auto.
    + destruct (step_ok place atoms_sbu molcif adj cell_v allatomtypes Htypes st I)
        as (st1 & E1 & I1 & Hlt & P1); [rewrite Eq; discriminate|].
      destruct (IH st1 I1) as (st' & E & I' & Hq & P); [lia|].
      exists st'. simpl. rewrite Eq, E1. split; [exact E|]. split; [exact I'|].
      split; [exact Hq|]. etrans; eassumption.
Qed.

(** X25.  The traversal reads the first pending neighbour of the first key
    without checking that there is one: an SBU without atoms, and an SBU
    whose first atom is bonded to no other atom of the SBU (a single metal
    atom for example), both end in IndexError. *)
Theorem isolated_first_atom_raises (fuel : nat) :
  (atoms_sbu = [] →
     sbu_skeleton place atoms_sbu molcif adj cell_v allatomtypes fuel
     = Some (Raise IndexError))
  ∧ (∀ start, atoms_sbu !! 0 = Some start →
       (∀ b, b ∈ nonzero_row adj start → b ∉ atoms_sbu) →
       sbu_skeleton place atoms_sbu molcif adj cell_v allatomtypes (S fuel)
       = Some (Raise IndexError)).
Proof.
  unfold sbu_skeleton, traversal_start. split.
  - intros ->. reflexivity.
  - intros start -> Hnone.
    assert (Hf : List.filter (λ i, bool_decide (i ∈ atoms_sbu)) (nonzero_row adj start) = []).
    { induction (nonzero_row adj start) as [|b l IH]; [reflexivity|]. simpl.
      rewrite bool_decide_eq_false_2 by (apply Hnone; left).
      apply IH. intros c Hc. apply Hnone. right. exact Hc. }
    simpl. rewrite Hf. reflexivity.
Qed.

(** X26.  When the first atom of the SBU has a bonded atom inside the SBU
    and every atom of the SBU has a type, the traversal ends without raising
    within [shape0 + (shape0 + 1) * len(atoms_sbu)] passes.  It has then
    placed, once each and starting with the first atom, exactly the atoms
    that can be reached from it along bonds inside the SBU: every placed
    atom after the first is bonded to one placed before it, and every atom
    of the SBU bonded to a placed atom is placed. *)
Theorem sbu_skeleton_places_the_bonded_part (start : nat) (fuel : nat) :
  (∀ x, x ∈ atoms_sbu → x < length allatomtypes) →
  atoms_sbu !! 0 = Some start →
  (∃ b, b ∈ nonzero_row adj start ∧ b ∈ atoms_sbu) →
  shape0 adj + (shape0 adj + 1) * length atoms_sbu ≤ fuel →
  ∃ st,
    sbu_skeleton place atoms_sbu molcif adj cell_v allatomtypes fuel = Some (Ok st)
    ∧ sbu_atoms_to_branch_from st = []
    ∧ added_idx st !! 0 = Some start
    ∧ NoDup (added_idx st)
    ∧ (∀ x, x ∈ added_idx st → x ∈ atoms_sbu)
    ∧ (∀ a b, a ∈ added_idx st → b ∈ nonzero_row adj a → b ∈ atoms_sbu → b ∈ added_idx st)
    ∧ (∀ i x, added_idx st !! S i = Some x →
         ∃ j k, j ≤ i ∧ added_idx st !! j = Some k ∧ x ∈ nonzero_row adj k)
    ∧ length (surrounded_sbu st) = length (added_idx st).
Proof.
  intros Htypes Hstart (b0 & Hb0 & Hb0s) Hfuel.
  unfold sbu_skeleton, traversal_start. rewrite Hstart.
  set (L0 := List.filter (λ i, bool_decide (i ∈ atoms_sbu)) (nonzero_row adj start)).
  assert (HL0 : ∀ y, y ∈ L0 ↔ y ∈ nonzero_row adj start ∧ y ∈ atoms_sbu).
  { intros y. subst L0.
    rewrite list_elem_of_In, filter_In, <- list_elem_of_In, bool_decide_eq_true. tauto. }
  assert (Hs : start ∈ atoms_sbu) by (eapply list_elem_of_lookup_2, Hstart).
  match goal with |- ∃ _, loop _ ?s = _ ∧ _ => set (st0 := s) end.
  assert (I0 : Inv st0).
  { constructor; cbn.
    - apply NoDup_singleton.
    - intros x Hx. apply list_elem_of_singleton in Hx as ->. exact Hs.
    - intros k l Hin. apply list_elem_of_singleton in Hin as [= -> ->].
      split; [left|]. split.
      + intros E. assert (Hin : b0 ∈ L0) by (apply HL0; auto). rewrite E in Hin. inversion Hin.
      + intros y Hy. apply HL0 in Hy. tauto.
    - intros x Hx. apply list_elem_of_singleton in Hx as ->. rewrite lookup_singleton_eq. eauto.
    - reflexivity.
    - intros a b Ha Hb Hbs. apply list_elem_of_singleton in Ha as ->. right.
      exists start, L0. split; [left | apply HL0; auto].
    - intros i x Hi. discriminate. }
  destruct (loop_ok Htypes fuel st0 I0) as (st & E & I & Hq & P).
  { unfold passes_left, pending. cbn.
    assert (length L0 ≤ shape0 adj).
    { subst L0. etrans; [apply filter_length_le | apply nonzero_row_length]. }
    pose proof (size_list_to_set_le atoms_sbu). nia. }
  exists st. split; [exact E|]. split; [exact Hq|]. split_and!; try apply I.
  - destruct P as [t ->]. reflexivity.
  - intros a b Ha Hb Hbs.
    destruct (inv_closed _ _ _ I a b Ha Hb Hbs) as [? | (k & l & Hin & _)]; [assumption|].
    rewrite Hq in Hin. inversion Hin.
Qed.

End SkeletonResult.



Lemma sbu_skeleton_places_the_bonded_part_witness :
  ∃ st,
    sbu_skeleton place_there [0; 1] bridge_mol (graph bridge_mol) (cell_of bridge_cif)
                 (allatomtypes bridge_cif) 17 = Some (Ok st)
    ∧ sbu_atoms_to_branch_from st = []
    ∧ added_idx st !! 0 = Some 0
    ∧ NoDup (added_idx st)
    ∧ (∀ x, x ∈ added_idx st → x ∈ [0; 1])
    ∧ (∀ a b, a ∈ added_idx st → b ∈ nonzero_row (graph bridge_mol) a → b ∈ [0; 1] →
              b ∈ added_idx st)
    ∧ (∀ i x, added_idx st !! S i = Some x →
         ∃ j k, j ≤ i ∧ added_idx st !! j = Some k ∧ x ∈ nonzero_row (graph bridge_mol) k)
    ∧ length (surrounded_sbu st) = length (added_idx st).
Proof.
  apply (sbu_skeleton_places_the_bonded_part place_there [0; 1] bridge_mol (graph bridge_mol)
           (cell_of bridge_cif) (allatomtypes bridge_cif) 0 17).
  - intros x Hx. apply elem_of_cons in Hx as [-> | Hx]; [vm_compute; lia|].
    apply list_elem_of_singleton in Hx as ->. vm_compute. lia.
  - reflexivity.
  - exists 1. split; [|right; left].
    apply (bool_decide_unpack _). vm_compute. exact I.
  - vm_compute. lia.
Defined.

(** ** Connection indices *)

Lemma list_index_first (item : nat) (l : list nat) :
  item ∈ l →
  l !! list_index item l = Some item ∧ ∀ j, j < list_index item l → l !! j ≠ Some item.
Proof.
  intros Hin. unfold list_index.
  destruct (list_find_elem_of (λ y, y = item) l item Hin eq_refl) as [[i x] Hf].
  rewrite Hf. simpl. apply list_find_Some in Hf as (Hi & -> & Hfirst).
  split; [exact Hi|]. intros j Hj Hl. apply (Hfirst j item Hl Hj). reflexivity.
Qed.

(** X27.  The connection-indices file of a substructure lists, in ascending
    order and separated by blanks, one number per global connection atom
    that belongs to the substructure: the position of the first occurrence
    of that atom in the substructure. *)
Theorem connection_indices_are_sorted_positions (global_connection_indices : list nat)
    (substructure : list nat) :
  ∃ idx,
    connection_indices_text global_connection_indices substructure
    = String.concat " " (map pretty idx)
    ∧ StronglySorted Nat.le idx
    ∧ idx ≡ₚ map (λ item, list_index item substructure)
                 (List.filter (λ item, bool_decide (item ∈ substructure))
                              global_connection_indices)
    ∧ ∀ i, i ∈ idx ↔ ∃ item, item ∈ global_connection_indices
                             ∧ substructure !! i = Some item
                             ∧ ∀ j, j < i → substructure !! j ≠ Some item.
Proof.
  unfold connection_indices_text.
  set (raw := map (λ item, list_index item substructure)
                  (List.filter (λ item, bool_decide (item ∈ substructure))
                               global_connection_indices)).
  exists (merge_sort Nat.le raw). split; [reflexivity|].
  split; [apply StronglySorted_merge_sort; apply _|].
  split; [apply merge_sort_Permutation|].
  intros i. rewrite merge_sort_Permutation. subst raw. rewrite list_elem_of_fmap. split.
  - intros (item & -> & Hitem).
    apply list_elem_of_In, filter_In in Hitem as [Hg Hs].
    apply bool_decide_eq_true in Hs. apply list_elem_of_In in Hg.
    destruct (list_index_first item substructure Hs) as [H1 H2]. eauto.
  - intros (item & Hg & Hi & Hfirst).
    assert (Hs : item ∈ substructure) by (eapply list_elem_of_lookup_2, Hi).
    exists item. split.
    + destruct (list_index_first item substructure Hs) as [H1 H2].
      destruct (Nat.lt_trichotomy i (list_index item substructure)) as [Hlt | [Heq | Hgt]].
      * exfalso. apply (H2 i Hlt Hi).
      * exact Heq.
      * exfalso. apply (Hfirst _ Hgt H1).
    + apply list_elem_of_In, filter_In. split; [apply list_elem_of_In, Hg|].
      apply bool_decide_eq_true. exact Hs.
Qed.

(** ** The edge cases on concrete inputs *)

Lemma row_maps_names_to_values_witness :
  ∃ d, tagged_row "bridge" ["f-chi-0-all"] [NpFloat64 1%Q] empty_store
       = (Ok (d, str_remove "name" (["f-chi-0-all"] ++ ["name"]),
              py_remove (PyStr "bridge") ([NpFloat64 1%Q] ++ [PyStr "bridge"])), empty_store)
       ∧ d !! "name" = ([NpFloat64 1%Q] ++ [PyStr "bridge"]) !! length ["f-chi-0-all"]
       ∧ (length ["f-chi-0-all"] = length [NpFloat64 1%Q] → d !! "name" = Some (PyStr "bridge"))
       ∧ ∀ i k, ["f-chi-0-all"] !! i = Some k → k ≠ "name" →
                (∀ j, i < j → ["f-chi-0-all"] !! j ≠ Some k) → d !! k = [NpFloat64 1%Q] !! i.
Proof.
  apply (proj2 (row_maps_names_to_values "bridge" ["f-chi-0-all"] [NpFloat64 1%Q] empty_store)).
  simpl. lia.
Defined.

Lemma functional_atoms_are_the_other_heteroatoms_witness :
  ∃ fa, functional_atoms plain_linker [0] = Ok fa
        ∧ (∀ jj, jj ∈ fa ↔ jj < shape0 (graph plain_linker) ∧ (jj ∉ [0])
                           ∧ ∃ a, atoms plain_linker !! jj = Some a
                                  ∧ sym a ≠ "C" ∧ sym a ≠ "H")
        ∧ StronglySorted lt fa.
Proof.
  apply (proj2 (functional_atoms_are_the_other_heteroatoms plain_linker [0])).
  intros jj Hjj. right. vm_compute in Hjj. vm_compute. lia.
Defined.

Lemma an_empty_anchor_set_stops_the_bond_lengths_witness :
  bond_length_lists unit_distance unit_radii [[1; 2; 3]] [∅; {[1; 3]}]
                    (graph bridge_mol) bridge_mol (cell_of bridge_cif)
  = Raise IndexError.
Proof.
  apply (proj2 (an_empty_anchor_set_stops_the_bond_lengths unit_distance unit_radii
                  [[1; 2; 3]] [∅; {[1; 3]}] (graph bridge_mol) bridge_mol
                  (cell_of bridge_cif))).
  - discriminate.
  - left.
Defined.

Lemma isolated_first_atom_raises_witness :
  sbu_skeleton place_there [0] bridge_mol (graph bridge_mol) (cell_of bridge_cif)
               (allatomtypes bridge_cif) 1
  = Some (Raise IndexError).
Proof.
  apply (proj2 (isolated_first_atom_raises place_there [0] bridge_mol (graph bridge_mol)
                  (cell_of bridge_cif) (allatomtypes bridge_cif) 0) 0).
  - reflexivity.
  - intros b Hb Hin. apply list_elem_of_singleton in Hin as ->.
    apply elem_of_bonded_row in Hb. vm_compute in Hb.
    destruct Hb as [Hb | Hb];
      repeat (apply elem_of_cons in Hb as [Hb | Hb]; [discriminate|]); inversion Hb.
Defined.
